(** * N8N Workflow Analyzer: the fix-selection and patch-application logic

    A shallow embedding of [App.tsx] (the session state machine, the
    approved-fix set, the corrected-document computation) and of the
    response post-processing of [services/geminiService.ts], together with
    the parts of the JavaScript runtime these functions call: string
    trimming and searching, [JSON.parse] / [JSON.stringify], object and
    array property access on a store of mutable objects, and lodash's
    [set].

    Conventions of the model.
    - A JavaScript string is a Rocq [string]: the sequence of bytes of its
      UTF-8 form.
    - A JavaScript number is the decimal number its literal denotes, kept
      exactly (sign, significant digits, position of the decimal point).
      Rounding to a binary64 value, overflow to infinity and the sign of
      zero are not represented.
    - Objects and arrays live in a store addressed by locations; values
      refer to them by reference, so sharing and in-place update are
      visible.
    - The functions an object inherits from the built-in prototypes are
      values of their own, named by the host; which names are inherited is
      the host's to say (the [engine]).  What such a function holds as
      properties is not in the store: a write that goes on to read a
      property of one ends with the outcome [Outside], and the computation
      it is part of has the value [Undetermined]. *)

From Stdlib Require Import String Ascii ZArith NArith List Bool Lia.
From Stdlib Require Import DecimalN DecimalFacts.
From stdpp Require Import base tactics option list gmap strings.

Set Warnings "-clear-no-such-hyp".

Local Open Scope string_scope.
Local Open Scope char_scope.
Local Open Scope list_scope.
Local Open Scope nat_scope.

(** ** Text *)

Module Text.

(** The double-quote character. *)
Definition dq : ascii := "034".

(** [q s] is [s] with every apostrophe replaced by a double quote; it is
    used to write JSON texts readably. *)
Fixpoint q (s : string) : string :=
  match s with
  | EmptyString => EmptyString
  | String c t => String (if Ascii.eqb c "'" then dq else c) (q t)
  end.

(** White space as [String.prototype.trim] and the regular-expression
    class [\s] see it: the code points 9 to 13 and 32, which take one
    byte, *)
Definition is_space (c : ascii) : bool :=
  let n := nat_of_ascii c in
  ((9 <=? n) && (n <=? 13)) || (n =? 32).

(** U+00A0, which takes two, *)
Definition is_space2 (c1 c2 : ascii) : bool :=
  (nat_of_ascii c1 =? 194) && (nat_of_ascii c2 =? 160).

(** and U+1680, U+2000 to U+200A, U+2028, U+2029, U+202F, U+205F, U+3000
    and U+FEFF, which take three. *)
Definition is_space3 (c1 c2 c3 : ascii) : bool :=
  let a := nat_of_ascii c1 in
  let b := nat_of_ascii c2 in
  let c := nat_of_ascii c3 in
  ((a =? 225) && (b =? 154) && (c =? 128))
  || ((a =? 226) && (b =? 128)
      && (((128 <=? c) && (c <=? 138)) || (c =? 168) || (c =? 169) || (c =? 175)))
  || ((a =? 226) && (b =? 129) && (c =? 159))
  || ((a =? 227) && (b =? 128) && (c =? 128))
  || ((a =? 239) && (b =? 187) && (c =? 191)).

(** The text after the white-space character at the head of [s], when
    there is one. *)
Definition afterSpace (s : string) : option string :=
  match s with
  | String c1 t1 =>
      if is_space c1 then Some t1
      else match t1 with
           | String c2 t2 =>
               if is_space2 c1 c2 then Some t2
               else match t2 with
                    | String c3 t3 => if is_space3 c1 c2 c3 then Some t3 else None
                    | EmptyString => None
                    end
           | EmptyString => None
           end
  | EmptyString => None
  end.

Fixpoint trimStart (s : string) : string :=
  match s with
  | EmptyString => EmptyString
  | String c1 t1 =>
      if is_space c1 then trimStart t1
      else match t1 with
           | String c2 t2 =>
               if is_space2 c1 c2 then trimStart t2
               else match t2 with
                    | String c3 t3 => if is_space3 c1 c2 c3 then trimStart t3 else s
                    | EmptyString => s
                    end
           | EmptyString => s
           end
  end.

(** [s] has no character other than white space. *)
Fixpoint isBlank (s : string) : bool :=
  match s with
  | EmptyString => true
  | String c1 t1 =>
      if is_space c1 then isBlank t1
      else match t1 with
           | String c2 t2 =>
               if is_space2 c1 c2 then isBlank t2
               else match t2 with
                    | String c3 t3 => if is_space3 c1 c2 c3 then isBlank t3 else false
                    | EmptyString => false
                    end
           | EmptyString => false
           end
  end.

(** The text up to its trailing white space: it ends where what follows
    is white space only. *)
Fixpoint trimEnd (s : string) : string :=
  match s with
  | EmptyString => EmptyString
  | String c t => if isBlank s then EmptyString else String c (trimEnd t)
  end.

(** [s.trim()] *)
Definition trim (s : string) : string := trimEnd (trimStart s).

(** [s.startsWith(p)] *)
Fixpoint startsWith (p s : string) : bool :=
  match p, s with
  | EmptyString, _ => true
  | String a p', String b s' => Ascii.eqb a b && startsWith p' s'
  | String _ _, EmptyString => false
  end.

(** [s.includes(needle)] *)
Fixpoint includes (needle s : string) : bool :=
  startsWith needle s ||
  match s with
  | EmptyString => false
  | String _ t => includes needle t
  end.

Fixpoint dropChars (n : nat) (s : string) : string :=
  match n, s with
  | O, _ => s
  | S n', String _ t => dropChars n' t
  | S _, EmptyString => EmptyString
  end.

(** [stripEnd p s] removes [p] when [s] ends with it. *)
Fixpoint stripEnd (p s : string) : string :=
  match s with
  | EmptyString => EmptyString
  | String c t => if String.eqb s p then EmptyString else String c (stripEnd p t)
  end.

Definition fence_open : string := "```json".
Definition fence_close : string := "```".

(** [text.replace(/^```json\s*|```$/g, '')]: the first alternative can
    only match at the start of the text, the second only at its end, and
    the scan for the second resumes after the first match. *)
Definition stripFence (s : string) : string :=
  let s1 := if startsWith fence_open s
            then trimStart (dropChars (String.length fence_open) s)
            else s in
  stripEnd fence_close s1.

End Text.

(** ** Numbers *)

Inductive digit : Set := d0 | d1 | d2 | d3 | d4 | d5 | d6 | d7 | d8 | d9.

(** The number [0.d1 d2 ... dk * 10 ^ num_point], negated when [num_neg];
    this is the triple (digits [s], length [k], exponent [n]) in which
    ECMAScript's [Number::toString] is specified.  Zero has no digits. *)
Record number : Set := Num {
  num_neg : bool;
  num_digits : list digit;
  num_point : Z
}.

Module Numeral.

Definition digit_char (d : digit) : ascii :=
  match d with
  | d0 => "0" | d1 => "1" | d2 => "2" | d3 => "3" | d4 => "4"
  | d5 => "5" | d6 => "6" | d7 => "7" | d8 => "8" | d9 => "9"
  end.

Definition char_digit (c : ascii) : option digit :=
  match c with
  | "0" => Some d0 | "1" => Some d1 | "2" => Some d2 | "3" => Some d3
  | "4" => Some d4 | "5" => Some d5 | "6" => Some d6 | "7" => Some d7
  | "8" => Some d8 | "9" => Some d9 | _ => None
  end.

Definition is_digit (c : ascii) : bool :=
  match char_digit c with Some _ => true | None => false end.

Fixpoint digits_string (ds : list digit) : string :=
  match ds with
  | [] => EmptyString
  | d :: t => String (digit_char d) (digits_string t)
  end.

(** The longest prefix of digits, and what follows it. *)
Fixpoint takeDigits (s : string) : list digit * string :=
  match s with
  | EmptyString => ([], EmptyString)
  | String c t =>
      match char_digit c with
      | Some d => let '(ds, r) := takeDigits t in (d :: ds, r)
      | None => ([], s)
      end
  end.

Fixpoint uint_of_digits (ds : list digit) : Decimal.uint :=
  match ds with
  | [] => Decimal.Nil
  | d :: t =>
      let u := uint_of_digits t in
      match d with
      | d0 => Decimal.D0 u | d1 => Decimal.D1 u | d2 => Decimal.D2 u
      | d3 => Decimal.D3 u | d4 => Decimal.D4 u | d5 => Decimal.D5 u
      | d6 => Decimal.D6 u | d7 => Decimal.D7 u | d8 => Decimal.D8 u
      | d9 => Decimal.D9 u
      end
  end.

Fixpoint digits_of_uint (u : Decimal.uint) : list digit :=
  match u with
  | Decimal.Nil => []
  | Decimal.D0 u => d0 :: digits_of_uint u
  | Decimal.D1 u => d1 :: digits_of_uint u
  | Decimal.D2 u => d2 :: digits_of_uint u
  | Decimal.D3 u => d3 :: digits_of_uint u
  | Decimal.D4 u => d4 :: digits_of_uint u
  | Decimal.D5 u => d5 :: digits_of_uint u
  | Decimal.D6 u => d6 :: digits_of_uint u
  | Decimal.D7 u => d7 :: digits_of_uint u
  | Decimal.D8 u => d8 :: digits_of_uint u
  | Decimal.D9 u => d9 :: digits_of_uint u
  end.

Definition N_of_digits (ds : list digit) : N := N.of_uint (uint_of_digits ds).
Definition digits_of_N (n : N) : list digit := digits_of_uint (N.to_uint n).

(** Leading zeros removed. *)
Fixpoint strip0 (ds : list digit) : list digit :=
  match ds with
  | d0 :: t => strip0 t
  | _ => ds
  end.

(** Trailing zeros removed. *)
Definition strip0_end (ds : list digit) : list digit := reverse (strip0 (reverse ds)).

(** The number denoted by the literal with integer part [int], fraction
    [frac] and exponent [e]. *)
Definition mkNumber (neg : bool) (int frac : list digit) (e : Z) : number :=
  let all := int ++ frac in
  let sig := strip0 all in
  match strip0_end sig with
  | [] => Num false [] 0
  | ds => Num neg ds (Z.of_nat (length int) + e - Z.of_nat (length all - length sig))
  end.


Definition of_N (n : N) : number := mkNumber false (digits_of_N n) [] 0.

(** The integer part of a number literal: the digit 0 alone, or digits
    starting with a non-zero one. *)
Definition intPart (s1 : string) : option (list digit * string) :=
  match s1 with
  | String "0" t => Some ([d0], t)
  | _ => match takeDigits s1 with
         | ([], _) => None
         | (ds, r) => Some (ds, r)
         end
  end.

(** The optional fraction: a dot and at least one digit. *)
Definition fracPart (s2 : string) : option (list digit * string) :=
  match s2 with
  | String "." t =>
      match takeDigits t with
      | ([], _) => None
      | (ds, r) => Some (ds, r)
      end
  | _ => Some ([], s2)
  end.

(** The optional exponent: e or E, an optional sign, at least one digit. *)
Definition expPart (s3 : string) : option (Z * string) :=
  let exp_of (sgn : Z) (t : string) :=
    match takeDigits t with
    | ([], _) => None
    | (ds, r) => Some ((sgn * Z.of_N (N_of_digits ds))%Z, r)
    end in
  match s3 with
  | String c t =>
      if Ascii.eqb c "e" || Ascii.eqb c "E" then
        match t with
        | String "+" t' => exp_of 1%Z t'
        | String "-" t' => exp_of (-1)%Z t'
        | _ => exp_of 1%Z t
        end
      else Some (0%Z, s3)
  | EmptyString => Some (0%Z, s3)
  end.

(** An unsigned JSON number literal at the head of [s1]. *)
Definition parseUnsigned (neg : bool) (s1 : string) : option (number * string) :=
  match intPart s1 with
  | None => None
  | Some (int, s2) =>
      match fracPart s2 with
      | None => None
      | Some (frac, s3) =>
          match expPart s3 with
          | None => None
          | Some (e, r) => Some (mkNumber neg int frac e, r)
          end
      end
  end.

(** A JSON number literal at the head of [s]: an optional minus sign and
    an unsigned literal. *)
Definition parseNumber (s : string) : option (number * string) :=
  match s with
  | String c t => if Ascii.eqb c "-" then parseUnsigned true t else parseUnsigned false s
  | EmptyString => parseUnsigned false s
  end.

Definition zeros (n : nat) : string := digits_string (replicate n d0).

(** [Number::toString] in radix 10 for the positive number with the
    digits [ds] and the point at [n]. *)
Definition digitsToString (ds : list digit) (n : Z) : string :=
  let k := Z.of_nat (length ds) in
  if (k <=? n)%Z && (n <=? 21)%Z then
    digits_string ds +:+ zeros (Z.to_nat (n - k))
  else if (0 <? n)%Z && (n <=? 21)%Z then
    digits_string (take (Z.to_nat n) ds) +:+ "." +:+
    digits_string (drop (Z.to_nat n) ds)
  else if (-6 <? n)%Z && (n <=? 0)%Z then
    "0." +:+ zeros (Z.to_nat (- n)) +:+ digits_string ds
  else
    let e := (n - 1)%Z in
    digits_string (take 1 ds) +:+
    (match drop 1 ds with
     | [] => EmptyString
     | rest => "." +:+ digits_string rest
     end) +:+ "e" +:+ (if (0 <? e)%Z then "+" else "-") +:+
    digits_string (digits_of_N (Z.abs_N e)).

(** [Number::toString(x)] in radix 10. *)
Definition toString (x : number) : string :=
  match num_digits x with
  | [] => "0"
  | ds => if num_neg x then "-" +:+ digitsToString ds (num_point x)
          else digitsToString ds (num_point x)
  end.

Definition is_d0 (d : digit) : bool :=
  match d with
  | d0 => true
  | _ => false
  end.

(** Digits in normal form: no leading and no trailing zero, and zero is
    unsigned with its point at 0.  Every number is held in this form. *)
Definition normal (x : number) : bool :=
  match num_digits x with
  | [] => negb (num_neg x) && (num_point x =? 0)%Z
  | d :: rest =>
      negb (is_d0 d) &&
      match last (d :: rest) with
      | Some e => negb (is_d0 e)
      | None => true
      end
  end.

(** The text [rest] does not continue a number written before it. *)
Definition ends (rest : string) : bool :=
  match rest with
  | EmptyString => true
  | String c _ =>
      negb (is_digit c || Ascii.eqb c "." || Ascii.eqb c "e" || Ascii.eqb c "E")
  end.

End Numeral.

(** ** JSON texts *)

(** The value a JSON text denotes.  An object is the sequence of its
    members as written: order and repeated names are kept. *)
#[warnings="-register-all"]
Inductive json : Set :=
| JNull
| JBool (b : bool)
| JNum (n : number)
| JStr (s : string)
| JArr (xs : list json)
| JObj (members : list (string * json)).

Module JSONText.

Import Text.

(** White space of the JSON grammar. *)
Definition is_ws (c : ascii) : bool :=
  match c with
  | " " | "009" | "010" | "013" => true
  | _ => false
  end.

Fixpoint skip_ws (s : string) : string :=
  match s with
  | EmptyString => EmptyString
  | String c t => if is_ws c then skip_ws t else s
  end.

Definition hex_value (c : ascii) : option nat :=
  let n := nat_of_ascii c in
  if (48 <=? n) && (n <=? 57) then Some (n - 48)
  else if (97 <=? n) && (n <=? 102) then Some (n - 87)
  else if (65 <=? n) && (n <=? 70) then Some (n - 55)
  else None.

Definition hex_char (n : nat) : ascii :=
  ascii_of_nat (if n <? 10 then 48 + n else 87 + n).

(** The UTF-8 form of the code unit [n]. *)
Definition utf8 (n : nat) : string :=
  if n <? 128 then String (ascii_of_nat n) EmptyString
  else if n <? 2048 then
    String (ascii_of_nat (192 + n / 64))
      (String (ascii_of_nat (128 + n mod 64)) EmptyString)
  else
    String (ascii_of_nat (224 + n / 4096))
      (String (ascii_of_nat (128 + (n / 64) mod 64))
         (String (ascii_of_nat (128 + n mod 64)) EmptyString)).

(** The characters of a string literal after its opening quote, up to
    and including the closing quote. *)
Fixpoint parseChars (s : string) : option (string * string) :=
  match s with
  | EmptyString => None
  | String c t =>
      if Ascii.eqb c dq then Some (EmptyString, t)
      else if Ascii.eqb c "\" then
        match t with
        | String e t' =>
            let lit (x : ascii) :=
              match parseChars t' with
              | Some (r, rest) => Some (String x r, rest)
              | None => None
              end in
            match e with
            | "b" => lit "008"
            | "f" => lit "012"
            | "n" => lit "010"
            | "r" => lit "013"
            | "t" => lit "009"
            | "/" => lit "/"
            | "\" => lit "\"
            | "u" =>
                match t' with
                | String h1 (String h2 (String h3 (String h4 t''))) =>
                    match hex_value h1, hex_value h2, hex_value h3, hex_value h4 with
                    | Some a, Some b, Some c', Some d =>
                        match parseChars t'' with
                        | Some (r, rest) =>
                            Some (utf8 (((a * 16 + b) * 16 + c') * 16 + d) +:+ r, rest)
                        | None => None
                        end
                    | _, _, _, _ => None
                    end
                | _ => None
                end
            | _ => if Ascii.eqb e dq then lit dq else None
            end
        | EmptyString => None
        end
      else if nat_of_ascii c <? 32 then None
      else
        match parseChars t with
        | Some (r, rest) => Some (String c r, rest)
        | None => None
        end
  end.

(** One recursive-descent parser for values, the elements of an array
    after its bracket, and the members of an object after its brace.
    The fuel bounds the nesting of calls. *)
Fixpoint parseValue (fuel : nat) (s : string) : option (json * string) :=
  match fuel with
  | O => None
  | S fuel' =>
      match skip_ws s with
      | String "n" t => if startsWith "ull" t then Some (JNull, dropChars 3 t) else None
      | String "t" t => if startsWith "rue" t then Some (JBool true, dropChars 3 t) else None
      | String "f" t => if startsWith "alse" t then Some (JBool false, dropChars 4 t) else None
      | String "[" t =>
          if startsWith "]" (skip_ws t) then Some (JArr [], dropChars 1 (skip_ws t))
          else match parseElements fuel' t with
               | Some (xs, r) => Some (JArr xs, r)
               | None => None
               end
      | String "{" t =>
          if startsWith "}" (skip_ws t) then Some (JObj [], dropChars 1 (skip_ws t))
          else match parseMembers fuel' t with
               | Some (ms, r) => Some (JObj ms, r)
               | None => None
               end
      | String c t =>
          if Ascii.eqb c dq then
            match parseChars t with
            | Some (str, r) => Some (JStr str, r)
            | None => None
            end
          else
            match Numeral.parseNumber (String c t) with
            | Some (n, r) => Some (JNum n, r)
            | None => None
            end
      | EmptyString => None
      end
  end
with parseElements (fuel : nat) (s : string) : option (list json * string) :=
  match fuel with
  | O => None
  | S fuel' =>
      match parseValue fuel' s with
      | Some (v, r) =>
          match skip_ws r with
          | String "," r' =>
              match parseElements fuel' r' with
              | Some (vs, r'') => Some (v :: vs, r'')
              | None => None
              end
          | String "]" r' => Some ([v], r')
          | _ => None
          end
      | None => None
      end
  end
with parseMembers (fuel : nat) (s : string) : option (list (string * json) * string) :=
  match fuel with
  | O => None
  | S fuel' =>
      match skip_ws s with
      | String c t =>
          if Ascii.eqb c dq then
            match parseChars t with
            | Some (k, r) =>
                match skip_ws r with
                | String ":" r1 =>
                    match parseValue fuel' r1 with
                    | Some (v, r2) =>
                        match skip_ws r2 with
                        | String "," r3 =>
                            match parseMembers fuel' r3 with
                            | Some (ms, r4) => Some ((k, v) :: ms, r4)
                            | None => None
                            end
                        | String "}" r3 => Some ([(k, v)], r3)
                        | _ => None
                        end
                    | None => None
                    end
                | _ => None
                end
            | None => None
            end
          else None
      | EmptyString => None
      end
  end.

(** Enough fuel for any text of this length: every nested call follows
    the consumption of at least one character, two calls at most per
    character. *)
Definition fuel_for (s : string) : nat := 2 * String.length s + 2.

(** The value of a complete JSON text, [None] for a syntax error. *)
Definition parse (s : string) : option json :=
  match parseValue (fuel_for s) s with
  | Some (v, r) =>
      match skip_ws r with
      | EmptyString => Some v
      | _ => None
      end
  | None => None
  end.

(** [QuoteJSONString]: the string literal for [s]. *)
Definition escape (c : ascii) : string :=
  match c with
  | "008" => "\b"
  | "009" => "\t"
  | "010" => "\n"
  | "012" => "\f"
  | "013" => "\r"
  | "\" => "\\"
  | _ =>
      if Ascii.eqb c dq then String "\" (String dq EmptyString)
      else if nat_of_ascii c <? 32 then
        "\u00" +:+ String (hex_char (nat_of_ascii c / 16))
                     (String (hex_char (nat_of_ascii c mod 16)) EmptyString)
      else String c EmptyString
  end.

Fixpoint escapeAll (s : string) : string :=
  match s with
  | EmptyString => EmptyString
  | String c t => escape c +:+ escapeAll t
  end.

Definition quote (s : string) : string :=
  String dq (escapeAll s +:+ String dq EmptyString).

Fixpoint join (sep : string) (parts : list string) : string :=
  match parts with
  | [] => EmptyString
  | [p] => p
  | p :: rest => p +:+ sep +:+ join sep rest
  end.

(** The text [JSON.stringify] produces with no indentation. *)
Fixpoint render (v : json) : string :=
  match v with
  | JNull => "null"
  | JBool true => "true"
  | JBool false => "false"
  | JNum n => Numeral.toString n
  | JStr s => quote s
  | JArr xs => "[" +:+ join "," (map render xs) +:+ "]"
  | JObj ms =>
      "{" +:+ join "," (map (fun m => quote (fst m) +:+ ":" +:+ render (snd m)) ms) +:+ "}"
  end.

(** The characters a rendered value can start with. *)
Definition startsValue (c : ascii) : bool :=
  Ascii.eqb c "n" || Ascii.eqb c "t" || Ascii.eqb c "f" || Ascii.eqb c dq
  || Ascii.eqb c "[" || Ascii.eqb c "{" || Ascii.eqb c "-" || Numeral.is_digit c.

(** The number of values in a value, and the nesting of its containers. *)
Fixpoint size (v : json) : nat :=
  match v with
  | JArr xs => S (fold_right (fun x n => S (size x + n)) 0 xs)
  | JObj ms => S (fold_right (fun m n => S (size (snd m) + n)) 0 ms)
  | _ => 1
  end.

Fixpoint depth (v : json) : nat :=
  match v with
  | JArr xs => S (fold_right (fun x n => max (depth x) n) 0 xs)
  | JObj ms => S (fold_right (fun m n => max (depth (snd m)) n) 0 ms)
  | _ => 0
  end.

(** Every number of the value is held in normal form. *)
Fixpoint normalNumbers (t : json) : bool :=
  match t with
  | JNum n => Numeral.normal n
  | JArr xs => forallb normalNumbers xs
  | JObj ms => forallb (fun m => normalNumbers (snd m)) ms
  | _ => true
  end.

Fixpoint spaces (n : nat) : string :=
  match n with
  | O => EmptyString
  | S n' => String " " (spaces n')
  end.

Definition newline : string := String "010" EmptyString.

(** The text [JSON.stringify(v, null, 2)] produces for a value nested
    [depth] containers deep. *)
Fixpoint renderIndented (depth : nat) (v : json) : string :=
  match v with
  | JArr [] => "[]"
  | JArr xs =>
      let inner := newline +:+ spaces (2 * S depth) in
      "[" +:+ inner +:+
      join ("," +:+ inner) (map (renderIndented (S depth)) xs) +:+
      newline +:+ spaces (2 * depth) +:+ "]"
  | JObj [] => "{}"
  | JObj ms =>
      let inner := newline +:+ spaces (2 * S depth) in
      "{" +:+ inner +:+
      join ("," +:+ inner)
        (map (fun m => quote (fst m) +:+ ": " +:+ renderIndented (S depth) (snd m)) ms) +:+
      newline +:+ spaces (2 * depth) +:+ "}"
  | _ => render v
  end.

End JSONText.

(** ** The store of objects *)

Abbreviation loc := nat.

(** A JavaScript value: a primitive, a reference to an object or an
    array in the store, or a function of the host, known by the name the
    host gives it (the functions an object inherits from its prototype,
    such as [Object.prototype.toString]).  The host's functions are
    objects too, but not objects of the store: the store holds what
    [JSON.parse] and lodash create. *)
Inductive value : Set :=
| VUndefined
| VNull
| VBool (b : bool)
| VNum (n : number)
| VStr (s : string)
| VRef (l : loc)
| VFun (b : string).

(** An ordinary object is the list of its own properties in enumeration
    order.  An array is the list of its elements (a hole reads as
    [undefined], which is what every operation here sees of it) and the
    list of its other own properties. *)
Inductive object : Set :=
| Obj (props : list (string * value))
| Arr (elems : list value) (props : list (string * value)).

Abbreviation heap := (list object).

Definition isArray (o : object) : bool :=
  match o with
  | Arr _ _ => true
  | Obj _ => false
  end.

(** What a call leaves behind besides the store: it returned, it threw,
    or it went on outside the store, reading a property of a function of
    the host or of a primitive (through its wrapper's prototype): what is
    found there depends on what the host holds, which the store does not
    tell. *)
Inductive outcome : Set := Returned | Threw | Outside.

(** The points where the host decides and the program text does not:
    the conversion applied to a value stored into an array's [length]
    ([Some n] when it converts to the valid length [n], [None] when the
    store raises a RangeError); whether the code storing a property into
    a primitive is strict (a TypeError) or not (the store is ignored);
    the function an ordinary object ([false]) or an array ([true])
    inherits from its prototype chain under a name, if any
    ([toString], [hasOwnProperty], [push], ...: which names there are
    depends on the edition of the language the host implements); and how
    a store into the property [key] of the host's function [b] ends (a
    function has read-only properties, such as [name] and [length]). *)
Record engine : Type := Engine {
  arrayLength : heap -> value -> option N;
  strict : bool;
  inheritedFunction : bool -> string -> option string;
  functionStore : string -> string -> outcome
}.

Module Store.

(** A canonical numeric string (the digit 0 alone, or digits starting
    with a non-zero one; lodash's [reIsUint]) and its value. *)
Definition uintString (key : string) : option N :=
  match Numeral.takeDigits key with
  | (d :: ds, EmptyString) =>
      match d, ds with
      | d0, _ :: _ => None
      | _, _ => Some (Numeral.N_of_digits (d :: ds))
      end
  | _ => None
  end.

(** An array index: a canonical numeric string below 2^32 - 1. *)
Definition arrayIndex (key : string) : option N :=
  match uintString key with
  | Some n => if (n <? 4294967295)%N then Some n else None
  | None => None
  end.

Fixpoint lookupProp (props : list (string * value)) (key : string) : option value :=
  match props with
  | [] => None
  | (k, v) :: rest => if String.eqb k key then Some v else lookupProp rest key
  end.

Fixpoint replaceProp (props : list (string * value)) (key : string) (v : value)
  : list (string * value) :=
  match props with
  | [] => []
  | (k, w) :: rest =>
      if String.eqb k key then (k, v) :: rest else (k, w) :: replaceProp rest key v
  end.

(** A new integer-indexed property goes before the first property that
    is not integer-indexed or has a larger index. *)
Fixpoint insertIndexed (props : list (string * value)) (i : N) (key : string) (v : value)
  : list (string * value) :=
  match props with
  | [] => [(key, v)]
  | (k, w) :: rest =>
      match arrayIndex k with
      | Some j => if (j <? i)%N then (k, w) :: insertIndexed rest i key v
                  else (key, v) :: props
      | None => (key, v) :: props
      end
  end.

(** [o[key] = v] on the property list of an ordinary object: an existing
    property keeps its place; a new one is enumerated in ascending order
    among the integer-indexed properties, which come first, and in
    creation order otherwise. *)
Definition putProp (props : list (string * value)) (key : string) (v : value)
  : list (string * value) :=
  match lookupProp props key with
  | Some _ => replaceProp props key v
  | None =>
      match arrayIndex key with
      | Some i => insertIndexed props i key v
      | None => props ++ [(key, v)]
      end
  end.

(** [a[i] = v] on the elements of an array: the array grows to hold [i]. *)
Definition putElem (elems : list value) (i : nat) (v : value) : list value :=
  if decide (i < length elems) then <[i := v]> elems
  else elems ++ replicate (i - length elems) VUndefined ++ [v].

(** [a.length = n] *)
Definition resize (elems : list value) (n : nat) : list value :=
  take n elems ++ replicate (n - length elems) VUndefined.

(** Own property [key] of an object of the store. *)
Definition getOwn (o : object) (key : string) : value :=
  match o with
  | Obj props => default VUndefined (lookupProp props key)
  | Arr elems props =>
      match arrayIndex key with
      | Some i => default VUndefined (elems !! N.to_nat i)
      | None =>
          if String.eqb key "length"
          then VNum (Numeral.of_N (N.of_nat (length elems)))
          else default VUndefined (lookupProp props key)
      end
  end.

(** [key in o], for own properties.  This is all of [key in o] for a
    name with a dot or a bracket, the names [Lodash.isKey] asks about:
    no name of that kind is inherited. *)
Definition hasOwn (o : object) (key : string) : bool :=
  match o with
  | Obj props => bool_decide (is_Some (lookupProp props key))
  | Arr elems props =>
      match arrayIndex key with
      | Some i => bool_decide (N.to_nat i < length elems)
      | None => String.eqb key "length" || bool_decide (is_Some (lookupProp props key))
      end
  end.

(** The own property [key] of the object of the store [v] refers to. *)
Definition get (h : heap) (v : value) (key : string) : value :=
  match v with
  | VRef l =>
      match h !! l with
      | Some o => getOwn o key
      | None => VUndefined
      end
  | _ => VUndefined
  end.

(** What an object finds on its prototype chain under a name it has no
    own property for. *)
Definition inherited (E : engine) (o : object) (key : string) : value :=
  match inheritedFunction E (isArray o) key with
  | Some b => VFun b
  | None => VUndefined
  end.

(** [v[key]], for an object of the store: its own property, or else what
    it inherits. *)
Definition read (E : engine) (h : heap) (v : value) (key : string) : value :=
  match v with
  | VRef l =>
      match h !! l with
      | Some o => if hasOwn o key then getOwn o key else inherited E o key
      | None => VUndefined
      end
  | _ => VUndefined
  end.

(** [key in Object(v)] *)
Definition has (h : heap) (v : value) (key : string) : bool :=
  match v with
  | VRef l =>
      match h !! l with
      | Some o => hasOwn o key
      | None => false
      end
  | _ => false
  end.

(** [target[key] = v] *)
Definition set (E : engine) (h : heap) (target : value) (key : string) (v : value)
  : heap * outcome :=
  match target with
  | VRef l =>
      match h !! l with
      | Some (Obj props) => (<[l := Obj (putProp props key v)]> h, Returned)
      | Some (Arr elems props) =>
          match arrayIndex key with
          | Some i => (<[l := Arr (putElem elems (N.to_nat i) v) props]> h, Returned)
          | None =>
              if String.eqb key "length" then
                match arrayLength E h v with
                | Some n => (<[l := Arr (resize elems (N.to_nat n)) props]> h, Returned)
                | None => (h, Threw)
                end
              else (<[l := Arr elems (putProp props key v)]> h, Returned)
          end
      | None => (h, Threw)
      end
  | VUndefined | VNull => (h, Threw)
  | VFun b => (h, functionStore E b key)
  | _ => (h, if strict E then Threw else Returned)
  end.

(** A new object in the store. *)
Definition new (h : heap) (o : object) : heap * value := (h ++ [o], VRef (length h)).

(** Building the elements of an array one after the other. *)
Fixpoint buildList (build : json → heap → heap * value) (xs : list json) (h : heap)
  : heap * list value :=
  match xs with
  | [] => (h, [])
  | x :: r =>
      let '(h1, v) := build x h in
      let '(h2, vs) := buildList build r h1 in
      (h2, v :: vs)
  end.

(** Building the members of an object one after the other, each defined
    on the properties [acc] defined so far. *)
Fixpoint buildProps (build : json → heap → heap * value) (ms : list (string * json))
  (h : heap) (acc : list (string * value)) : heap * list (string * value) :=
  match ms with
  | [] => (h, acc)
  | m :: r =>
      let '(h1, v) := build (snd m) h in
      buildProps build r h1 (putProp acc (fst m) v)
  end.

(** The object graph [JSON.parse] builds for a parsed text: members are
    defined in the order of the text, a repeated name overwriting the
    earlier value. *)
Fixpoint build (t : json) (h : heap) : heap * value :=
  match t with
  | JNull => (h, VNull)
  | JBool b => (h, VBool b)
  | JNum n => (h, VNum n)
  | JStr s => (h, VStr s)
  | JArr xs =>
      let '(h', vs) := buildList build xs h in
      new h' (Arr vs [])
  | JObj ms =>
      let '(h', props) := buildProps build ms h [] in
      new h' (Obj props)
  end.

(** The elements of an array as [JSON.stringify] writes them: [undefined]
    is written as null. *)
Fixpoint serializeElems (serialize : value → option (option json)) (vs : list value)
  : option (list json) :=
  match vs with
  | [] => Some []
  | x :: r =>
      match serialize x, serializeElems serialize r with
      | Some t, Some ts => Some (default JNull t :: ts)
      | _, _ => None
      end
  end.

(** The properties of an object as [JSON.stringify] writes them: a
    property whose value is [undefined] is left out. *)
Fixpoint serializeProps (serialize : value → option (option json))
  (ps : list (string * value)) : option (list (string * json)) :=
  match ps with
  | [] => Some []
  | p :: r =>
      match serialize (snd p), serializeProps serialize r with
      | Some (Some t), Some ms => Some ((fst p, t) :: ms)
      | Some None, Some ms => Some ms
      | _, _ => None
      end
  end.

(** The value [JSON.stringify] serialises, read off the store:
    [None] when it throws (the structure is cyclic), [Some None] when the
    result is [undefined] (as it is for a function), [Some (Some t)]
    otherwise.  The own properties of an array other than its elements are
    not written. *)
Fixpoint serialize (fuel : nat) (h : heap) (v : value) : option (option json) :=
  match v with
  | VUndefined => Some None
  | VNull => Some (Some JNull)
  | VBool b => Some (Some (JBool b))
  | VNum n => Some (Some (JNum n))
  | VStr s => Some (Some (JStr s))
  | VFun _ => Some None
  | VRef l =>
      match fuel with
      | O => None
      | S fuel' =>
          match h !! l with
          | None => None
          | Some (Arr elems _) =>
              match serializeElems (serialize fuel' h) elems with
              | Some ts => Some (Some (JArr ts))
              | None => None
              end
          | Some (Obj props) =>
              match serializeProps (serialize fuel' h) props with
              | Some ms => Some (Some (JObj ms))
              | None => None
              end
          end
      end
  end.

(** The enumeration order of the own properties of an object: no name
    twice, the integer-indexed names first and in ascending order. *)
Fixpoint orderedKeys (ks : list string) : bool :=
  match ks with
  | [] => true
  | k :: r =>
      negb (existsb (String.eqb k) r)
      && match arrayIndex k with
         | Some i =>
             forallb (fun k' => match arrayIndex k' with
                                | Some j => (i <? j)%N
                                | None => true
                                end) r
         | None =>
             forallb (fun k' => match arrayIndex k' with
                                | Some _ => false
                                | None => true
                                end) r
         end
      && orderedKeys r
  end.

(** A JSON value as it is read off JavaScript objects: numbers in normal
    form, members in enumeration order. *)
Fixpoint canonical (t : json) : bool :=
  match t with
  | JNum n => Numeral.normal n
  | JArr xs => forallb canonical xs
  | JObj ms => orderedKeys (map fst ms) && forallb (fun m => canonical (snd m)) ms
  | _ => true
  end.

(** A chain of references longer than the store has objects goes through
    some object twice. *)
Definition depth_bound (h : heap) : nat := S (length h).

End Store.

(** ** lodash [set] *)

(** Modelled on lodash 4.17 ([set], [baseSet], [castPath], [isKey],
    [stringToPath], [isIndex], [assignValue]): the library is a dependency
    of the application, called from [App.tsx]. *)
Module Lodash.

(** [isObject(v)]: [typeof v] is [object] or [function], and [v] is not
    [null]. *)
Definition isObject (v : value) : bool :=
  match v with
  | VRef _ | VFun _ => true
  | _ => false
  end.

(** [isIndex(key)] with the default bound [MAX_SAFE_INTEGER]. *)
Definition isIndex (key : string) : bool :=
  match Store.uintString key with
  | Some n => (n <? 9007199254740991)%N
  | None => false
  end.

Definition is_path_char (c : ascii) : bool :=
  negb (Ascii.eqb c "." || Ascii.eqb c "[" || Ascii.eqb c "]").

(** The longest prefix of characters other than dot and brackets. *)
Fixpoint takeName (s : string) : string :=
  match s with
  | EmptyString => EmptyString
  | String c t => if is_path_char c then String c (takeName t) else EmptyString
  end.

(** After an opening bracket: characters other than brackets, then a
    closing bracket. *)
Fixpoint plainBracket (s : string) : bool :=
  match s with
  | EmptyString => false
  | String c t =>
      if Ascii.eqb c "]" then true
      else if Ascii.eqb c "[" then false
      else plainBracket t
  end.

Definition is_line_end (c : ascii) : bool :=
  Ascii.eqb c "010" || Ascii.eqb c "013".

(** After an opening quote [quo]: the body of the quoted name, in which
    a backslash takes the next character with it, up to the first quote
    that is not taken; the result is the body as written and the text
    after the closing quote. *)
Fixpoint quotedBody (quo : ascii) (s : string) : option (string * string) :=
  match s with
  | EmptyString => None
  | String c t =>
      if Ascii.eqb c quo then Some (EmptyString, t)
      else if Ascii.eqb c "\" then
        match t with
        | String e t' =>
            if is_line_end e then None
            else match quotedBody quo t' with
                 | Some (b, r) => Some (String c (String e b), r)
                 | None => None
                 end
        | EmptyString => None
        end
      else
        match quotedBody quo t with
        | Some (b, r) => Some (String c b, r)
        | None => None
        end
  end.

(** After an opening bracket: a quoted name and the closing bracket. *)
Definition quotedBracket (s : string) : option (string * string) :=
  match s with
  | String quo t =>
      if Ascii.eqb quo Text.dq || Ascii.eqb quo "'" then
        match quotedBody quo t with
        | Some (b, String "]" r) => Some (b, r)
        | _ => None
        end
      else None
  | EmptyString => None
  end.

(** After an opening bracket: a number (an optional minus sign, digits,
    an optional fraction) and the closing bracket; the result is the
    number as written and the text after the bracket. *)
Definition numberBracket (s : string) : option (string * string) :=
  let '(sign, s1) := match s with
                     | String "-" t => ("-"%string, t)
                     | _ => (EmptyString, s)
                     end in
  match Numeral.takeDigits s1 with
  | ([], _) => None
  | (int, s2) =>
      let whole := sign +:+ Numeral.digits_string int in
      match s2 with
      | String "]" r => Some (whole, r)
      | String "." t =>
          match Numeral.takeDigits t with
          | ((_ :: _) as frac, String "]" r) =>
              Some (whole +:+ "." +:+ Numeral.digits_string frac, r)
          | _ => None
          end
      | _ => None
      end
  end.

(** [reIsDeepProp.test(s)]: [s] has a dot, or a bracket pair around
    characters other than brackets or around a quoted name. *)
Fixpoint isDeepProp (s : string) : bool :=
  match s with
  | EmptyString => false
  | String c t =>
      Ascii.eqb c "."
      || (Ascii.eqb c "[" &&
          (plainBracket t || bool_decide (is_Some (quotedBracket t))))
      || isDeepProp t
  end.

(** [isKey(path, object)] for a string [path]. *)
Definition isKey (h : heap) (path : string) (object : value) : bool :=
  negb (isDeepProp path) || Store.has h object path.

(** The replacement [/\\(\\)?/g -> '$1'] applied to a quoted name. *)
Fixpoint unescape (s : string) : string :=
  match s with
  | EmptyString => EmptyString
  | String c t =>
      if Ascii.eqb c "\" then
        match t with
        | String "\" t' => String "\" (unescape t')
        | _ => unescape t
        end
      else String c (unescape t)
  end.

Definition startsEmptyPart (s : string) : bool :=
  Text.startsWith "." s || Text.startsWith "[]" s.

(** One match of [rePropName] at the head of [s]: the path segment it
    contributes and the number of characters it covers (0 for the empty
    match between two separators). *)
Definition matchPropName (s : string) : option (string * nat) :=
  match s with
  | EmptyString => None
  | String c t =>
      if is_path_char c then
        let name := takeName s in Some (name, String.length name)
      else
        let bracket :=
          if Ascii.eqb c "[" then
            match numberBracket t with
            | Some (n, r) => Some (n, String.length s - String.length r)
            | None =>
                match quotedBracket t with
                | Some (b, r) => Some (unescape b, String.length s - String.length r)
                | None => None
                end
            end
          else None in
        match bracket with
        | Some m => Some m
        | None =>
            let after := if Ascii.eqb c "." then Some t
                         else if Text.startsWith "[]" s then Some (Text.dropChars 2 s)
                         else None in
            match after with
            | Some EmptyString => Some (EmptyString, 0)
            | Some r => if startsEmptyPart r then Some (EmptyString, 0) else None
            | None => None
            end
        end
  end.

(** The scan of [string.replace(rePropName, ...)]: [skip] characters of
    the last match are still to be passed over; after an empty match, or
    where nothing matches, the scan moves on by one character. *)
Fixpoint scanPath (skip : nat) (s : string) : list string :=
  match s with
  | EmptyString => []
  | String _ t =>
      match skip with
      | S k => scanPath k t
      | O =>
          match matchPropName s with
          | Some (seg, len) => seg :: scanPath (len - 1) t
          | None => scanPath 0 t
          end
      end
  end.

Definition stringToPath (s : string) : list string :=
  (if Text.startsWith "." s then [EmptyString] else []) ++ scanPath 0 s.

(** [castPath(path, object)] *)
Definition castPath (h : heap) (path : string) (object : value) : list string :=
  if isKey h path object then [path] else stringToPath path.

(** The container created for a missing segment, chosen by the segment
    that follows it: [isIndex(next) ? [] : {}]. *)
Definition container (next : string) : object :=
  if isIndex next then Arr [] [] else Obj [].

Definition isUnsafeKey (key : string) : bool :=
  String.eqb key "__proto__" || String.eqb key "constructor" || String.eqb key "prototype".

(** The value assigned under [key] when segments follow it:
    [objValue = nested[key]], kept when it is an object (a function of the
    prototype chain is one) and replaced by a new container otherwise.
    [None] when [nested] is not an object of the store: what [nested[key]]
    is then lies with the host. *)
Definition intermediate (E : engine) (h : heap) (nested : value) (key next : string)
  : option (heap * value) :=
  match nested with
  | VRef _ =>
      let objValue := Store.read E h nested key in
      Some (if isObject objValue then (h, objValue) else Store.new h (container next))
  | _ => None
  end.

(** The loop of [baseSet], from the object [nested] and the remaining
    segments [path]. *)
Fixpoint baseSetLoop (E : engine) (h : heap) (nested : value) (path : list string)
  (v : value) : heap * outcome :=
  match path with
  | [] => (h, Returned)
  | key :: rest =>
      match nested with
      | VUndefined | VNull => (h, Returned)
      | _ =>
          if isUnsafeKey key then (h, Returned)
          else
            match match rest with
                  | [] => Some (h, v)
                  | next :: _ => intermediate E h nested key next
                  end with
            | None => (h, Outside)
            | Some (h1, newValue) =>
                match Store.set E h1 nested key newValue with
                | (h2, Returned) => baseSetLoop E h2 (Store.read E h2 nested key) rest v
                | (h2, o) => (h2, o)
                end
            end
      end
  end.

(** [set(object, path, value)] *)
Definition set (E : engine) (h : heap) (object : value) (path : string) (v : value)
  : heap * outcome :=
  if isObject object then baseSetLoop E h object (castPath h path object) v
  else (h, Returned).

End Lodash.

(** ** [JSON.parse] and [JSON.stringify] on the store *)

Module JSON.

(** [JSON.parse(text)]: [None] for a SyntaxError. *)
Definition parse (text : string) (h : heap) : option (heap * value) :=
  match JSONText.parse text with
  | Some t => Some (Store.build t h)
  | None => None
  end.

(** [JSON.stringify(v)]: [None] when it throws, [Some None] for
    [undefined]. *)
Definition stringify (h : heap) (v : value) : option (option string) :=
  match Store.serialize (Store.depth_bound h) h v with
  | Some (Some t) => Some (Some (JSONText.render t))
  | Some None => Some None
  | None => None
  end.

(** [JSON.stringify(v, null, 2)] *)
Definition stringify2 (h : heap) (v : value) : option (option string) :=
  match Store.serialize (Store.depth_bound h) h v with
  | Some (Some t) => Some (Some (JSONText.renderIndented 0 t))
  | Some None => Some None
  | None => None
  end.

(** [String(v)], the conversion [JSON.parse] applies to its argument.
    The text of a function of the host is the host's, in the form the
    language gives a native function. *)
Fixpoint toString (fuel : nat) (h : heap) (v : value) : string :=
  match v with
  | VUndefined => "undefined"
  | VNull => "null"
  | VBool true => "true"
  | VBool false => "false"
  | VNum n => Numeral.toString n
  | VStr s => s
  | VFun b => "function " +:+ b +:+ "() { [native code] }"
  | VRef l =>
      match fuel with
      | O => EmptyString
      | S fuel' =>
          match h !! l with
          | Some (Arr elems _) =>
              JSONText.join ","
                (map (fun x => match x with
                               | VUndefined | VNull => EmptyString
                               | _ => toString fuel' h x
                               end) elems)
          | Some (Obj _) => "[object Object]"
          | None => EmptyString
          end
      end
  end.

End JSON.

(** ** [types.ts] *)

Record Summary : Set := {
  accomplishment : string;
  trigger : string;
  finalOutcome : string;
  analogy : string
}.

Record NodeBreakdown : Set := {
  nb_nodeId : string;
  nodeName : string;
  purpose : string;
  requiredInputs : string;
  configurationNeeds : string;
  output : string;
  visualMetaphor : string
}.

Record JsonModification : Set := {
  path : string;
  newValue : value;
  requiresUserInput : bool
}.

(** [severity] is kept as the string received: the interface names three
    values and [App.tsx] falls back to the info style for any other. *)
Record WorkflowError : Set := {
  id : string;
  severity : string;
  description : string;
  impact : string;
  nodeId : option string;
  recommendation : string;
  jsonModification : JsonModification
}.

Record AnalysisResult : Set := {
  isValid : bool;
  summary : Summary;
  textFlow : string;
  nodeBreakdowns : list NodeBreakdown;
  errors : list WorkflowError
}.

(** ** [services/geminiService.ts] *)

(** The fields the [catch] block of [analyzeWorkflow] reads from what was
    thrown: [message] when it is a string, [status] and [code] when they
    are truthy, as the template literal prints them. *)
Record ErrorDetails : Set := {
  e_message : option string;
  e_status : option string;
  e_code : option string
}.

(** Something thrown: a primitive, or an object with its own details and,
    when its [error] property is truthy, the details of that. *)
Inductive thrown : Set :=
| ThrownPrimitive
| ThrownObject (own : ErrorDetails) (nested : option ErrorDetails).

(** What awaiting [ai.models.generateContent] gives: a response, whose
    [text] may be undefined, or an exception. *)
Inductive apiReply : Set :=
| Reply (text : option string)
| Failure (e : thrown).

(** How the promise returned by [analyzeWorkflow] settles.  The cast
    [as AnalysisResult] is unchecked: [Untyped] stands for a payload that
    is valid JSON, passes the post-processing, and is not an
    [AnalysisResult]. *)
Inductive analysis : Set :=
| Resolved (r : AnalysisResult)
| Rejected (message : string)
| Untyped.

(** The messages of the exceptions the runtime raises itself. *)
Record messages : Set := Messages {
  syntaxErrorMessage : string -> string;
  typeErrorMessage : string
}.

Module Service.

Definition builtinError (m : string) : thrown :=
  ThrownObject {| e_message := Some m; e_status := None; e_code := None |} None.

(** The message of the [Error] the [catch] block throws. *)
Definition errorMessage (error : thrown) : string :=
  match error with
  | ThrownPrimitive => "An unexpected error occurred while analyzing the workflow."
  | ThrownObject own nested =>
      let errorDetails := default own nested in
      match e_message errorDetails with
      | Some (String c m) => "Error analyzing workflow with Gemini: " +:+ String c m
      | _ =>
          match e_status errorDetails with
          | Some st =>
              "Error analyzing workflow with Gemini: " +:+ st +:+ " (Code: " +:+
              default "N/A"%string (e_code errorDetails) +:+ ")"
          | None =>
              match e_message own with
              | Some m => m
              | None => "An unexpected error occurred while analyzing the workflow."
              end
          end
      end
  end.

Definition member (ms : list (string * json)) (key : string) : option json :=
  snd <$> last (filter (fun m => fst m = key) ms).

Definition asString (t : option json) : option string :=
  match t with
  | Some (JStr s) => Some s
  | _ => None
  end.

Definition asBool (t : option json) : option bool :=
  match t with
  | Some (JBool b) => Some b
  | _ => None
  end.

Definition asObject (t : option json) : option (list (string * json)) :=
  match t with
  | Some (JObj ms) => Some ms
  | _ => None
  end.

Definition asArray (t : option json) : option (list json) :=
  match t with
  | Some (JArr xs) => Some xs
  | _ => None
  end.

Definition asSummary (t : option json) : option Summary :=
  ms ← asObject t;
  a ← asString (member ms "accomplishment");
  b ← asString (member ms "trigger");
  c ← asString (member ms "finalOutcome");
  d ← asString (member ms "analogy");
  Some {| accomplishment := a; trigger := b; finalOutcome := c; analogy := d |}.

Definition asNodeBreakdown (t : json) : option NodeBreakdown :=
  ms ← asObject (Some t);
  a ← asString (member ms "nodeId");
  b ← asString (member ms "nodeName");
  c ← asString (member ms "purpose");
  d ← asString (member ms "requiredInputs");
  e ← asString (member ms "configurationNeeds");
  f ← asString (member ms "output");
  g ← asString (member ms "visualMetaphor");
  Some {| nb_nodeId := a; nodeName := b; purpose := c; requiredInputs := d;
          configurationNeeds := e; output := f; visualMetaphor := g |}.

Definition isNull (t : json) : bool :=
  match t with
  | JNull => true
  | _ => false
  end.

(** One element of [errors] as received, with [newValue] (absent when
    the property is missing) still to be built. *)
Definition asWorkflowError (t : json) : option (WorkflowError * option json) :=
  ms ← asObject (Some t);
  i ← asString (member ms "id");
  s ← asString (member ms "severity");
  d ← asString (member ms "description");
  m ← asString (member ms "impact");
  n ← match member ms "nodeId" with
      | None => Some None
      | Some (JStr n) => Some (Some n)
      | Some _ => None
      end;
  r ← asString (member ms "recommendation");
  jm ← asObject (member ms "jsonModification");
  p ← asString (member jm "path");
  u ← asBool (member jm "requiresUserInput");
  Some ({| id := i; severity := s; description := d; impact := m; nodeId := n;
           recommendation := r;
           jsonModification := {| path := p; newValue := VUndefined;
                                  requiresUserInput := u |} |},
        member jm "newValue").

(** The post-processing of one element of [errors]: an empty [nodeId]
    becomes absent; [newValue] is replaced by what it parses to as JSON,
    and kept as received when it does not parse. *)
Definition postProcess (h : heap) (received : WorkflowError * option json)
  : heap * WorkflowError :=
  let '(error, raw) := received in
  let '(h1, rawValue) := match raw with
                         | Some t => Store.build t h
                         | None => (h, VUndefined)
                         end in
  let '(h2, v) :=
    match JSON.parse (JSON.toString (Store.depth_bound h1) h1 rawValue) h1 with
    | Some (h2, parsed) => (h2, parsed)
    | None => (h1, rawValue)
    end in
  (h2, {| id := id error; severity := severity error;
          description := description error; impact := impact error;
          nodeId := match nodeId error with
                    | Some EmptyString => None
                    | n => n
                    end;
          recommendation := recommendation error;
          jsonModification :=
            {| path := path (jsonModification error);
               newValue := v;
               requiresUserInput := requiresUserInput (jsonModification error) |} |}).

Fixpoint postProcessAll (h : heap) (received : list (WorkflowError * option json))
  : heap * list WorkflowError :=
  match received with
  | [] => (h, [])
  | e :: rest =>
      let '(h1, e') := postProcess h e in
      let '(h2, rest') := postProcessAll h1 rest in
      (h2, e' :: rest')
  end.

(** The body of the [try] block after the response has arrived. *)
Definition processResponse (M : messages) (text : option string) (h : heap)
  : heap * (thrown + analysis) :=
  match text with
  | None => (h, inl (builtinError (typeErrorMessage M)))
  | Some text =>
      let resultText := Text.trim text in
      let cleanedJson := Text.stripFence resultText in
      match JSONText.parse cleanedJson with
      | None => (h, inl (builtinError (syntaxErrorMessage M cleanedJson)))
      | Some result =>
          match result with
          | JObj ms =>
              match member ms "errors" with
              | Some (JArr es) =>
                  if existsb isNull es
                  then (h, inl (builtinError (typeErrorMessage M)))
                  else
                    match mapM asWorkflowError es,
                          asBool (member ms "isValid"),
                          asSummary (member ms "summary"),
                          asString (member ms "textFlow"),
                          asArray (member ms "nodeBreakdowns") ≫= mapM asNodeBreakdown with
                    | Some received, Some v, Some s, Some f, Some nbs =>
                        let '(h', es') := postProcessAll h received in
                        (h', inr (Resolved {| isValid := v; summary := s; textFlow := f;
                                              nodeBreakdowns := nbs; errors := es' |}))
                    | _, _, _, _, _ => (h, inr Untyped)
                    end
              | _ => (h, inl (builtinError (typeErrorMessage M)))
              end
          | _ => (h, inl (builtinError (typeErrorMessage M)))
          end
      end
  end.

(** [analyzeWorkflow(workflowJson)], given the configured key and what
    the request to the model came back with. *)
Definition analyzeWorkflow (M : messages) (API_KEY : option string) (reply : apiReply)
  (h : heap) : heap * analysis :=
  match API_KEY with
  | None | Some EmptyString =>
      (h, Rejected "API key is not configured. Please ensure the API_KEY environment variable is set.")
  | Some _ =>
      match reply with
      | Failure e => (h, Rejected (errorMessage e))
      | Reply text =>
          match processResponse M text h with
          | (h', inr a) => (h', a)
          | (h', inl e) => (h', Rejected (errorMessage e))
          end
      end
  end.

End Service.

(** ** [App.tsx] *)

Inductive Stage : Set := input | analyzing | results.

(** The state of the [App] component: its seven state variables and the
    [originalWorkflow] ref, which is [null] until a text has been parsed. *)
Record AppState : Type := {
  stage : Stage;
  jsonInput : string;
  analysisResult : option AnalysisResult;
  apiError : option string;
  approvedFixes : gset string;
  openSections : gmap string bool;
  hasApiKey : bool;
  originalWorkflow : value
}.

(** What evaluating an expression gives: a value, or an exception; or
    the store does not tell, the evaluation having gone on outside it. *)
Inductive completion (A : Type) : Type :=
| Value (a : A)
| Raised
| Undetermined.
Arguments Value {A} a.
Arguments Raised {A}.
Arguments Undetermined {A}.

Module App.

Definition initial : AppState :=
  {| stage := input; jsonInput := EmptyString; analysisResult := None;
     apiError := None; approvedFixes := ∅; openSections := ∅;
     hasApiKey := false; originalWorkflow := VNull |}.

Definition setStage (x : Stage) (st : AppState) : AppState :=
  {| stage := x; jsonInput := jsonInput st; analysisResult := analysisResult st;
     apiError := apiError st; approvedFixes := approvedFixes st;
     openSections := openSections st; hasApiKey := hasApiKey st;
     originalWorkflow := originalWorkflow st |}.

Definition setJsonInput (x : string) (st : AppState) : AppState :=
  {| stage := stage st; jsonInput := x; analysisResult := analysisResult st;
     apiError := apiError st; approvedFixes := approvedFixes st;
     openSections := openSections st; hasApiKey := hasApiKey st;
     originalWorkflow := originalWorkflow st |}.

Definition setAnalysisResult (x : option AnalysisResult) (st : AppState) : AppState :=
  {| stage := stage st; jsonInput := jsonInput st; analysisResult := x;
     apiError := apiError st; approvedFixes := approvedFixes st;
     openSections := openSections st; hasApiKey := hasApiKey st;
     originalWorkflow := originalWorkflow st |}.

Definition setApiError (x : option string) (st : AppState) : AppState :=
  {| stage := stage st; jsonInput := jsonInput st; analysisResult := analysisResult st;
     apiError := x; approvedFixes := approvedFixes st;
     openSections := openSections st; hasApiKey := hasApiKey st;
     originalWorkflow := originalWorkflow st |}.

Definition setApprovedFixes (x : gset string) (st : AppState) : AppState :=
  {| stage := stage st; jsonInput := jsonInput st; analysisResult := analysisResult st;
     apiError := apiError st; approvedFixes := x;
     openSections := openSections st; hasApiKey := hasApiKey st;
     originalWorkflow := originalWorkflow st |}.

Definition setOpenSections (x : gmap string bool) (st : AppState) : AppState :=
  {| stage := stage st; jsonInput := jsonInput st; analysisResult := analysisResult st;
     apiError := apiError st; approvedFixes := approvedFixes st;
     openSections := x; hasApiKey := hasApiKey st;
     originalWorkflow := originalWorkflow st |}.

Definition setHasApiKey (x : bool) (st : AppState) : AppState :=
  {| stage := stage st; jsonInput := jsonInput st; analysisResult := analysisResult st;
     apiError := apiError st; approvedFixes := approvedFixes st;
     openSections := openSections st; hasApiKey := x;
     originalWorkflow := originalWorkflow st |}.

Definition setOriginalWorkflow (x : value) (st : AppState) : AppState :=
  {| stage := stage st; jsonInput := jsonInput st; analysisResult := analysisResult st;
     apiError := apiError st; approvedFixes := approvedFixes st;
     openSections := openSections st; hasApiKey := hasApiKey st;
     originalWorkflow := x |}.

(** [handleAnalyze] up to its [await]: the new state and store, and
    whether the analyzer is called. *)
Definition handleAnalyze_begin (st : AppState) (h : heap) : AppState * heap * bool :=
  match Text.trim (jsonInput st) with
  | EmptyString => (setApiError (Some "JSON input cannot be empty."%string) st, h, false)
  | _ =>
      match JSON.parse (jsonInput st) h with
      | None =>
          (setApiError (Some "Invalid JSON format. Please check your input."%string) st,
           h, false)
      | Some (h', parsedJson) =>
          let st := setOriginalWorkflow parsedJson st in
          let st := setStage analyzing st in
          let st := setApiError None st in
          let st := setAnalysisResult None st in
          let st := setApprovedFixes ∅ st in
          let st := setOpenSections ∅ st in
          (st, h', true)
      end
  end.

(** [handleAnalyze] from the point where the promise of [analyzeWorkflow]
    has settled.  What [analyzeWorkflow] throws is always an [Error], so
    the message read in the [catch] block is its message. *)
Definition handleAnalyze_settle (settled : analysis) (st : AppState) : option AppState :=
  match settled with
  | Resolved result =>
      let st := setAnalysisResult (Some result) st in
      Some (setStage results st)
  | Rejected errorMessage =>
      let st :=
        if Text.includes "Requested entity was not found" errorMessage then
          let st :=
            setApiError
              (Some "The selected API key is invalid or has been revoked. Please select a different key."%string)
              st in
          setHasApiKey false st
        else setApiError (Some errorMessage) st in
      Some (setStage input st)
  | Untyped => None
  end.

(** [handleAnalyze], with the analyzer as a function of the submitted
    text and the store.  [None] when the analyzer resolves with a value
    outside its declared type. *)
Definition handleAnalyze (analyzeWorkflow : string -> heap -> heap * analysis)
  (st : AppState) (h : heap) : option (AppState * heap) :=
  match handleAnalyze_begin st h with
  | (st1, h1, false) => Some (st1, h1)
  | (st1, h1, true) =>
      let '(h2, settled) := analyzeWorkflow (jsonInput st) h1 in
      match handleAnalyze_settle settled st1 with
      | Some st2 => Some (st2, h2)
      | None => None
      end
  end.

Definition toggleFix (errorId : string) (st : AppState) : AppState :=
  let prev := approvedFixes st in
  let newSet := if bool_decide (errorId ∈ prev)
                then prev ∖ {[errorId]}
                else prev ∪ {[errorId]} in
  setApprovedFixes newSet st.

Definition approveAllFixes (st : AppState) : AppState :=
  match analysisResult st with
  | None => st
  | Some result =>
      let autoFixableErrorIds : gset string :=
        list_to_set
          (map id
             (filter (fun e => requiresUserInput (jsonModification e) = false)
                (errors result))) in
      setApprovedFixes autoFixableErrorIds st
  end.

(** [prev[id]] as a condition: the own entry, or else what the object
    inherits under that name, which is a function, or under [__proto__]
    its prototype, and is truthy. *)
Definition sectionOpen (E : engine) (prev : gmap string bool) (i : string) : bool :=
  match prev !! i with
  | Some b => b
  | None => bool_decide (is_Some (inheritedFunction E false i)) || String.eqb i "__proto__"
  end.

Definition toggleSection (E : engine) (i : string) (st : AppState) : AppState :=
  let prev := openSections st in
  setOpenSections (<[i := negb (sectionOpen E prev i)]> prev) st.

(** The handler of the button "Analyze Another Workflow". *)
Definition analyzeAnotherWorkflow (st : AppState) : AppState := setStage input st.

(** [!v] is false *)
Definition truthy (v : value) : bool :=
  match v with
  | VUndefined | VNull => false
  | VBool b => b
  | VNum n => match num_digits n with [] => false | _ => true end
  | VStr EmptyString => false
  | VStr _ => true
  | VRef _ | VFun _ => true
  end.

(** The [forEach] over [analysisResult.errors]. *)
Fixpoint applyFixes (E : engine) (approved : gset string) (h : heap)
  (correctedWorkflow : value) (es : list WorkflowError) : heap * outcome :=
  match es with
  | [] => (h, Returned)
  | error :: rest =>
      if bool_decide (id error ∈ approved) then
        match Lodash.set E h correctedWorkflow (path (jsonModification error))
                (newValue (jsonModification error)) with
        | (h', Returned) => applyFixes E approved h' correctedWorkflow rest
        | (h', o) => (h', o)
        end
      else applyFixes E approved h correctedWorkflow rest
  end.

(** The value of the memo [correctedWorkflowJson] in a state, and the
    store its computation leaves. *)
Definition correctedWorkflowJson (E : engine) (st : AppState) (h : heap)
  : heap * completion (option string) :=
  match analysisResult st with
  | None => (h, Value None)
  | Some result =>
      if negb (truthy (originalWorkflow st)) then (h, Value None)
      else
        match JSON.stringify h (originalWorkflow st) with
        | None => (h, Raised)
        | Some text =>
            match JSON.parse (default "undefined"%string text) h with
            | None => (h, Raised)
            | Some (h1, correctedWorkflow) =>
                match applyFixes E (approvedFixes st) h1 correctedWorkflow (errors result) with
                | (h2, Threw) => (h2, Raised)
                | (h2, Outside) => (h2, Undetermined)
                | (h2, Returned) =>
                    match JSON.stringify2 h2 correctedWorkflow with
                    | None => (h2, Raised)
                    | Some out => (h2, Value out)
                    end
                end
            end
        end
  end.

End App.

(** A value is read back from its text: followed by anything that does
    not continue it, and with fuel for its size, the text parses to the
    value. *)
Definition reads_back (t : json) : Prop :=
  Store.canonical t = true →
  ∀ fuel rest, JSONText.size t ≤ fuel → Numeral.ends rest = true →
    JSONText.parseValue fuel (JSONText.render t +:+ rest) = Some (t, rest).

(** The value [v] of the store [h] serialises to [t], and goes on doing so
    however the store grows. *)
Definition reads (h : heap) (v : value) (t : json) : Prop :=
  ∀ ext fuel, JSONText.depth t ≤ fuel →
    Store.serialize fuel (h ++ ext) v = Some (Some t).

(** Building [t] only adds to the store, and what is built serialises
    to [t]. *)
Definition rebuilds (t : json) : Prop :=
  ∀ h, (∃ ext, fst (Store.build t h) = h ++ ext)
       ∧ reads (fst (Store.build t h)) (snd (Store.build t h)) t.

(** The value [v] of the store [h] serialises, however the store grows,
    to a value in canonical form that is nested no deeper than the store
    has objects beyond [base]. *)
Definition legible (base : nat) (h : heap) (v : value) : Prop :=
  ∃ t, reads h v t ∧ Store.canonical t = true ∧ JSONText.depth t + base ≤ length h.

(** ** The object graph *)

Module Graph.

(** The values an object holds. *)
Definition values (o : object) : list value :=
  match o with
  | Obj props => snd <$> props
  | Arr elems props => elems ++ (snd <$> props)
  end.

(** [v] is a primitive, or a reference to a location of [W]. *)
Definition within (W : loc → Prop) (v : value) : Prop :=
  match v with
  | VRef l => W l
  | _ => True
  end.

(** The objects at the locations of [W] hold references to [W] only. *)
Definition closed (W : loc → Prop) (h : heap) : Prop :=
  ∀ l o, h !! l = Some o → W l → Forall (within W) (values o).

(** The store [h] has grown from [h0], agrees with it outside [W], and
    keeps [W] closed. *)
Definition evolved (W : loc → Prop) (h0 h : heap) : Prop :=
  length h0 ≤ length h
  ∧ (∀ l, ¬ W l → h !! l = h0 !! l)
  ∧ closed W h.

(** The locations reachable from a value through the store. *)
Inductive reach (h : heap) : value → loc → Prop :=
| reach_here (l : loc) : reach h (VRef l) l
| reach_step (l : loc) (o : object) (x : value) (l' : loc) :
    h !! l = Some o → x ∈ values o → reach h x l' → reach h (VRef l) l'.

End Graph.

(** Reading along a path: [v[k1][k2]...]. *)
Definition follow (h : heap) (v : value) (keys : list string) : value :=
  foldl (Store.get h) v keys.

(** ** Sessions *)

Module Session.

(** The store is laid out in layers: the object graph of the original
    document occupies the locations from [a] up to [n], the patch values
    of the analysis result and everything built since lie at [n] or
    beyond, and no reference leaves its layer. *)
Definition separated (st : AppState) (h : heap) : Prop :=
  ∃ a n, n ≤ length h
    ∧ Graph.closed (fun l => a ≤ l < n) h
    ∧ Graph.within (fun l => a ≤ l < n) (originalWorkflow st)
    ∧ Graph.closed (fun l => n ≤ l) h
    ∧ ∀ r, analysisResult st = Some r →
        Forall (fun e => Graph.within (fun l => n ≤ l) (newValue (jsonModification e)))
          (errors r).

(** The original document serialises, to a value in canonical form,
    with the fuel the size of the store gives. *)
Definition readable (st : AppState) (h : heap) : Prop :=
  ∃ t, Store.canonical t = true
       ∧ JSONText.depth t ≤ length h
       ∧ ∀ fuel, JSONText.depth t ≤ fuel →
           Store.serialize fuel h (originalWorkflow st) = Some (Some t).

(** What can happen to the component and the store: the effect and the
    handlers of [App.tsx], the two halves of [handleAnalyze] around its
    [await], and the evaluation of the memo [correctedWorkflowJson]. *)
Inductive step (M : messages) (E : engine) : AppState * heap → AppState * heap → Prop :=
| checkApiKey (keySelected : bool) st h :
    step M E (st, h) (App.setHasApiKey keySelected st, h)
| selectKeyFailed st h :
    step M E (st, h)
      (App.setApiError (Some "Could not open the API key selection dialog."%string) st, h)
| edit (content : string) st h :
    step M E (st, h) (App.setJsonInput content st, h)
| submit st h st' h' called :
    App.handleAnalyze_begin st h = (st', h', called) →
    step M E (st, h) (st', h')
| settle API_KEY reply settled st h st' h' :
    Service.analyzeWorkflow M API_KEY reply h = (h', settled) →
    App.handleAnalyze_settle settled st = Some st' →
    step M E (st, h) (st', h')
| toggleFix (errorId : string) st h :
    step M E (st, h) (App.toggleFix errorId st, h)
| approveAllFixes st h :
    step M E (st, h) (App.approveAllFixes st, h)
| toggleSection (i : string) st h :
    step M E (st, h) (App.toggleSection E i st, h)
| analyzeAnother st h :
    step M E (st, h) (App.analyzeAnotherWorkflow st, h)
| render st h :
    step M E (st, h) (st, fst (App.correctedWorkflowJson E st h)).

End Session.

(** ** What [App.tsx] renders *)

Module View.

(** The key screen is rendered in place of the stages: [!hasApiKey]. *)
Definition keyScreen (st : AppState) : bool := negb (hasApiKey st).

(** The Analyze button: [disabled={!jsonInput.trim()}]. *)
Definition analyzeDisabled (st : AppState) : bool :=
  match Text.trim (jsonInput st) with
  | EmptyString => true
  | _ => false
  end.

(** The result whose view is rendered:
    [stage === 'results' && analysisResult], under [hasApiKey]. *)
Definition resultsShown (st : AppState) : option AnalysisResult :=
  if hasApiKey st then
    match stage st with
    | results => analysisResult st
    | _ => None
    end
  else None.

(** An issue is rendered with the button "Accept Fix"; the others with a
    disabled button "Manual Input Required". *)
Definition acceptOffered (e : WorkflowError) : bool :=
  negb (requiresUserInput (jsonModification e)).

(** The corrected document and its download button are rendered:
    [correctedWorkflowJson && approvedFixes.size > 0]. *)
Definition correctedShown (memo : option string) (st : AppState) : bool :=
  match memo with
  | Some (String _ _) => 0 <? size (approvedFixes st)
  | _ => false
  end.

End View.

(** ** The session as the interface allows it *)

Module Interface.

(** The handlers of [App.tsx] where the rendered interface can call
    them.  [bridge] tells whether [window.aistudio] exists; the effect
    [checkApiKey] and [handleSelectKey] do nothing without it.  The promise
    of [handleAnalyze] settles while the stage is [analyzing], where
    nothing but the loader is rendered.  [toggleSection] is bound to no
    element. *)
Inductive step (bridge : bool) (M : messages) (E : engine)
  : AppState * heap → AppState * heap → Prop :=
| checkApiKey (keySelected : bool) st h :
    bridge = true →
    step bridge M E (st, h) (App.setHasApiKey keySelected st, h)
| selectKey st h :
    bridge = true → View.keyScreen st = true →
    step bridge M E (st, h) (App.setHasApiKey true st, h)
| selectKeyFailed st h :
    bridge = true → View.keyScreen st = true →
    step bridge M E (st, h)
      (App.setApiError (Some "Could not open the API key selection dialog."%string) st, h)
| edit (content : string) st h :
    View.keyScreen st = false → stage st = input →
    step bridge M E (st, h) (App.setJsonInput content st, h)
| submit st h st' h' called :
    View.keyScreen st = false → stage st = input → View.analyzeDisabled st = false →
    App.handleAnalyze_begin st h = (st', h', called) →
    step bridge M E (st, h) (st', h')
| settle API_KEY reply settled st h st' h' :
    stage st = analyzing →
    Service.analyzeWorkflow M API_KEY reply h = (h', settled) →
    App.handleAnalyze_settle settled st = Some st' →
    step bridge M E (st, h) (st', h')
| toggleFix (e : WorkflowError) r st h :
    View.resultsShown st = Some r → e ∈ errors r → View.acceptOffered e = true →
    step bridge M E (st, h) (App.toggleFix (id e) st, h)
| approveAllFixes r st h :
    View.resultsShown st = Some r → errors r ≠ [] →
    step bridge M E (st, h) (App.approveAllFixes st, h)
| analyzeAnother r st h :
    View.resultsShown st = Some r →
    step bridge M E (st, h) (App.analyzeAnotherWorkflow st, h)
| render st h :
    step bridge M E (st, h) (st, fst (App.correctedWorkflowJson E st h)).

(** What the state of the component keeps through these steps. *)
Definition consistent (st : AppState) : Prop :=
  (stage st = results → is_Some (analysisResult st))
  ∧ (stage st = analyzing → analysisResult st = None)
  ∧ match analysisResult st with
    | Some r => ∀ i, i ∈ approvedFixes st →
                     ∃ e, e ∈ errors r ∧ id e = i ∧ View.acceptOffered e = true
    | None => approvedFixes st = ∅
    end
  ∧ openSections st = ∅.

End Interface.

(** ** What the specification expects of a deep write *)

(** The specification of the document patcher: a write along a path
    creates the missing containers, an array where the next segment is
    numeric and an object otherwise.  These definitions follow the words
    of the specification and describe the objects such a write leaves in
    the store; they are compared below with what [Lodash.set] does. *)
Module Expected.

Fixpoint digits (s : string) : bool :=
  match s with
  | EmptyString => true
  | String c t => Numeral.is_digit c && digits t
  end.

(** A numeric segment: decimal digits, at least one. *)
Definition numeric (s : string) : bool :=
  match s with
  | EmptyString => false
  | _ => digits s
  end.

(** The number a numeric segment denotes. *)
Definition index (s : string) : nat :=
  N.to_nat (Numeral.N_of_digits (fst (Numeral.takeDigits s))).

(** What is stored under a segment that is followed by the segments
    [rest]: the value written, or the container created at [base]. *)
Definition target (base : loc) (rest : list string) (v : value) : value :=
  match rest with
  | [] => v
  | _ :: _ => VRef base
  end.

(** A created container once [x] is stored in it under [key]: for a
    numeric segment an array holding [x] at that index (after holes), for
    any other an object with the one property. *)
Definition holder (key : string) (x : value) : object :=
  if numeric key then Arr (replicate (index key) VUndefined ++ [x]) []
  else Obj [(key, x)].

(** The containers created for the segments [rest] that follow a missing
    one, at the consecutive locations from [base] on, the last of them
    holding [v]. *)
Fixpoint chain (base : loc) (rest : list string) (v : value) : list object :=
  match rest with
  | [] => []
  | next :: rest' => holder next (target (S base) rest' v) :: chain (S base) rest' v
  end.

(** The object at the end of the segments [pre], each of which names an
    object held by the one before. *)
Fixpoint walk (h : heap) (v : value) (pre : list string) : option loc :=
  match v with
  | VRef l =>
      match pre with
      | [] => Some l
      | k :: pre' => walk h (Store.get h v k) pre'
      end
  | _ => None
  end.

(** A segment the patcher and the specification read alike: one that is
    not numeric, or the index of an array element (written without a
    leading zero, and below 2^32 - 1). *)
Definition regular (key : string) : bool :=
  negb (numeric key) || bool_decide (is_Some (Store.arrayIndex key)).

(** The container created for the segment [key] inherits a function
    under that name. *)
Definition inherits (E : engine) (key : string) : bool :=
  bool_decide (is_Some (inheritedFunction E (numeric key) key)).

(** No segment that is followed by another names a function its
    container inherits. *)
Fixpoint ownNames (E : engine) (rest : list string) : bool :=
  match rest with
  | key :: ((_ :: _) as rest') => negb (inherits E key) && ownNames E rest'
  | _ => true
  end.

End Expected.

(** ** Sample data *)

Module Samples.

(** The names of the functions of [Object.prototype], and those of
    [Array.prototype], in a browser of 2023. *)
Definition objectPrototype : list string :=
  ["constructor"; "hasOwnProperty"; "isPrototypeOf"; "propertyIsEnumerable";
   "toLocaleString"; "toString"; "valueOf"; "__defineGetter__"; "__defineSetter__";
   "__lookupGetter__"; "__lookupSetter__"]%string.

Definition arrayPrototype : list string :=
  ["constructor"; "at"; "concat"; "copyWithin"; "entries"; "every"; "fill"; "filter";
   "find"; "findIndex"; "findLast"; "findLastIndex"; "flat"; "flatMap"; "forEach";
   "includes"; "indexOf"; "join"; "keys"; "lastIndexOf"; "map"; "pop"; "push";
   "reduce"; "reduceRight"; "reverse"; "shift"; "slice"; "some"; "sort"; "splice";
   "toLocaleString"; "toReversed"; "toSorted"; "toSpliced"; "toString"; "unshift";
   "values"; "with"]%string.

Definition inherited0 (array : bool) (key : string) : option string :=
  if array && existsb (String.eqb key) arrayPrototype
  then Some ("Array.prototype." +:+ key)
  else if existsb (String.eqb key) objectPrototype
       then Some ("Object.prototype." +:+ key)
       else None.

(** A function's [name] and [length] are read-only, and reading its
    [caller] or [arguments] throws. *)
Definition functionStore0 (b key : string) : outcome :=
  if existsb (String.eqb key) ["name"; "length"; "caller"; "arguments"]%string
  then Threw else Returned.

(** An engine under which nothing converts to an array length, and
    lodash is run as strict code. *)
Definition engine0 : engine := Engine (fun _ _ => None) true inherited0 functionStore0.

Definition messages0 : messages :=
  Messages (fun _ => "Unexpected token"%string) "Cannot read properties of undefined".

Definition summary0 : Summary :=
  {| accomplishment := "Sends a greeting"; trigger := "A webhook";
     finalOutcome := "A chat message"; analogy := "A doorbell" |}.

Definition issue (i p : string) (v : value) (manual : bool) : WorkflowError :=
  {| id := i; severity := "warning"; description := "d"; impact := "i";
     nodeId := None; recommendation := "r";
     jsonModification := {| path := p; newValue := v; requiresUserInput := manual |} |}.

Definition result (es : list WorkflowError) : AnalysisResult :=
  {| isValid := false; summary := summary0; textFlow := "A -> B";
     nodeBreakdowns := []; errors := es |}.

(** Two issues, the second of which needs a secret from the user. *)
Definition twoIssues : AnalysisResult :=
  result [issue "e1" "a.b" (VNum (Numeral.of_N 2)) false;
          issue "e2" "credentials.token" (VStr "<PASTE_YOUR_SECRET_API_KEY_HERE>") true].

(** A session showing results, with a fix approved by hand and a section
    opened; the document is the object at location 0. *)
Definition showingResults : AppState :=
  {| stage := results; jsonInput := "{}"; analysisResult := Some twoIssues;
     apiError := None; approvedFixes := {[ "e2"%string ]};
     openSections := {[ "n1"%string := true ]}; hasApiKey := true;
     originalWorkflow := VRef 0 |}.

Definition typed (text : string) : AppState := App.setJsonInput text App.initial.

(** The session in which the text [doc] has been parsed into the store
    (the object graph [original]), the analysis has returned the one issue
    [e1] with the patch ([p], [v]), and the issues [approved] are approved. *)
Definition patching (doc : string) (original : value) (p : string) (v : value)
  (approved : list string) : AppState :=
  {| stage := results; jsonInput := doc;
     analysisResult := Some (result [issue "e1" p v false]);
     apiError := None; approvedFixes := list_to_set approved; openSections := ∅;
     hasApiKey := true; originalWorkflow := original |}.

(** The store and the value [JSON.parse] gives for [doc] from the empty
    store. *)
Definition parsed (doc : string) : heap * value :=
  default ([], VNull) (JSON.parse doc []).

Definition docAB1 : string := Text.q "{'a': {'b': 1}}".
Definition docAB1' : string := Text.q "{'a':{'b':1}}".
Definition docEmpty : string := "{}".

(** The store after the document [docAB1] and then the patch value
    [{"k": [1]}] have been parsed: the document is the object at location
    1 (with the object at 0 inside), the patch value the object at 3. *)
Definition twoGraphs : heap :=
  fst (default ([], VNull)
         (JSON.parse (Text.q "{'k': [1]}") (fst (parsed docAB1)))).

(** The session over [twoGraphs] in which the patch [a.b.c := {"k": [1]}]
    is approved. *)
Definition patchingAB : AppState :=
  patching docAB1 (VRef 1) "a.b.c" (VRef 3) ["e1"%string].



(** A session in which only white space has been typed: a space, a line
    feed, a tab and a no-break space. *)
Definition blankSubmission : AppState :=
  App.setJsonInput
    (String " " (String "010" (String "009" (String "194" (String "160" EmptyString)))))
    showingResults.

(** A response of the model: three issues, whose [newValue] strings are
    a number, a text that is not JSON, and an object. *)
Definition responseBody : string :=
  Text.q ("{'isValid': false, "
    +:+ "'summary': {'accomplishment':'a','trigger':'t','finalOutcome':'f','analogy':'g'}, "
    +:+ "'textFlow':'A -> B', "
    +:+ "'nodeBreakdowns': [{'nodeId':'n1','nodeName':'Start','purpose':'p',"
    +:+ "'requiredInputs':'ri','configurationNeeds':'c','output':'o','visualMetaphor':'v'}], "
    +:+ "'errors': ["
    +:+ "{'id':'e1','severity':'critical','description':'d','impact':'i','nodeId':'',"
    +:+ "'recommendation':'r','jsonModification':"
    +:+ "{'path':'nodes[0].parameters.retries','newValue':'5','requiresUserInput':false}}, "
    +:+ "{'id':'e2','severity':'info','description':'d','impact':'i','nodeId':'n1',"
    +:+ "'recommendation':'r','jsonModification':"
    +:+ "{'path':'name','newValue':'hello world','requiresUserInput':false}}, "
    +:+ "{'id':'e3','severity':'info','description':'d','impact':'i',"
    +:+ "'recommendation':'r','jsonModification':"
    +:+ "{'path':'settings','newValue':'{\'name\': \'Bot\'}','requiresUserInput':false}}"
    +:+ "]}").

(** The same response inside a markdown code fence. *)
Definition fencedResponse : string :=
  "```json" +:+ JSONText.newline +:+ responseBody +:+ JSONText.newline +:+ "```"
  +:+ JSONText.newline.

(** A whole session: the text [doc] is typed and submitted, and the
    model answers [fencedResponse]. *)
Definition submitted (doc : string) : AppState * heap * bool :=
  App.handleAnalyze_begin (typed doc) [].

Definition analysed (doc : string) : heap * analysis :=
  Service.analyzeWorkflow messages0 (Some "key"%string) (Reply (Some fencedResponse))
    (snd (fst (submitted doc))).

Definition settled (doc : string) : AppState :=
  default App.initial
    (App.handleAnalyze_settle (snd (analysed doc)) (fst (fst (submitted doc)))).

(** The session on [docAB1] once every fix is approved. *)
Definition allApproved : AppState := App.approveAllFixes (settled docAB1).

(** The corrected document of that session. *)
Definition correctedAB1 : string :=
  Text.q "{
  'a': {
    'b': 1
  },
  'nodes': [
    {
      'parameters': {
        'retries': 5
      }
    }
  ],
  'name': 'hello world',
  'settings': {
    'name': 'Bot'
  }
}".

End Samples.

(** ** A session through the interface *)

Module Walk.

(** The session once a key has been selected. *)
Definition keyed : AppState := App.setHasApiKey true App.initial.

(** The text [doc] is typed and submitted, and the model answers
    [Samples.fencedResponse]. *)
Definition submitted (doc : string) : AppState * heap * bool :=
  App.handleAnalyze_begin (App.setJsonInput doc keyed) [].

Definition analysed (doc : string) : heap * analysis :=
  Service.analyzeWorkflow Samples.messages0 (Some "key"%string)
    (Reply (Some Samples.fencedResponse)) (snd (fst (submitted doc))).

Definition settled (doc : string) : AppState :=
  default App.initial
    (App.handleAnalyze_settle (snd (analysed doc)) (fst (fst (submitted doc)))).

End Walk.

(** * Properties *)

(** ** Text *)

Lemma startsWith_app (p s : string) : Text.startsWith p (p +:+ s) = true.
Proof.
  induction p as [|a p IH]; simpl; [done|].
  by rewrite Ascii.eqb_refl, IH.
Qed.

Lemma startsWith_inv (p s : string) :
  Text.startsWith p s = true → ∃ r, s = p +:+ r.
Proof.
  revert s; induction p as [|a p IH]; intros s H; simpl in *.
  - by exists s.
  - destruct s as [|b s]; [done|].
    apply andb_true_iff in H as [Hab Hp].
    apply Ascii.eqb_eq in Hab as ->.
    destruct (IH _ Hp) as [r ->]. by exists r.
Qed.

Lemma includes_here (needle s : string) :
  Text.startsWith needle s = true → Text.includes needle s = true.
Proof. destruct s; simpl; intros ->; done. Qed.

(** [includes] decides whether the needle occurs in the text. *)
Lemma includes_spec (needle s : string) :
  Text.includes needle s = true ↔ ∃ pre post, s = pre +:+ needle +:+ post.
Proof.
  split.
  - induction s as [|c s IH]; simpl; intros H.
    + rewrite orb_false_r in H. apply startsWith_inv in H as [r ->].
      by exists EmptyString, r.
    + apply orb_true_iff in H as [H|H].
      * apply startsWith_inv in H as [r ->]. by exists EmptyString, r.
      * destruct (IH H) as (pre & post & ->). by exists (String c pre), post.
  - intros (pre & post & ->).
    induction pre as [|c pre IH]; simpl.
    + apply includes_here. apply (startsWith_app needle post).
    + by rewrite IH, orb_true_r.
Qed.

Lemma trimStart_unfold (s : string) :
  Text.trimStart s = match Text.afterSpace s with
                     | Some t => Text.trimStart t
                     | None => s
                     end.
Proof.
  destruct s as [|c1 [|c2 [|c3 t]]]; cbn [Text.trimStart Text.afterSpace]; try done.
  - by destruct (Text.is_space c1).
  - destruct (Text.is_space c1); [done|]. by destruct (Text.is_space2 c1 c2).
  - destruct (Text.is_space c1); [done|]. destruct (Text.is_space2 c1 c2); [done|].
    by destruct (Text.is_space3 c1 c2 c3).
Qed.

Lemma isBlank_unfold (s : string) :
  Text.isBlank s = match s with
                   | EmptyString => true
                   | _ => match Text.afterSpace s with
                          | Some t => Text.isBlank t
                          | None => false
                          end
                   end.
Proof.
  destruct s as [|c1 [|c2 [|c3 t]]]; cbn [Text.isBlank Text.afterSpace]; try done.
  - by destruct (Text.is_space c1).
  - destruct (Text.is_space c1); [done|]. by destruct (Text.is_space2 c1 c2).
  - destruct (Text.is_space c1); [done|]. destruct (Text.is_space2 c1 c2); [done|].
    by destruct (Text.is_space3 c1 c2 c3).
Qed.

Lemma afterSpace_length (s t : string) :
  Text.afterSpace s = Some t → String.length t < String.length s.
Proof.
  destruct s as [|c1 [|c2 [|c3 u]]]; cbn [Text.afterSpace]; try done;
    repeat match goal with
           | |- context [if ?b then _ else _] => destruct b
           end; intros [= <-]; cbn [String.length]; lia.
Qed.

(** What is left of a text rid of its leading white space is empty
    exactly when the text is white space only. *)
Lemma trimStart_empty_iff (s : string) :
  Text.trimStart s = EmptyString ↔ Text.isBlank s = true.
Proof.
  remember (String.length s) as n eqn:Hn. revert s Hn.
  induction (lt_wf n) as [n _ IH]. intros s ->.
  rewrite trimStart_unfold, isBlank_unfold.
  destruct s as [|c s]; [done|].
  destruct (Text.afterSpace (String c s)) as [t|] eqn:Ht; [|done].
  by apply (IH (String.length t) (afterSpace_length _ _ Ht)).
Qed.

Lemma trimStart_blank (s : string) : Text.isBlank s = true → Text.trimStart s = EmptyString.
Proof. apply trimStart_empty_iff. Qed.

Lemma trimStart_idempotent (s : string) :
  Text.trimStart (Text.trimStart s) = Text.trimStart s.
Proof.
  remember (String.length s) as n eqn:Hn. revert s Hn.
  induction (lt_wf n) as [n _ IH]. intros s ->.
  rewrite (trimStart_unfold s).
  destruct (Text.afterSpace s) as [t|] eqn:Ht.
  - by apply (IH (String.length t) (afterSpace_length _ _ Ht)).
  - by rewrite trimStart_unfold, Ht.
Qed.

Lemma trim_blank (s : string) : Text.isBlank s = true → Text.trim s = EmptyString.
Proof. intros H. unfold Text.trim. by rewrite trimStart_blank. Qed.

Lemma trimEnd_empty (s : string) : Text.trimEnd s = EmptyString → Text.isBlank s = true.
Proof.
  destruct s as [|c s]; [done|]. cbn [Text.trimEnd].
  by destruct (Text.isBlank (String c s)).
Qed.

(** The trimmed text is empty exactly for a text of white space only. *)
Lemma trim_empty_iff (s : string) :
  Text.trim s = EmptyString ↔ Text.isBlank s = true.
Proof.
  split; [|apply trim_blank].
  unfold Text.trim. intros H%trimEnd_empty%trimStart_empty_iff.
  apply trimStart_empty_iff. by rewrite trimStart_idempotent in H.
Qed.

(** ** The approved-fix set *)

Lemma toggle_twice (x : string) (X : gset string) :
  (if bool_decide (x ∈ (if bool_decide (x ∈ X) then X ∖ {[x]} else X ∪ {[x]}))
   then (if bool_decide (x ∈ X) then X ∖ {[x]} else X ∪ {[x]}) ∖ {[x]}
   else (if bool_decide (x ∈ X) then X ∖ {[x]} else X ∪ {[x]}) ∪ {[x]}) = X.
Proof.
  destruct (bool_decide_reflect (x ∈ X)) as [Hin|Hout].
  - rewrite bool_decide_eq_false_2 by set_solver.
    apply set_eq; intros y. destruct (decide (y = x)); set_solver.
  - rewrite bool_decide_eq_true_2 by set_solver.
    apply set_eq; intros y. destruct (decide (y = x)); set_solver.
Qed.

(** C8. Whatever the id and whatever the approved-fix set, [toggleFix]
    applied twice with the same id gives back the state it started from:
    the set has exactly its original members, and nothing else in the
    session has changed. *)
Theorem toggleFix_involution (errorId : string) (st : AppState) :
  App.toggleFix errorId (App.toggleFix errorId st) = st
  ∧ ∀ i, i ∈ approvedFixes (App.toggleFix errorId (App.toggleFix errorId st))
         ↔ i ∈ approvedFixes st.
Proof.
  assert (App.toggleFix errorId (App.toggleFix errorId st) = st) as E.
  { destruct st as [sg ji ar ae af os hk ow].
    unfold App.toggleFix, App.setApprovedFixes; simpl.
    f_equal. apply toggle_twice. }
  split; [exact E|]. intros i. by rewrite E.
Qed.

Lemma elem_of_autoFixable (es : list WorkflowError) (i : string) :
  i ∈ (list_to_set
         (map id (filter (fun e => requiresUserInput (jsonModification e) = false) es))
       : gset string)
  ↔ ∃ e, e ∈ es ∧ id e = i ∧ requiresUserInput (jsonModification e) = false.
Proof.
  rewrite elem_of_list_to_set, list_elem_of_In, in_map_iff.
  split.
  - intros (e & Hi & He%list_elem_of_In%list_elem_of_filter). naive_solver.
  - intros (e & He & Hi & Hr). exists e. split; [done|].
    apply list_elem_of_In, list_elem_of_filter. done.
Qed.

Lemma NoDup_map_id_inj (es : list WorkflowError) (e e' : WorkflowError) :
  NoDup (map id es) → e ∈ es → e' ∈ es → id e = id e' → e = e'.
Proof.
  induction es as [|x es IH]; simpl; intros Hnd He He'; [by apply elem_of_nil in He|].
  apply NoDup_cons in Hnd as [Hx Hnd].
  apply elem_of_cons in He as [->|He]; apply elem_of_cons in He' as [->|He']; intros Hid.
  - done.
  - exfalso. apply Hx. rewrite Hid. apply list_elem_of_In, in_map, list_elem_of_In, He'.
  - exfalso. apply Hx. rewrite <- Hid. apply list_elem_of_In, in_map, list_elem_of_In, He.
  - by apply IH.
Qed.

(** C2. In a session that holds an analysis result, [approveAllFixes]
    replaces the approved-fix set, whatever it held, by exactly the ids of
    the issues whose patch does not require user input; with ids unique
    within the result, the id of an issue that requires user input is not
    in the new set even if it was in the old one; and a second
    [approveAllFixes] changes nothing. *)
Theorem approveAllFixes_exact (st : AppState) (r : AnalysisResult) :
  analysisResult st = Some r →
  let st' := App.approveAllFixes st in
  (∀ i, i ∈ approvedFixes st' ↔
        ∃ e, e ∈ errors r ∧ id e = i ∧ requiresUserInput (jsonModification e) = false)
  ∧ (NoDup (map id (errors r)) →
     ∀ e, e ∈ errors r → requiresUserInput (jsonModification e) = true →
          id e ∉ approvedFixes st')
  ∧ App.approveAllFixes st' = st'
  ∧ st' = App.setApprovedFixes (approvedFixes st') st.
Proof.
  intros Hr st'.
  assert (approvedFixes st' =
          list_to_set (map id (filter (fun e => requiresUserInput (jsonModification e) = false)
                                 (errors r)))) as Hset.
  { unfold st', App.approveAllFixes. by rewrite Hr. }
  assert (analysisResult st' = Some r) as Hr'.
  { unfold st', App.approveAllFixes. by rewrite Hr. }
  split; [|split; [|split]].
  - intros i. rewrite Hset. apply elem_of_autoFixable.
  - intros Hnd e He Hman Hin. rewrite Hset in Hin.
    apply elem_of_autoFixable in Hin as (e' & He' & Hid & Hauto).
    assert (e' = e) as -> by eauto using NoDup_map_id_inj.
    congruence.
  - unfold App.approveAllFixes at 1. rewrite Hr'.
    unfold st' at 1 2. unfold App.approveAllFixes. rewrite Hr. done.
  - unfold st', App.approveAllFixes. rewrite Hr. done.
Qed.

Lemma approveAllFixes_exact_witness :
  "e2"%string ∈ approvedFixes Samples.showingResults
  ∧ approvedFixes (App.approveAllFixes Samples.showingResults) = {[ "e1"%string ]}
  ∧ "e2"%string ∉ approvedFixes (App.approveAllFixes Samples.showingResults).
Proof.
  pose proof (approveAllFixes_exact Samples.showingResults Samples.twoIssues eq_refl)
    as (Hmem & Hman & _ & _).
  split; [|split].
  - simpl. set_solver.
  - apply set_eq; intros i. rewrite Hmem. simpl. split.
    + intros (e & He & <- & Hauto).
      apply elem_of_cons in He as [->|He]; [set_solver|].
      apply elem_of_cons in He as [->|He]; [done|by apply elem_of_nil in He].
    + intros ->%elem_of_singleton. eexists. split; [apply list_elem_of_here|done].
  - apply (Hman ltac:(simpl; repeat constructor; set_solver)
             (Samples.issue "e2" "credentials.token"
                (VStr "<PASTE_YOUR_SECRET_API_KEY_HERE>") true)).
    + simpl. apply list_elem_of_further, list_elem_of_here.
    + done.
Defined.

(** ** The session state machine *)

(** C1, as the specification states it: leaving the results for a new
    analysis would empty the document, the result, the approved-fix set
    and the section state.  The session [showingResults] refutes it: all
    four are still there after the transition. *)
Lemma analyzeAnother_does_not_clear :
  ¬ (∀ st, stage st = results →
       let st' := App.analyzeAnotherWorkflow st in
       stage st' = input
       ∧ originalWorkflow st' = VNull
       ∧ analysisResult st' = None
       ∧ approvedFixes st' = ∅
       ∧ openSections st' = ∅
       ∧ hasApiKey st' = hasApiKey st).
Proof.
  intros H. destruct (H Samples.showingResults eq_refl) as (_ & _ & Hres & _).
  discriminate Hres.
Qed.

(** C1, amended. The transition from the results to the input stage
    changes the stage and nothing else: the document, the analysis result,
    the approved-fix set, the section state, the text, the error and the
    credential flag are what they were.  The result, the set and the
    section state are emptied, and the document replaced, when
    [handleAnalyze] next accepts a text. *)
Theorem analyzeAnother_keeps_session (st : AppState) :
  let st' := App.analyzeAnotherWorkflow st in
  stage st' = input
  ∧ originalWorkflow st' = originalWorkflow st
  ∧ analysisResult st' = analysisResult st
  ∧ approvedFixes st' = approvedFixes st
  ∧ openSections st' = openSections st
  ∧ hasApiKey st' = hasApiKey st
  ∧ jsonInput st' = jsonInput st
  ∧ apiError st' = apiError st
  ∧ ∀ h st2 h2, App.handleAnalyze_begin st' h = (st2, h2, true) →
      stage st2 = analyzing
      ∧ JSON.parse (jsonInput st) h = Some (h2, originalWorkflow st2)
      ∧ analysisResult st2 = None
      ∧ approvedFixes st2 = ∅
      ∧ openSections st2 = ∅
      ∧ hasApiKey st2 = hasApiKey st.
Proof.
  repeat split; try reflexivity.
  all: revert H; unfold App.handleAnalyze_begin; simpl.
  all: destruct (Text.trim (jsonInput st)); [intros [=]|].
  all: destruct (JSON.parse (jsonInput st) h) as [[h' v]|]; [|intros [=]].
  all: intros [= <- <-]; reflexivity.
Qed.

Lemma analyzeAnother_keeps_session_witness :
  approvedFixes (App.analyzeAnotherWorkflow Samples.showingResults) = {[ "e2"%string ]}
  ∧ analysisResult (App.analyzeAnotherWorkflow Samples.showingResults)
    = Some Samples.twoIssues
  ∧ ∃ st2, App.handleAnalyze_begin (App.analyzeAnotherWorkflow Samples.showingResults) []
           = (st2, [Obj []], true)
           ∧ analysisResult st2 = None ∧ approvedFixes st2 = ∅.
Proof.
  destruct (analyzeAnother_keeps_session Samples.showingResults)
    as (_ & _ & Hres & Happ & _ & _ & _ & _ & Hnext).
  split; [exact Happ|]. split; [exact Hres|].
  eexists. split; [vm_compute; reflexivity|].
  destruct (Hnext [] _ [Obj []] ltac:(vm_compute; reflexivity)) as (_ & _ & Hr & Ha & _).
  split; [exact Hr|exact Ha].
Defined.

(** C5. When the promise of the analyzer is rejected with a message in
    which "Requested entity was not found" occurs, the session ends with
    the credential flag false, an error message for the user, and the
    stage [input]. *)
Theorem entity_not_found_resets_key (st : AppState) (message : string) :
  (∃ pre post, message = pre +:+ "Requested entity was not found" +:+ post) →
  ∃ st', App.handleAnalyze_settle (Rejected message) st = Some st'
    ∧ hasApiKey st' = false
    ∧ apiError st' =
        Some "The selected API key is invalid or has been revoked. Please select a different key."%string
    ∧ stage st' = input.
Proof.
  intros H%includes_spec.
  eexists. split.
  - unfold App.handleAnalyze_settle. rewrite H. reflexivity.
  - done.
Qed.

Lemma entity_not_found_resets_key_witness :
  ∃ st', App.handleAnalyze_settle
           (Rejected "Error analyzing workflow with Gemini: Requested entity was not found.")
           (App.setHasApiKey true (App.setStage analyzing (Samples.typed "{}"))) = Some st'
    ∧ hasApiKey st' = false
    ∧ apiError st' =
        Some "The selected API key is invalid or has been revoked. Please select a different key."%string
    ∧ stage st' = input.
Proof.
  apply entity_not_found_resets_key.
  exists "Error analyzing workflow with Gemini: "%string, "."%string. reflexivity.
Defined.

(** C6. A submitted text that does not parse as JSON records an error
    message in [apiError] and leaves the stage where it was (so a session
    in [input] stays there) and the text as typed; it calls no analyzer
    and touches neither the store nor the rest of the session.  The
    message is "Invalid JSON format. Please check your input." unless the
    text is white space only; the text [not json] is answered with it. *)
Theorem invalid_json_stays_in_input (st : AppState) (h : heap) :
  JSONText.parse (jsonInput st) = None →
  let st' := fst (fst (App.handleAnalyze_begin st h)) in
  ∃ message,
    App.handleAnalyze_begin st h = (st', h, false)
    ∧ apiError st' = Some message
    ∧ (message = "JSON input cannot be empty."%string
       ∨ message = "Invalid JSON format. Please check your input."%string)
    ∧ (Text.trim (jsonInput st) ≠ EmptyString →
       message = "Invalid JSON format. Please check your input."%string)
    ∧ stage st' = stage st
    ∧ (stage st = input → stage st' = input)
    ∧ jsonInput st' = jsonInput st
    ∧ originalWorkflow st' = originalWorkflow st
    ∧ analysisResult st' = analysisResult st
    ∧ approvedFixes st' = approvedFixes st
    ∧ openSections st' = openSections st
    ∧ hasApiKey st' = hasApiKey st.
Proof.
  intros Hparse st'. unfold st', App.handleAnalyze_begin, JSON.parse. rewrite Hparse.
  destruct (Text.trim (jsonInput st)) eqn:Htrim; eexists; cbn [fst];
    (split; [reflexivity|]); (split; [reflexivity|]).
  - split; [by left|]. split; [done|]. done.
  - split; [by right|]. split; [done|]. done.
Qed.

Lemma invalid_json_stays_in_input_witness :
  JSONText.parse "not json" = None
  ∧ apiError (fst (fst (App.handleAnalyze_begin (Samples.typed "not json") [])))
    = Some "Invalid JSON format. Please check your input."%string
  ∧ stage (fst (fst (App.handleAnalyze_begin (Samples.typed "not json") []))) = input
  ∧ jsonInput (fst (fst (App.handleAnalyze_begin (Samples.typed "not json") [])))
    = "not json"%string
  ∧ snd (App.handleAnalyze_begin (Samples.typed "not json") []) = false.
Proof.
  assert (JSONText.parse "not json" = None) as Hparse by (vm_compute; reflexivity).
  split; [exact Hparse|].
  destruct (invalid_json_stays_in_input (Samples.typed "not json") [] Hparse)
    as (message & Hrun & Herr & _ & Hmsg & _ & Hstage & Htext & _).
  rewrite Herr, (Hmsg ltac:(vm_compute; discriminate)), (Hstage eq_refl), Htext, Hrun.
  done.
Defined.

(** C10. A submitted text that is empty or made of white space only is
    answered with the message "JSON input cannot be empty." and nothing
    else happens: the stage, the stored document, the analysis result and
    the approved-fix set are unchanged, the store is unchanged, the
    analyzer is not called, and whether the text would have parsed plays
    no part. *)
Theorem blank_input_rejected (st : AppState) (h : heap) :
  Text.isBlank (jsonInput st) = true →
  let st' := App.setApiError (Some "JSON input cannot be empty."%string) st in
  App.handleAnalyze_begin st h = (st', h, false)
  ∧ apiError st' = Some "JSON input cannot be empty."%string
  ∧ stage st' = stage st
  ∧ originalWorkflow st' = originalWorkflow st
  ∧ analysisResult st' = analysisResult st
  ∧ approvedFixes st' = approvedFixes st.
Proof.
  intros Hblank%trim_blank st'.
  unfold App.handleAnalyze_begin. rewrite Hblank. done.
Qed.

Lemma blank_input_rejected_witness :
  Text.isBlank (jsonInput Samples.blankSubmission) = true
  ∧ App.handleAnalyze_begin Samples.blankSubmission [Obj []] =
      (App.setApiError (Some "JSON input cannot be empty."%string) Samples.blankSubmission,
       [Obj []], false).
Proof.
  split; [reflexivity|].
  apply (blank_input_rejected Samples.blankSubmission [Obj []]). reflexivity.
Defined.

(** ** The analyzer's response *)



(** Induction on a JSON value, with the hypothesis for every element of an
    array and every member of an object. *)
Lemma json_induction (P : json → Prop) :
  P JNull → (∀ b, P (JBool b)) → (∀ n, P (JNum n)) → (∀ s, P (JStr s)) →
  (∀ xs, Forall P xs → P (JArr xs)) →
  (∀ ms, Forall (fun m => P (snd m)) ms → P (JObj ms)) →
  ∀ t, P t.
Proof.
  intros HN HB Hn HS HA HO. fix IH 1.
  intros [|b|n|s|xs|ms]; [exact HN|apply HB|apply Hn|apply HS| |].
  - apply HA. revert xs. fix IHxs 1. intros [|x xs]; constructor; [apply IH|apply IHxs].
  - apply HO. revert ms. fix IHms 1. intros [|m ms]; constructor; [apply IH|apply IHms].
Qed.

(** ** Properties of the store *)

Lemma lookupProp_replaceProp (props : list (string * value)) (key : string) (v : value) :
  is_Some (Store.lookupProp props key) →
  Store.lookupProp (Store.replaceProp props key v) key = Some v.
Proof.
  induction props as [|[k w] props IH]; simpl; intros [x Hx]; [done|].
  destruct (String.eqb k key) eqn:Hk; simpl; rewrite Hk; [done|].
  apply IH. eauto.
Qed.

Lemma lookupProp_insertIndexed (props : list (string * value)) (i : N) (key : string)
  (v : value) :
  Store.lookupProp props key = None →
  Store.lookupProp (Store.insertIndexed props i key v) key = Some v.
Proof.
  induction props as [|[k w] props IH]; simpl; intros Hnone.
  - by rewrite String.eqb_refl.
  - destruct (String.eqb k key) eqn:Hk; [done|].
    destruct (Store.arrayIndex k) as [j|]; [destruct (j <? i)%N|]; simpl;
      rewrite ?Hk, ?String.eqb_refl; auto.
Qed.

Lemma lookupProp_snoc (props : list (string * value)) (key : string) (v : value) :
  Store.lookupProp props key = None →
  Store.lookupProp (props ++ [(key, v)]) key = Some v.
Proof.
  induction props as [|[k w] props IH]; simpl; intros Hnone.
  - by rewrite String.eqb_refl.
  - destruct (String.eqb k key); [done|auto].
Qed.

(** A property reads back as written. *)
Lemma lookupProp_putProp (props : list (string * value)) (key : string) (v : value) :
  Store.lookupProp (Store.putProp props key v) key = Some v.
Proof.
  unfold Store.putProp.
  destruct (Store.lookupProp props key) as [w|] eqn:Hl.
  - apply lookupProp_replaceProp. rewrite Hl. eauto.
  - destruct (Store.arrayIndex key).
    + by apply lookupProp_insertIndexed.
    + by apply lookupProp_snoc.
Qed.

Lemma arrayIndex_isIndex (key : string) (i : N) :
  Store.arrayIndex key = Some i → Lodash.isIndex key = true.
Proof.
  unfold Store.arrayIndex, Lodash.isIndex.
  destruct (Store.uintString key) as [n|]; [|done].
  destruct (n <? 4294967295)%N eqn:Hn; [|done].
  intros _. apply N.ltb_lt in Hn. apply N.ltb_lt. lia.
Qed.

Lemma isIndex_not_length (key : string) :
  Lodash.isIndex key = true → String.eqb key "length" = false.
Proof.
  intros H. destruct (String.eqb key "length") eqn:E; [|done].
  apply String.eqb_eq in E. subst key. discriminate H.
Qed.

Lemma lookup_replicate_snoc {A} (n : nat) (x y : A) :
  (replicate n x ++ [y]) !! n = Some y.
Proof.
  rewrite lookup_app_r by (rewrite length_replicate; lia).
  rewrite length_replicate, Nat.sub_diag. done.
Qed.

(** ** The deep write creates the missing containers *)

Lemma digits_taken (s : string) (ds : list digit) :
  Numeral.takeDigits s = (ds, EmptyString) → Expected.digits s = true.
Proof.
  revert ds. induction s as [|c s IH]; intros ds; cbn [Numeral.takeDigits]; [done|].
  cbn [Expected.digits]. unfold Numeral.is_digit.
  destruct (Numeral.char_digit c) as [d|]; [|done].
  destruct (Numeral.takeDigits s) as [ds' r]. intros [= _ ->]. by rewrite (IH ds' eq_refl).
Qed.

Lemma uintString_numeric (key : string) (n : N) :
  Store.uintString key = Some n →
  Expected.numeric key = true ∧ Expected.index key = N.to_nat n.
Proof.
  unfold Store.uintString, Expected.index.
  destruct (Numeral.takeDigits key) as [[|d ds] [|c r]] eqn:Ht; try done.
  intros Hn. split.
  - destruct key as [|c key]; [done|]. apply (digits_taken _ _ Ht).
  - cbn [fst]. destruct d, ds; cbv beta iota in Hn;
      first [discriminate Hn|by injection Hn as <-].
Qed.

(** lodash takes for an index what the specification calls numeric, when
    it is written without a leading zero and is below 2^53 - 1. *)
Lemma isIndex_numeric (key : string) :
  Lodash.isIndex key = true → Expected.numeric key = true.
Proof.
  unfold Lodash.isIndex. destruct (Store.uintString key) as [n|] eqn:Hn; [|done].
  intros _. apply (uintString_numeric key n Hn).
Qed.

Lemma regular_isIndex (key : string) :
  Expected.regular key = true → Lodash.isIndex key = Expected.numeric key.
Proof.
  unfold Expected.regular. intros [Hn|Hi]%orb_true_iff.
  - apply negb_true_iff in Hn. rewrite Hn.
    destruct (Lodash.isIndex key) eqn:Hidx; [|done].
    apply isIndex_numeric in Hidx. congruence.
  - apply bool_decide_eq_true in Hi as [i Hi].
    rewrite (arrayIndex_isIndex key i Hi). symmetry.
    unfold Store.arrayIndex in Hi.
    destruct (Store.uintString key) as [n|] eqn:Hn; [|done].
    apply (uintString_numeric key n Hn).
Qed.

Lemma regular_index (key : string) :
  Expected.regular key = true → Expected.numeric key = true →
  Store.arrayIndex key = Some (N.of_nat (Expected.index key)).
Proof.
  unfold Expected.regular. intros [Hn|Hi]%orb_true_iff Hnum.
  - apply negb_true_iff in Hn. congruence.
  - apply bool_decide_eq_true in Hi as [i Hi]. rewrite Hi. f_equal.
    unfold Store.arrayIndex in Hi.
    destruct (Store.uintString key) as [n|] eqn:Hn; [|done].
    destruct (n <? 4294967295)%N; [|done]. injection Hi as <-.
    destruct (uintString_numeric key n Hn) as [_ ->]. by rewrite N2Nat.id.
Qed.

Lemma container_holder (key : string) :
  Expected.regular key = true →
  Lodash.container key = if Expected.numeric key then Arr [] [] else Obj [].
Proof. intros Hr. unfold Lodash.container. by rewrite (regular_isIndex key Hr). Qed.

Lemma getOwn_holder (key : string) (x : value) :
  Expected.regular key = true →
  Store.getOwn (Expected.holder key x) key = x
  ∧ Store.hasOwn (Expected.holder key x) key = true.
Proof.
  intros Hr. unfold Expected.holder.
  destruct (Expected.numeric key) eqn:Hnum.
  - cbn [Store.getOwn Store.hasOwn]. rewrite (regular_index key Hr Hnum), Nat2N.id.
    rewrite lookup_replicate_snoc. split; [done|].
    apply bool_decide_eq_true. rewrite length_app, length_replicate. simpl. lia.
  - cbn [Store.getOwn Store.hasOwn Store.lookupProp]. rewrite String.eqb_refl.
    split; [done|]. apply bool_decide_eq_true. eauto.
Qed.

(** A container just created holds no object, and inherits what its
    prototype has. *)
Lemma read_container (E : engine) (h : heap) (c : loc) (key k : string) :
  h !! c = Some (Lodash.container key) →
  Expected.regular key = true →
  bool_decide (is_Some (inheritedFunction E (Expected.numeric key) k)) = false →
  Lodash.isObject (Store.read E h (VRef c) k) = false.
Proof.
  intros Hc Hr Hown. unfold Store.read. rewrite Hc, (container_holder key Hr).
  apply bool_decide_eq_false in Hown.
  destruct (Expected.numeric key) eqn:Hnum.
  - cbn [Store.hasOwn Store.getOwn]. unfold Store.inherited. cbn [isArray].
    destruct (Store.arrayIndex k) as [i|].
    + cbn [length]. rewrite bool_decide_eq_false_2 by lia.
      destruct (inheritedFunction E true k) as [b|]; [|done]. destruct Hown. eauto.
    + destruct (String.eqb k "length"); [done|]. cbn [Store.lookupProp orb].
      rewrite bool_decide_eq_false_2 by (intros [? ?]; done).
      destruct (inheritedFunction E true k) as [b|]; [|done]. destruct Hown. eauto.
  - cbn [Store.hasOwn Store.lookupProp]. unfold Store.inherited. cbn [isArray].
    rewrite bool_decide_eq_false_2 by (intros [? ?]; done).
    destruct (inheritedFunction E false k) as [b|]; [|done]. destruct Hown. eauto.
Qed.

(** Storing into a container just created for [key]. *)
Lemma set_container (E : engine) (h : heap) (c : loc) (key : string) (x : value) :
  h !! c = Some (Lodash.container key) →
  Expected.regular key = true →
  Store.set E h (VRef c) key x = (<[c := Expected.holder key x]> h, Returned).
Proof.
  intros Hc Hr. unfold Store.set. rewrite Hc, (container_holder key Hr).
  unfold Expected.holder. destruct (Expected.numeric key) eqn:Hnum.
  - rewrite (regular_index key Hr Hnum), Nat2N.id. unfold Store.putElem.
    rewrite decide_False by (simpl; lia). simpl. by rewrite Nat.sub_0_r.
  - unfold Store.putProp. cbn [Store.lookupProp].
    destruct (Store.arrayIndex key) as [i|] eqn:Hi; [|done].
    apply arrayIndex_isIndex, isIndex_numeric in Hi. congruence.
Qed.

Lemma chain_length (base : loc) (rest : list string) (v : value) :
  length (Expected.chain base rest v) = length rest.
Proof.
  revert base; induction rest as [|k rest IH]; intros base; simpl; [done|].
  by rewrite IH.
Qed.

(** One turn of the loop of [baseSet] on an object of the store. *)
Lemma baseSetLoop_step (E : engine) (h : heap) (l : loc) (key : string)
  (rest : list string) (v : value) :
  Lodash.baseSetLoop E h (VRef l) (key :: rest) v =
  if Lodash.isUnsafeKey key then (h, Returned)
  else
    let '(h1, newValue) :=
      match rest with
      | [] => (h, v)
      | next :: _ =>
          if Lodash.isObject (Store.read E h (VRef l) key)
          then (h, Store.read E h (VRef l) key)
          else Store.new h (Lodash.container next)
      end in
    match Store.set E h1 (VRef l) key newValue with
    | (h2, Returned) => Lodash.baseSetLoop E h2 (Store.read E h2 (VRef l) key) rest v
    | (h2, o) => (h2, o)
    end.
Proof.
  cbn [Lodash.baseSetLoop]. destruct (Lodash.isUnsafeKey key); [done|].
  destruct rest as [|next rest]; [done|]. cbn [Lodash.intermediate].
  by destruct (Lodash.isObject (Store.read E h (VRef l) key)).
Qed.

Lemma baseSetLoop_nil (E : engine) (h : heap) (nested v : value) :
  Lodash.baseSetLoop E h nested [] v = (h, Returned).
Proof. reflexivity. Qed.

Lemma ownNames_cons (E : engine) (key next : string) (rest : list string) :
  Expected.ownNames E (key :: next :: rest) = true →
  Expected.inherits E key = false ∧ Expected.ownNames E (next :: rest) = true.
Proof.
  cbn [Expected.ownNames]. intros [H1 H2]%andb_true_iff.
  by apply negb_true_iff in H1.
Qed.

(** From a container just created for [key], the loop of [baseSet] creates
    one container for each further segment and stores the value in the
    last. *)
Lemma baseSetLoop_created (E : engine) (rest : list string) :
  ∀ (h : heap) (c : loc) (key : string) (v : value),
    h !! c = Some (Lodash.container key) →
    Forall (fun k => Lodash.isUnsafeKey k = false) (key :: rest) →
    Forall (fun k => Expected.regular k = true) (key :: rest) →
    Expected.ownNames E (key :: rest) = true →
    Lodash.baseSetLoop E h (VRef c) (key :: rest) v
    = (<[c := Expected.holder key (Expected.target (length h) rest v)]> h
         ++ Expected.chain (length h) rest v, Returned).
Proof.
  induction rest as [|next rest IH]; intros h c key v Hc Hsafe Hreg Hown.
  - apply Forall_cons in Hsafe as [Hkey _]. apply Forall_cons in Hreg as [Hr _].
    rewrite baseSetLoop_step, Hkey, (set_container E h c key v Hc Hr), baseSetLoop_nil.
    simpl. by rewrite app_nil_r.
  - apply Forall_cons in Hsafe as [Hkey Hsafe]. apply Forall_cons in Hreg as [Hr Hreg].
    apply ownNames_cons in Hown as [Hinh Hown].
    assert (c < length h) as Hlt by eauto using lookup_lt_Some.
    rewrite baseSetLoop_step, Hkey, (read_container E h c key key Hc Hr Hinh).
    unfold Store.new. cbv beta iota.
    assert ((h ++ [Lodash.container next]) !! c = Some (Lodash.container key)) as Hc'
      by (rewrite lookup_app_l; done).
    rewrite (set_container E (h ++ [Lodash.container next]) c key (VRef (length h)) Hc' Hr).
    cbv beta iota.
    unfold Store.read. rewrite list_lookup_insert_eq by (rewrite length_app; simpl; lia).
    destruct (getOwn_holder key (VRef (length h)) Hr) as [-> ->].
    rewrite IH;
      [|rewrite list_lookup_insert_ne by lia; apply list_lookup_middle; done|done..].
    rewrite length_insert, length_app. simpl.
    replace (length h + 1) with (S (length h)) by lia.
    f_equal.
    rewrite insert_app_l by lia.
    rewrite insert_app_r_alt by (rewrite length_insert; lia).
    rewrite length_insert, Nat.sub_diag. simpl.
    by rewrite <- app_assoc.
Qed.

Lemma chain_lookup (rest : list string) :
  ∀ (base : loc) (v : value) (i : nat) (next : string),
    rest !! i = Some next →
    Expected.chain base rest v !! i
    = Some (Expected.holder next (Expected.target (S (base + i)) (drop (S i) rest) v)).
Proof.
  induction rest as [|k rest IH]; intros base v i next Hi; [done|].
  destruct i as [|i]; simpl in *.
  - injection Hi as ->. by rewrite Nat.add_0_r, drop_0.
  - rewrite (IH (S base) v i next Hi). do 3 f_equal. lia.
Qed.

Lemma isArray_holder (key : string) (x : value) :
  isArray (Expected.holder key x) = Expected.numeric key.
Proof. unfold Expected.holder. by destruct (Expected.numeric key). Qed.

(** Reading along the created chain arrives at the value written. *)
Lemma follow_chain (rest : list string) :
  Forall (fun k => Expected.regular k = true) rest →
  ∀ (pre : heap) (v : value),
    follow (pre ++ Expected.chain (length pre) rest v)
      (Expected.target (length pre) rest v) rest = v.
Proof.
  induction rest as [|next rest IH]; intros Hreg pre v; [done|].
  apply Forall_cons in Hreg as [Hr Hreg].
  unfold follow. cbn [foldl Expected.target Expected.chain].
  unfold Store.get at 2. rewrite list_lookup_middle by done.
  rewrite (proj1 (getOwn_holder next _ Hr)).
  specialize (IH Hreg
                (pre ++ [Expected.holder next (Expected.target (S (length pre)) rest v)]) v).
  rewrite length_app in IH. simpl in IH.
  replace (length pre + 1) with (S (length pre)) in IH by lia.
  rewrite <- app_assoc in IH. exact IH.
Qed.

Lemma replaceProp_same (props : list (string * value)) (key : string) (x : value) :
  Store.lookupProp props key = Some x → Store.replaceProp props key x = props.
Proof.
  induction props as [|[k w] props IH]; simpl; [done|].
  destruct (String.eqb k key); [by intros [= ->]|]. intros H. by rewrite (IH H).
Qed.

Lemma putElem_lookup (elems : list value) (i : nat) (x : value) :
  Store.putElem elems i x !! i = Some x.
Proof.
  unfold Store.putElem. case_decide.
  - by rewrite list_lookup_insert_eq.
  - rewrite lookup_app_r by lia. apply lookup_replicate_snoc.
Qed.

(** An object reads an own property that holds an object, and storing
    the object it holds there changes nothing. *)
Lemma set_same (E : engine) (h : heap) (l : loc) (o : object) (k : string) (l2 : loc) :
  h !! l = Some o → Store.getOwn o k = VRef l2 →
  Store.hasOwn o k = true ∧ Store.set E h (VRef l) k (VRef l2) = (h, Returned).
Proof.
  intros Hl Hget. unfold Store.set. rewrite Hl.
  destruct o as [props|elems props]; cbn [Store.getOwn Store.hasOwn] in *.
  - destruct (Store.lookupProp props k) as [x|] eqn:Hk; [|done]. simpl in Hget. subst x.
    split; [apply bool_decide_eq_true; eauto|].
    unfold Store.putProp. rewrite Hk, (replaceProp_same props k _ Hk).
    by rewrite list_insert_id.
  - destruct (Store.arrayIndex k) as [i|].
    + destruct (elems !! N.to_nat i) as [x|] eqn:Hi; [|done]. simpl in Hget. subst x.
      split; [apply bool_decide_eq_true; eauto using lookup_lt_Some|].
      unfold Store.putElem. rewrite decide_True by eauto using lookup_lt_Some.
      rewrite (list_insert_id elems _ _ Hi). by rewrite list_insert_id.
    + destruct (String.eqb k "length"); [done|].
      destruct (Store.lookupProp props k) as [x|] eqn:Hk; [|done]. simpl in Hget. subst x.
      split; [apply bool_decide_eq_true; eauto|].
      unfold Store.putProp. rewrite Hk, (replaceProp_same props k _ Hk).
      by rewrite list_insert_id.
Qed.

(** Along segments that name objects held one by the other, the loop of
    [baseSet] changes nothing and arrives at the last of them. *)
Lemma baseSetLoop_walk (E : engine) (pre : list string) :
  ∀ (h : heap) (l m : loc) (tail : list string) (v : value),
    Expected.walk h (VRef l) pre = Some m →
    Forall (fun k => Lodash.isUnsafeKey k = false) pre →
    tail ≠ [] →
    Lodash.baseSetLoop E h (VRef l) (pre ++ tail) v = Lodash.baseSetLoop E h (VRef m) tail v.
Proof.
  induction pre as [|k pre IH]; intros h l m tail v Hwalk Hsafe Htail.
  - by injection Hwalk as ->.
  - apply Forall_cons in Hsafe as [Hk Hsafe]. cbn [Expected.walk] in Hwalk.
    destruct (Store.get h (VRef l) k) as [| | | | |l2|] eqn:Hget;
      try (by destruct pre; discriminate Hwalk).
    unfold Store.get in Hget. destruct (h !! l) as [o|] eqn:Hl; [|done].
    destruct (set_same E h l o k l2 Hl Hget) as [Hown Hset].
    assert (Store.read E h (VRef l) k = VRef l2) as Hread.
    { unfold Store.read. by rewrite Hl, Hown. }
    rewrite <- app_comm_cons, baseSetLoop_step, Hk.
    destruct (pre ++ tail) as [|next rest] eqn:Hrest.
    { by apply app_eq_nil in Hrest as [_ ->]. }
    rewrite Hread. cbn [Lodash.isObject]. rewrite Hset, Hread, <- Hrest.
    by apply IH.
Qed.

(** A store under a key other than the length of an array returns, and
    the key then reads as the value stored; no other object changes. *)
Lemma set_own (E : engine) (m : loc) (o : object) (key : string) (x : value) :
  (isArray o = true → key ≠ "length"%string) →
  ∃ o', (∀ h, h !! m = Some o → Store.set E h (VRef m) key x = (<[m := o']> h, Returned))
        ∧ Store.getOwn o' key = x ∧ Store.hasOwn o' key = true.
Proof.
  intros Hlen. destruct o as [props|elems props].
  - exists (Obj (Store.putProp props key x)). split.
    + intros h Hm. unfold Store.set. by rewrite Hm.
    + cbn [Store.getOwn Store.hasOwn]. rewrite lookupProp_putProp.
      split; [done|]. apply bool_decide_eq_true. eauto.
  - destruct (Store.arrayIndex key) as [i|] eqn:Hi.
    + exists (Arr (Store.putElem elems (N.to_nat i) x) props). split.
      * intros h Hm. unfold Store.set. by rewrite Hm, Hi.
      * cbn [Store.getOwn Store.hasOwn]. rewrite Hi, putElem_lookup.
        split; [done|]. apply bool_decide_eq_true.
        eapply lookup_lt_Some, putElem_lookup.
    + assert (String.eqb key "length" = false) as Hne.
      { apply String.eqb_neq. by apply Hlen. }
      exists (Arr elems (Store.putProp props key x)). split.
      * intros h Hm. unfold Store.set. by rewrite Hm, Hi, Hne.
      * cbn [Store.getOwn Store.hasOwn]. rewrite Hi, Hne, lookupProp_putProp.
        split; [done|]. apply bool_decide_eq_true. eauto.
Qed.

(** A write into an object of the store under a segment that holds no
    object there, followed by the segments [rest]. *)
Lemma baseSetLoop_missing (E : engine) (h : heap) (m : loc) (o : object) (key : string)
  (rest : list string) (v : value) :
  h !! m = Some o →
  Forall (fun k => Lodash.isUnsafeKey k = false) (key :: rest) →
  (isArray o = true → key ≠ "length"%string) →
  (rest ≠ [] → Lodash.isObject (Store.read E h (VRef m) key) = false) →
  Forall (fun k => Expected.regular k = true) rest →
  Expected.ownNames E rest = true →
  Lodash.baseSetLoop E h (VRef m) (key :: rest) v
  = (fst (Store.set E h (VRef m) key (Expected.target (length h) rest v))
       ++ Expected.chain (length h) rest v, Returned)
    ∧ Store.get (fst (Store.set E h (VRef m) key (Expected.target (length h) rest v)))
        (VRef m) key = Expected.target (length h) rest v.
Proof.
  intros Hm Hsafe Hlen Hmissing Hreg Hown.
  assert (m < length h) as Hlt by eauto using lookup_lt_Some.
  destruct (set_own E m o key (Expected.target (length h) rest v) Hlen)
    as (o' & Hset & Hget & Hhas).
  rewrite (Hset h Hm). cbn [fst]. split.
  2: { unfold Store.get. by rewrite list_lookup_insert_eq. }
  rewrite baseSetLoop_step. apply Forall_cons in Hsafe as [-> Hsafe].
  destruct rest as [|next rest].
  - cbn [Expected.target] in Hset. cbv beta iota.
    rewrite (Hset h Hm), baseSetLoop_nil. simpl. by rewrite app_nil_r.
  - cbn [Expected.target] in Hset, Hget |- *.
    rewrite Hmissing by done. unfold Store.new. cbv beta iota.
    rewrite (Hset (h ++ [Lodash.container next])) by (by rewrite lookup_app_l).
    unfold Store.read. rewrite list_lookup_insert_eq by (rewrite length_app; simpl; lia).
    rewrite Hhas, Hget.
    rewrite (baseSetLoop_created E rest);
      [|rewrite list_lookup_insert_ne by lia; apply list_lookup_middle; done|done..].
    rewrite length_insert, length_app. simpl.
    replace (length h + 1) with (S (length h)) by lia.
    f_equal.
    rewrite insert_app_l by lia.
    rewrite insert_app_r_alt by (rewrite length_insert; lia).
    rewrite length_insert, Nat.sub_diag. simpl.
    by rewrite <- app_assoc.
Qed.

(** C3, as the specification states it: whatever the path, the write
    creates a container for every segment that is missing, an array for a
    numeric segment and an object otherwise.  Two patches of the empty
    document refute it.  Under the path [toString.x] nothing is created:
    the object inherits a function under the name [toString], lodash takes
    it for the container, and the corrected document is still [{}].  Under
    the path [a.01] the segment [01], numeric as it is, gets an object and
    not an array. *)
Lemma containers_not_always_created :
  snd (App.correctedWorkflowJson Samples.engine0
         (Samples.patching Samples.docEmpty (snd (Samples.parsed Samples.docEmpty))
            "toString.x" (VStr "z") ["e1"%string])
         (fst (Samples.parsed Samples.docEmpty)))
  = Value (Some "{}"%string)
  ∧ snd (App.correctedWorkflowJson Samples.engine0
           (Samples.patching Samples.docEmpty (snd (Samples.parsed Samples.docEmpty))
              "a.01" (VStr "z") ["e1"%string])
           (fst (Samples.parsed Samples.docEmpty)))
    = Value (Some (Text.q "{
  'a': {
    '01': 'z'
  }
}"))
  ∧ ¬ (∀ (p key : string) (rest : list string) (v : value),
         Lodash.castPath [Obj []] p (VRef 0) = key :: rest →
         Forall (fun k => Lodash.isUnsafeKey k = false) (key :: rest) →
         Lodash.set Samples.engine0 [Obj []] (VRef 0) p v
         = ([Obj [(key, Expected.target 1 rest v)]] ++ Expected.chain 1 rest v, Returned)).
Proof.
  split; [vm_compute; reflexivity|]. split; [vm_compute; reflexivity|].
  intros H.
  specialize (H "toString.x"%string "toString"%string ["x"%string] (VStr "z") eq_refl
                ltac:(repeat constructor)).
  vm_compute in H. discriminate H.
Qed.

(** C3, amended. The two examples of the specification, on the whole
    computation of the corrected document: the patch [a.b := 2] turns the
    document [{"a": {"b": 1}}] into [{"a": {"b": 2}}], and the patch
    [x.y := "z"] turns the empty object into [{"x": {"y": "z"}}] (where
    objects inherit no function under the name [x]).  In general, let the
    segments [pre] of the path name objects held one by the other from the
    object written to, and let the object they end at hold no object
    under the next segment, and inherit none.  Then the write creates one
    container for each segment after that one, an array when the segment
    is numeric and an object otherwise, links them under the segments of
    the path and stores the value at the end of it, provided each of
    these segments, if numeric, is the index of an array element (no
    leading zero, below 2^32 - 1) and, if another follows it, names no
    function its container inherits.  Reading along the path gives the
    value written, and no other object of the store changes. *)
Theorem set_creates_missing_containers (E : engine) :
  snd (App.correctedWorkflowJson E
         (Samples.patching Samples.docAB1 (snd (Samples.parsed Samples.docAB1))
            "a.b" (VNum (Numeral.of_N 2)) ["e1"%string])
         (fst (Samples.parsed Samples.docAB1)))
  = Value (Some (Text.q "{
  'a': {
    'b': 2
  }
}"))
  ∧ (inheritedFunction E false "x" = None →
     snd (App.correctedWorkflowJson E
            (Samples.patching Samples.docEmpty (snd (Samples.parsed Samples.docEmpty))
               "x.y" (VStr "z") ["e1"%string])
            (fst (Samples.parsed Samples.docEmpty)))
     = Value (Some (Text.q "{
  'x': {
    'y': 'z'
  }
}")))
  ∧ ∀ (h : heap) (l m : loc) (o : object) (p : string) (pre : list string)
      (key : string) (rest : list string) (v : value),
      Lodash.castPath h p (VRef l) = pre ++ key :: rest →
      Forall (fun k => Lodash.isUnsafeKey k = false) (pre ++ key :: rest) →
      Expected.walk h (VRef l) pre = Some m →
      h !! m = Some o →
      (isArray o = true → key ≠ "length"%string) →
      (rest ≠ [] → Lodash.isObject (Store.read E h (VRef m) key) = false) →
      Forall (fun k => Expected.regular k = true) rest →
      Expected.ownNames E rest = true →
      let h' := fst (Lodash.set E h (VRef l) p v) in
      snd (Lodash.set E h (VRef l) p v) = Returned
      ∧ h' = fst (Store.set E h (VRef m) key (Expected.target (length h) rest v))
               ++ Expected.chain (length h) rest v
      ∧ (∀ i next, rest !! i = Some next →
           ∃ c, h' !! (length h + i) = Some c ∧ isArray c = Expected.numeric next)
      ∧ follow h' (VRef m) (key :: rest) = v
      ∧ (∀ l', l' < length h → l' ≠ m → h' !! l' = h !! l').
Proof.
  split; [vm_compute; reflexivity|]. split.
  { intros Hx.
    assert (Lodash.set E [Obj []; Obj []] (VRef 1) "x.y" (VStr "z")
            = ([Obj []; Obj [("x"%string, VRef 2)]; Obj [("y"%string, VStr "z")]],
               Returned)) as Hset.
    { unfold Lodash.set. cbn [Lodash.isObject].
      change (Lodash.castPath [Obj []; Obj []] "x.y" (VRef 1)) with ["x"; "y"]%string.
      rewrite (proj1 (baseSetLoop_missing E [Obj []; Obj []] 1 (Obj []) "x" ["y"%string]
                        (VStr "z") eq_refl ltac:(repeat constructor)
                        ltac:(intros Harr; discriminate Harr)
                        ltac:(intros _; unfold Store.read, Store.inherited;
                              cbn [lookup list_lookup Store.hasOwn Store.lookupProp isArray];
                              rewrite Hx; reflexivity)
                        ltac:(repeat constructor) eq_refl)).
      reflexivity. }
    unfold App.correctedWorkflowJson, Samples.patching.
    cbn [analysisResult originalWorkflow approvedFixes Samples.result errors].
    change (App.truthy (snd (Samples.parsed Samples.docEmpty))) with true. cbn [negb].
    assert (JSON.stringify (fst (Samples.parsed Samples.docEmpty))
              (snd (Samples.parsed Samples.docEmpty)) = Some (Some "{}"%string)) as ->
      by (vm_compute; reflexivity).
    assert (JSON.parse (default "undefined"%string (Some "{}"%string))
              (fst (Samples.parsed Samples.docEmpty))
            = Some ([Obj []; Obj []], VRef 1)) as -> by (vm_compute; reflexivity).
    cbn [App.applyFixes Samples.issue id jsonModification path newValue].
    rewrite bool_decide_eq_true_2 by set_solver. rewrite Hset.
    vm_compute. reflexivity. }
  intros h l m o p pre key rest v Hpath Hsafe Hwalk Hm Hlen Hmissing Hreg Hown h'.
  assert (m < length h) as Hlt by eauto using lookup_lt_Some.
  pose proof Hsafe as [Hpre Htail]%Forall_app.
  destruct (baseSetLoop_missing E h m o key rest v Hm Htail Hlen Hmissing Hreg Hown)
    as [Hloop Hget].
  assert (Lodash.set E h (VRef l) p v
          = (fst (Store.set E h (VRef m) key (Expected.target (length h) rest v))
               ++ Expected.chain (length h) rest v, Returned)) as Hset.
  { unfold Lodash.set. cbn [Lodash.isObject]. rewrite Hpath.
    by rewrite (baseSetLoop_walk E pre h l m (key :: rest) v Hwalk Hpre). }
  unfold h'. rewrite Hset. cbn [fst snd].
  destruct (set_own E m o key (Expected.target (length h) rest v) Hlen)
    as (o' & Hstore & _ & _).
  rewrite (Hstore h Hm) in Hget |- *. cbn [fst] in Hget |- *.
  split; [done|]. split; [done|]. split; [|split].
  - intros i next Hi. eexists. split.
    + rewrite lookup_app_r by (rewrite length_insert; lia).
      rewrite length_insert.
      replace (length h + i - length h) with i by lia.
      by apply chain_lookup.
    + apply isArray_holder.
  - unfold follow. cbn [foldl]. unfold Store.get at 2.
    rewrite lookup_app_l by (rewrite length_insert; lia).
    unfold Store.get in Hget. rewrite list_lookup_insert_eq in Hget |- * by done.
    rewrite Hget.
    pose proof (follow_chain rest Hreg (<[m := o']> h) v) as Hf.
    rewrite length_insert in Hf. exact Hf.
  - intros l' Hl' Hne. rewrite lookup_app_l by (rewrite length_insert; lia).
    by rewrite list_lookup_insert_ne.
Qed.

Lemma set_creates_missing_containers_witness :
  snd (App.correctedWorkflowJson Samples.engine0
         (Samples.patching Samples.docEmpty (snd (Samples.parsed Samples.docEmpty))
            "x.y" (VStr "z") ["e1"%string])
         (fst (Samples.parsed Samples.docEmpty)))
  = Value (Some (Text.q "{
  'x': {
    'y': 'z'
  }
}"))
  ∧ Lodash.set Samples.engine0
      [Obj []; Obj [("name"%string, VStr "flow"); ("settings"%string, VRef 0)]] (VRef 1)
      "settings.retry.limits[0]" (VNum (Numeral.of_N 3))
    = ([Obj [("retry"%string, VRef 2)];
        Obj [("name"%string, VStr "flow"); ("settings"%string, VRef 0)];
        Obj [("limits"%string, VRef 3)];
        Arr [VNum (Numeral.of_N 3)] []], Returned).
Proof.
  destruct (set_creates_missing_containers Samples.engine0) as (_ & Hxy & H).
  split; [exact (Hxy eq_refl)|].
  destruct (H [Obj []; Obj [("name"%string, VStr "flow"); ("settings"%string, VRef 0)]]
              1 0 (Obj []) "settings.retry.limits[0]"%string ["settings"%string]
              "retry"%string ["limits"; "0"]%string (VNum (Numeral.of_N 3))
              ltac:(vm_compute; reflexivity) ltac:(repeat constructor) eq_refl eq_refl
              ltac:(intros Harr; discriminate Harr) ltac:(intros _; reflexivity)
              ltac:(repeat constructor) eq_refl)
    as (Hret & Hheap & _).
  rewrite (surjective_pairing (Lodash.set _ _ _ _ _)), Hret, Hheap.
  vm_compute. reflexivity.
Defined.

(** ** The corrected document is computed on a copy *)

Section Frame.

Variable W : loc → Prop.
Variable h0 : heap.

Local Abbreviation within := (Graph.within W).
Local Abbreviation evolved := (Graph.evolved W).

Hypothesis W_beyond : ∀ l, length h0 ≤ l → W l.

Lemma evolved_refl : Graph.closed W h0 → evolved h0 h0.
Proof. intros Hc. split; [lia|]. split; [done|done]. Qed.

Lemma within_lookupProp (props : list (string * value)) (key : string) :
  Forall within (snd <$> props) → within (default VUndefined (Store.lookupProp props key)).
Proof.
  induction props as [|[k w] props IH]; simpl; [done|].
  intros [Hw Hp]%Forall_cons.
  destruct (String.eqb k key); [done|auto].
Qed.

Lemma within_getOwn (o : object) (key : string) :
  Forall within (Graph.values o) → within (Store.getOwn o key).
Proof.
  destruct o as [props|elems props]; simpl.
  - apply within_lookupProp.
  - intros [He Hp]%Forall_app.
    destruct (Store.arrayIndex key) as [i|].
    + destruct (elems !! N.to_nat i) as [x|] eqn:Hx; simpl; [|done].
      eapply Forall_lookup_1 in He; eauto.
    + destruct (String.eqb key "length"); [done|]. by apply within_lookupProp.
Qed.

Lemma within_get (h : heap) (target : value) (key : string) :
  Graph.closed W h → within target → within (Store.get h target key).
Proof.
  intros Hc Ht. destruct target as [| | | | |l|]; try done. simpl.
  destruct (h !! l) as [o|] eqn:Hl; [|done].
  apply within_getOwn. eauto.
Qed.

Lemma within_replaceProp (props : list (string * value)) (key : string) (v : value) :
  within v → Forall within (snd <$> props) →
  Forall within (snd <$> Store.replaceProp props key v).
Proof.
  intros Hv. induction props as [|[k w] props IH]; simpl; [done|].
  intros [Hw Hp]%Forall_cons.
  destruct (String.eqb k key); simpl; constructor; auto.
Qed.

Lemma within_insertIndexed (props : list (string * value)) (i : N) (key : string)
  (v : value) :
  within v → Forall within (snd <$> props) →
  Forall within (snd <$> Store.insertIndexed props i key v).
Proof.
  intros Hv. induction props as [|[k w] props IH]; simpl.
  - by constructor.
  - intros [Hw Hp]%Forall_cons.
    destruct (Store.arrayIndex k) as [j|]; [destruct (j <? i)%N|]; simpl;
      repeat constructor; auto.
Qed.

Lemma within_putProp (props : list (string * value)) (key : string) (v : value) :
  within v → Forall within (snd <$> props) →
  Forall within (snd <$> Store.putProp props key v).
Proof.
  intros Hv Hp. unfold Store.putProp.
  destruct (Store.lookupProp props key).
  - by apply within_replaceProp.
  - destruct (Store.arrayIndex key).
    + by apply within_insertIndexed.
    + rewrite fmap_app. apply Forall_app. split; [done|]. by repeat constructor.
Qed.

Lemma within_replicate (n : nat) : Forall within (replicate n VUndefined).
Proof. induction n; simpl; by constructor. Qed.

Lemma within_putElem (elems : list value) (i : nat) (v : value) :
  within v → Forall within elems → Forall within (Store.putElem elems i v).
Proof.
  intros Hv He. unfold Store.putElem. case_decide.
  - by apply Forall_insert.
  - repeat (apply Forall_app; split); auto using within_replicate.
Qed.

Lemma within_resize (elems : list value) (n : nat) :
  Forall within elems → Forall within (Store.resize elems n).
Proof.
  intros He. unfold Store.resize. apply Forall_app. split.
  - by apply Forall_take.
  - apply within_replicate.
Qed.

(** Replacing an object of [W] by one that refers to [W] only. *)
Lemma evolved_insert (h : heap) (l : loc) (o : object) :
  evolved h0 h → W l → Forall within (Graph.values o) → evolved h0 (<[l := o]> h).
Proof.
  intros (Hlen & Hsame & Hclosed) Hl Ho. split; [by rewrite length_insert|]. split.
  - intros l' Hl'. rewrite list_lookup_insert_ne by (intros ->; done). auto.
  - intros l' o' Hlook Hl'.
    destruct (decide (l = l')) as [<-|Hne].
    + destruct (decide (l < length h)) as [Hlt|Hge].
      * rewrite list_lookup_insert_eq in Hlook by done. by injection Hlook as <-.
      * rewrite list_insert_ge in Hlook by lia. eauto.
    + rewrite list_lookup_insert_ne in Hlook by done. eauto.
Qed.

Lemma evolved_new (h : heap) (o : object) :
  evolved h0 h → Forall within (Graph.values o) →
  evolved h0 (fst (Store.new h o)) ∧ within (snd (Store.new h o)).
Proof.
  intros (Hlen & Hsame & Hclosed) Ho. simpl. split; [split; [|split]|].
  - rewrite length_app. lia.
  - intros l Hl.
    assert (l < length h0) as Hlt.
    { destruct (decide (l < length h0)); [done|]. exfalso. apply Hl, W_beyond. lia. }
    rewrite lookup_app_l by lia. auto.
  - intros l o' Hlook Hl.
    destruct (decide (l < length h)) as [Hlt|Hge].
    + rewrite lookup_app_l in Hlook by done. eauto.
    + rewrite lookup_app_r in Hlook by lia.
      destruct (l - length h) as [|n] eqn:E; simpl in Hlook; [|done].
      by injection Hlook as <-.
  - apply W_beyond. lia.
Qed.

Lemma evolved_set (E : engine) (h : heap) (target : value) (key : string) (v : value) :
  evolved h0 h → within target → within v →
  evolved h0 (fst (Store.set E h target key v)).
Proof.
  intros Hev Ht Hv. pose proof Hev as (Hlen & Hsame & Hclosed).
  destruct target as [| | | | |l|]; simpl; try done.
  destruct (h !! l) as [[props|elems props]|] eqn:Hl; simpl; [| |done].
  - apply evolved_insert; [done|done|].
    apply within_putProp; [done|]. apply (Hclosed l _ Hl Ht).
  - pose proof (Hclosed l _ Hl Ht) as [He Hp]%Forall_app.
    destruct (Store.arrayIndex key) as [i|]; simpl.
    + apply evolved_insert; [done|done|]. simpl.
      apply Forall_app. split; [by apply within_putElem|done].
    + destruct (String.eqb key "length").
      * destruct (arrayLength E h v); simpl; [|done].
        apply evolved_insert; [done|done|]. simpl.
        apply Forall_app. split; [by apply within_resize|done].
      * simpl. apply evolved_insert; [done|done|]. simpl.
        apply Forall_app. split; [done|by apply within_putProp].
Qed.

Lemma within_container (next : string) : Forall within (Graph.values (Lodash.container next)).
Proof. unfold Lodash.container. destruct (Lodash.isIndex next); simpl; constructor. Qed.

Lemma within_read (E : engine) (h : heap) (target : value) (key : string) :
  Graph.closed W h → within target → within (Store.read E h target key).
Proof.
  intros Hc Ht. destruct target as [| | | | |l|]; try done. unfold Store.read.
  destruct (h !! l) as [o|] eqn:Hl; [|done].
  destruct (Store.hasOwn o key); [apply within_getOwn; eauto|].
  unfold Store.inherited. by destruct (inheritedFunction E (isArray o) key).
Qed.

Lemma evolved_intermediate (E : engine) (h h1 : heap) (nested newValue : value)
  (key next : string) :
  evolved h0 h → within nested →
  Lodash.intermediate E h nested key next = Some (h1, newValue) →
  evolved h0 h1 ∧ within newValue.
Proof.
  intros Hev Hn. unfold Lodash.intermediate.
  destruct nested as [| | | | |l|]; try done.
  destruct (Lodash.isObject (Store.read E h (VRef l) key)); intros [= <- <-].
  - split; [done|]. apply (within_read E h (VRef l) key); [apply Hev|done].
  - apply evolved_new; [done|apply within_container].
Qed.

Lemma evolved_baseSetLoop (E : engine) (keys : list string) :
  ∀ (h : heap) (nested v : value),
    evolved h0 h → within nested → within v →
    evolved h0 (fst (Lodash.baseSetLoop E h nested keys v)).
Proof.
  induction keys as [|key rest IH]; intros h nested v Hev Hn Hv; [done|].
  assert (evolved h0
            (fst (if Lodash.isUnsafeKey key then (h, Returned)
                  else
                    match match rest with
                          | [] => Some (h, v)
                          | next :: _ => Lodash.intermediate E h nested key next
                          end with
                    | None => (h, Outside)
                    | Some (h1, newValue) =>
                        match Store.set E h1 nested key newValue with
                        | (h2, Returned) =>
                            Lodash.baseSetLoop E h2 (Store.read E h2 nested key) rest v
                        | (h2, o) => (h2, o)
                        end
                    end))) as Hbody.
  { destruct (Lodash.isUnsafeKey key); [done|].
    destruct (match rest with
              | [] => Some (h, v)
              | next :: _ => Lodash.intermediate E h nested key next
              end) as [[h1 newValue]|] eqn:Hstep; [|done].
    assert (evolved h0 h1 ∧ within newValue) as [Hev1 Hv1].
    { destruct rest as [|next rest']; [by injection Hstep as <- <-|].
      by apply (evolved_intermediate E h h1 nested newValue key next). }
    pose proof (evolved_set E h1 nested key newValue Hev1 Hn Hv1) as Hev2.
    destruct (Store.set E h1 nested key newValue) as [h2 [| |]]; [|done|done].
    apply IH; [done| |done]. apply within_read; [apply Hev2|done]. }
  destruct nested; try done; exact Hbody.
Qed.

Lemma evolved_lodash_set (E : engine) (h : heap) (object : value) (p : string) (v : value) :
  evolved h0 h → within object → within v →
  evolved h0 (fst (Lodash.set E h object p v)).
Proof.
  intros Hev Ho Hv. unfold Lodash.set.
  destruct (Lodash.isObject object); [|done].
  by apply evolved_baseSetLoop.
Qed.

Lemma evolved_buildList (build : json → heap → heap * value) (xs : list json) :
  Forall (fun x => ∀ h, evolved h0 h →
            evolved h0 (fst (build x h)) ∧ within (snd (build x h))) xs →
  ∀ h, evolved h0 h →
    evolved h0 (fst (Store.buildList build xs h))
    ∧ Forall within (snd (Store.buildList build xs h)).
Proof.
  induction 1 as [|x xs Hx _ IH]; intros h Hev; simpl; [done|].
  destruct (Hx h Hev) as [Hev1 Hv1].
  destruct (build x h) as [h1 v]. simpl in Hev1, Hv1.
  destruct (IH h1 Hev1) as [Hev2 Hvs].
  destruct (Store.buildList build xs h1) as [h2 vs]. simpl in *.
  split; [done|by constructor].
Qed.

Lemma evolved_buildProps (build : json → heap → heap * value) (ms : list (string * json)) :
  Forall (fun m => ∀ h, evolved h0 h →
            evolved h0 (fst (build (snd m) h)) ∧ within (snd (build (snd m) h))) ms →
  ∀ h acc, evolved h0 h → Forall within (snd <$> acc) →
    evolved h0 (fst (Store.buildProps build ms h acc))
    ∧ Forall within (snd <$> snd (Store.buildProps build ms h acc)).
Proof.
  induction 1 as [|m ms Hm _ IH]; intros h acc Hev Hacc; simpl; [done|].
  destruct (Hm h Hev) as [Hev1 Hv1].
  destruct (build (snd m) h) as [h1 v]. simpl in Hev1, Hv1.
  apply IH; [done|]. by apply within_putProp.
Qed.

(** What [JSON.parse] builds is new and refers to nothing old. *)
Lemma evolved_build (t : json) :
  ∀ h, evolved h0 h →
    evolved h0 (fst (Store.build t h)) ∧ within (snd (Store.build t h)).
Proof.
  induction t as [|b|n|s|xs IH|ms IH] using json_induction; intros h Hev; try done.
  - cbn [Store.build].
    destruct (evolved_buildList Store.build xs IH h Hev) as [Hev1 Hvs].
    destruct (Store.buildList Store.build xs h) as [h1 vs]. simpl in Hev1, Hvs.
    apply evolved_new; [done|]. simpl. by rewrite app_nil_r.
  - cbn [Store.build].
    destruct (evolved_buildProps Store.build ms IH h [] Hev ltac:(constructor))
      as [Hev1 Hps].
    destruct (Store.buildProps Store.build ms h []) as [h1 props]. simpl in Hev1, Hps.
    by apply evolved_new.
Qed.

Lemma evolved_applyFixes (E : engine) (approved : gset string) (es : list WorkflowError) :
  ∀ (h : heap) (correctedWorkflow : value),
    evolved h0 h → within correctedWorkflow →
    Forall (fun e => within (newValue (jsonModification e))) es →
    evolved h0 (fst (App.applyFixes E approved h correctedWorkflow es)).
Proof.
  induction es as [|e es IH]; intros h c Hev Hc Hes; [done|].
  apply Forall_cons in Hes as [He Hes]. simpl.
  case_bool_decide; [|by apply IH].
  pose proof (evolved_lodash_set E h c (path (jsonModification e))
                (newValue (jsonModification e)) Hev Hc He) as Hev1.
  destruct (Lodash.set E h c _ _) as [h1 [| |]]; [|done|done].
  by apply IH.
Qed.

(** The computation of the corrected document writes inside [W] only. *)
Lemma evolved_correctedWorkflowJson (E : engine) (st : AppState) :
  Graph.closed W h0 →
  (∀ r, analysisResult st = Some r →
        Forall (fun e => within (newValue (jsonModification e))) (errors r)) →
  evolved h0 (fst (App.correctedWorkflowJson E st h0)).
Proof.
  intros Hclosed Hvalues. pose proof (evolved_refl Hclosed) as Hev.
  unfold App.correctedWorkflowJson.
  destruct (analysisResult st) as [r|]; [|done].
  destruct (negb (App.truthy (originalWorkflow st))); [done|].
  destruct (JSON.stringify h0 (originalWorkflow st)) as [text|]; [|done].
  unfold JSON.parse.
  destruct (JSONText.parse (default "undefined"%string text)) as [t|]; [|done].
  destruct (evolved_build t h0 Hev) as [Hev1 Hc].
  destruct (Store.build t h0) as [h1 c]. simpl in Hev1, Hc.
  pose proof (evolved_applyFixes E (approvedFixes st) (errors r) h1 c Hev1 Hc
                (Hvalues r eq_refl)) as Hev2.
  destruct (App.applyFixes E (approvedFixes st) h1 c (errors r)) as [h2 [| |]];
    [|done|done].
  by destruct (JSON.stringify2 h2 c).
Qed.

End Frame.

(** What is read from a value depends on the objects it reaches only. *)
Lemma serialize_agree (fuel : nat) :
  ∀ (h h' : heap) (v : value),
    (∀ l, Graph.reach h v l → h' !! l = h !! l) →
    Store.serialize fuel h' v = Store.serialize fuel h v.
Proof.
  induction fuel as [|fuel IH]; intros h h' v Hsame; destruct v as [| | | | |l|]; try done.
  cbn [Store.serialize]. rewrite (Hsame l) by constructor.
  destruct (h !! l) as [[props|elems props]|] eqn:Hl; [| |done].
  - assert (Store.serializeProps (Store.serialize fuel h') props
            = Store.serializeProps (Store.serialize fuel h) props) as ->; [|done].
    assert (∀ p, p ∈ props → ∀ l', Graph.reach h (snd p) l' → h' !! l' = h !! l') as Hin.
    { intros p Hp l' Hr. apply Hsame. eapply Graph.reach_step; [exact Hl| |exact Hr].
      simpl. apply list_elem_of_fmap. eauto. }
    clear Hl. induction props as [|p props IHp]; simpl; [done|].
    rewrite (IH h h' (snd p)) by (apply Hin; constructor).
    rewrite IHp; [done|]. intros q Hq. apply Hin. by constructor.
  - assert (Store.serializeElems (Store.serialize fuel h') elems
            = Store.serializeElems (Store.serialize fuel h) elems) as ->; [|done].
    assert (∀ x, x ∈ elems → ∀ l', Graph.reach h x l' → h' !! l' = h !! l') as Hin.
    { intros x Hx l' Hr. apply Hsame. eapply Graph.reach_step; [exact Hl| |exact Hr].
      simpl. apply elem_of_app. by left. }
    clear Hl. induction elems as [|x elems IHe]; simpl; [done|].
    rewrite (IH h h' x) by (apply Hin; constructor).
    rewrite IHe; [done|]. intros y Hy. apply Hin. by constructor.
Qed.

(** Everything reachable from a value of a closed set is in the set. *)
Lemma reach_closed (W : loc → Prop) (h : heap) (v : value) (l : loc) :
  Graph.closed W h → Graph.within W v → Graph.reach h v l → W l.
Proof.
  intros Hclosed Hv Hreach. induction Hreach as [l|l o x l' Hl Hx _ IH]; [done|].
  apply IH. pose proof (Hclosed l o Hl Hv) as Ho.
  rewrite Forall_forall in Ho. auto.
Qed.

(** C4. Let the store be split in two: a set [W] of locations, closed
    under the references its objects hold, that contains the object graphs
    of the patch values and every location not yet in use; and the rest,
    in which the original document lies.  Then, whatever the issues and
    whatever the approved-fix set, computing the corrected document leaves
    every object outside [W] as it was, thus every object the original
    refers to, directly or not; and what can be read of the original, to
    any depth, is what could be read before. *)
Theorem original_not_mutated (E : engine) (st : AppState) (h : heap) (W : loc → Prop) :
  Graph.closed W h →
  (∀ l, length h ≤ l → W l) →
  (∀ r, analysisResult st = Some r →
        Forall (fun e => Graph.within W (newValue (jsonModification e))) (errors r)) →
  (∀ l, Graph.reach h (originalWorkflow st) l → ¬ W l) →
  let h' := fst (App.correctedWorkflowJson E st h) in
  (∀ l, ¬ W l → h' !! l = h !! l)
  ∧ (∀ l, Graph.reach h (originalWorkflow st) l → h' !! l = h !! l)
  ∧ (∀ fuel, Store.serialize fuel h' (originalWorkflow st)
             = Store.serialize fuel h (originalWorkflow st)).
Proof.
  intros Hclosed Hbeyond Hvalues Horig h'.
  destruct (evolved_correctedWorkflowJson W h Hbeyond E st Hclosed Hvalues)
    as (_ & Hsame & _).
  split; [exact Hsame|].
  assert (∀ l, Graph.reach h (originalWorkflow st) l → h' !! l = h !! l) as Hreach
    by (intros l Hl; apply Hsame, Horig, Hl).
  split; [exact Hreach|].
  intros fuel. by apply serialize_agree.
Qed.

(** The references held by a given object are all in a set of locations
    described by an arithmetic condition. *)
Ltac object_within :=
  simpl; repeat (apply Forall_cons; split; [simpl; first [lia|exact I]|]); by apply Forall_nil.

Lemma original_not_mutated_witness :
  fst (App.correctedWorkflowJson Samples.engine0 Samples.patchingAB Samples.twoGraphs)
  ≠ Samples.twoGraphs
  ∧ JSON.stringify
      (fst (App.correctedWorkflowJson Samples.engine0 Samples.patchingAB Samples.twoGraphs))
      (originalWorkflow Samples.patchingAB)
    = Some (Some Samples.docAB1').
Proof.
  split; [vm_compute; discriminate|].
  assert (Graph.closed (fun l => 2 ≤ l) Samples.twoGraphs) as Hclosed.
  { intros l o Hl HW.
    destruct l as [|[|[|[|l]]]]; try lia; vm_compute in Hl; [| |done].
    - injection Hl as <-. object_within.
    - injection Hl as <-. object_within. }
  assert (Graph.closed (fun l => l < 2) Samples.twoGraphs) as Hdoc.
  { intros l o Hl HW.
    destruct l as [|[|l]]; try lia; vm_compute in Hl.
    - injection Hl as <-. object_within.
    - injection Hl as <-. object_within. }
  destruct (original_not_mutated Samples.engine0 Samples.patchingAB Samples.twoGraphs
              (fun l => 2 ≤ l) Hclosed
              ltac:(intros l Hl; vm_compute in Hl; cbv beta; lia)
              ltac:(intros r [= <-]; repeat constructor)
              ltac:(intros l Hl%(reach_closed (fun l => l < 2)); [cbv beta in *; lia|done|simpl; lia]))
    as (_ & _ & Hread).
  unfold JSON.stringify.
  rewrite Hread. vm_compute. reflexivity.
Defined.

(** ** Reading back a number *)

Lemma append_cons (c : ascii) (a b : string) : String c a +:+ b = String c (a +:+ b).
Proof. reflexivity. Qed.

Lemma append_assoc (a b c : string) : (a +:+ b) +:+ c = a +:+ (b +:+ c).
Proof. induction a as [|x a IH]; [done|]. by rewrite !append_cons, IH. Qed.

Lemma append_nil_r (a : string) : a +:+ EmptyString = a.
Proof. induction a as [|x a IH]; [done|]. by rewrite append_cons, IH. Qed.

Lemma append_length (a b : string) :
  String.length (a +:+ b) = String.length a + String.length b.
Proof. induction a as [|x a IH]; [done|]. rewrite append_cons. cbn. by rewrite IH. Qed.

Lemma char_digit_char (d : digit) : Numeral.char_digit (Numeral.digit_char d) = Some d.
Proof. by destruct d. Qed.

Lemma digits_string_app (a b : list digit) :
  Numeral.digits_string (a ++ b) = Numeral.digits_string a +:+ Numeral.digits_string b.
Proof.
  induction a as [|d a IH]; [done|].
  cbn [app Numeral.digits_string]. by rewrite append_cons, IH.
Qed.

(** A run of digits followed by something that is not a digit is taken
    whole. *)
Lemma takeDigits_digits (ds : list digit) (rest : string) :
  Numeral.takeDigits rest = ([], rest) →
  Numeral.takeDigits (Numeral.digits_string ds +:+ rest) = (ds, rest).
Proof.
  intros Hrest. induction ds as [|d ds IH]; [done|].
  cbn [Numeral.digits_string]. rewrite append_cons.
  cbn [Numeral.takeDigits]. by rewrite char_digit_char, IH.
Qed.

Lemma ends_no_digit (rest : string) :
  Numeral.ends rest = true → Numeral.takeDigits rest = ([], rest).
Proof.
  destruct rest as [|c rest]; [done|]. cbn. unfold Numeral.is_digit.
  by destruct (Numeral.char_digit c).
Qed.

Lemma uint_of_digits_of_uint (u : Decimal.uint) :
  Numeral.uint_of_digits (Numeral.digits_of_uint u) = u.
Proof. induction u; cbn; congruence. Qed.

Lemma N_of_digits_of_N (n : N) : Numeral.N_of_digits (Numeral.digits_of_N n) = n.
Proof.
  unfold Numeral.N_of_digits, Numeral.digits_of_N.
  rewrite uint_of_digits_of_uint. apply DecimalN.Unsigned.of_to.
Qed.

Lemma digits_of_N_cons (n : N) : ∃ d ds, Numeral.digits_of_N n = d :: ds.
Proof.
  unfold Numeral.digits_of_N.
  assert (N.to_uint n ≠ Decimal.Nil) as Hnil.
  { destruct n as [|p]; [done|]. apply DecimalPos.Unsigned.to_uint_nonnil. }
  destruct (N.to_uint n); [done|..]; cbn; eauto.
Qed.

Lemma strip0_zeros (z : nat) (ds : list digit) :
  Numeral.strip0 (replicate z d0 ++ ds) = Numeral.strip0 ds.
Proof. induction z as [|z IH]; [done|]. exact IH. Qed.

Lemma strip0_head (d : digit) (ds : list digit) :
  Numeral.is_d0 d = false → Numeral.strip0 (d :: ds) = d :: ds.
Proof. by destruct d. Qed.

Lemma strip0_end_zeros (ds : list digit) (e : digit) (m : nat) :
  last ds = Some e → Numeral.is_d0 e = false →
  Numeral.strip0_end (ds ++ replicate m d0) = ds.
Proof.
  intros Hlast He. unfold Numeral.strip0_end.
  rewrite reverse_app, reverse_replicate, strip0_zeros.
  apply last_Some in Hlast as [pre ->].
  rewrite reverse_snoc, strip0_head by done.
  by rewrite <- reverse_snoc, reverse_involutive.
Qed.

(** The value of a literal whose digits are those of a number in normal
    form between [z] leading and [m] trailing zeros. *)
Lemma mkNumber_normal (neg : bool) (int frac : list digit) (e : Z) (z m : nat)
  (d : digit) (ds : list digit) (pt : Z) :
  Numeral.normal (Num neg (d :: ds) pt) = true →
  int ++ frac = replicate z d0 ++ (d :: ds) ++ replicate m d0 →
  Numeral.mkNumber neg int frac e
  = Num neg (d :: ds) (Z.of_nat (length int) + e - Z.of_nat z).
Proof.
  unfold Numeral.normal. cbn [num_digits].
  intros [Hd Hlast]%andb_true_iff Hall.
  apply negb_true_iff in Hd.
  destruct (last (d :: ds)) as [x|] eqn:Hx; [|by apply last_None in Hx].
  apply negb_true_iff in Hlast.
  unfold Numeral.mkNumber. rewrite Hall, strip0_zeros.
  change ((d :: ds) ++ replicate m d0) with (d :: (ds ++ replicate m d0)).
  rewrite strip0_head by done.
  change (d :: (ds ++ replicate m d0)) with ((d :: ds) ++ replicate m d0).
  rewrite (strip0_end_zeros (d :: ds) x m Hx Hlast).
  f_equal. rewrite !length_app, length_replicate. lia.
Qed.

Lemma intPart_digits (d : digit) (ds : list digit) (rest : string) :
  Numeral.is_d0 d = false →
  Numeral.takeDigits rest = ([], rest) →
  Numeral.intPart (Numeral.digits_string (d :: ds) +:+ rest) = Some (d :: ds, rest).
Proof.
  intros Hd Hrest. unfold Numeral.intPart.
  rewrite (takeDigits_digits (d :: ds) rest Hrest).
  by destruct d.
Qed.

Lemma fracPart_none (rest : string) :
  Numeral.ends rest = true → Numeral.fracPart rest = Some ([], rest).
Proof.
  destruct rest as [|c rest]; [done|]. unfold Numeral.ends, Numeral.fracPart.
  destruct (Ascii.eqb_spec c ".") as [->|Hne]; [by rewrite orb_true_r|].
  intros _. destruct c as [[] [] [] [] [] [] [] []]; try done.
Qed.

Lemma fracPart_digits (d : digit) (ds : list digit) (rest : string) :
  Numeral.takeDigits rest = ([], rest) →
  Numeral.fracPart ("." +:+ Numeral.digits_string (d :: ds) +:+ rest)
  = Some (d :: ds, rest).
Proof.
  intros Hrest. change ("." +:+ ?x) with (String "." x).
  unfold Numeral.fracPart. by rewrite (takeDigits_digits (d :: ds) rest Hrest).
Qed.

Lemma expPart_none (rest : string) :
  Numeral.ends rest = true → Numeral.expPart rest = Some (0%Z, rest).
Proof.
  destruct rest as [|c rest]; [done|]. unfold Numeral.ends, Numeral.expPart.
  intros H%negb_true_iff. apply orb_false_iff in H as [H HE].
  apply orb_false_iff in H as [H He]. by rewrite He, HE.
Qed.

Lemma expPart_digits (e : Z) (rest : string) :
  e ≠ 0%Z → Numeral.ends rest = true →
  Numeral.expPart ("e" +:+ (if (0 <? e)%Z then "+" else "-") +:+
                   Numeral.digits_string (Numeral.digits_of_N (Z.abs_N e)) +:+ rest)
  = Some (e, rest).
Proof.
  intros He Hrest%ends_no_digit.
  destruct (digits_of_N_cons (Z.abs_N e)) as (d & ds & Hds).
  pose proof (N_of_digits_of_N (Z.abs_N e)) as Hval. rewrite Hds in *.
  pose proof (takeDigits_digits (d :: ds) rest Hrest) as Htake.
  destruct (0 <? e)%Z eqn:Hpos.
  - change ("e" +:+ "+" +:+ ?x) with (String "e" (String "+" x)).
    unfold Numeral.expPart. cbn [Ascii.eqb Bool.eqb orb]. cbn beta iota.
    rewrite Htake, Hval. f_equal. f_equal. apply Z.ltb_lt in Hpos. lia.
  - change ("e" +:+ "-" +:+ ?x) with (String "e" (String "-" x)).
    unfold Numeral.expPart. cbn [Ascii.eqb Bool.eqb orb]. cbn beta iota.
    rewrite Htake, Hval. f_equal. f_equal. apply Z.ltb_ge in Hpos. lia.
Qed.

Lemma normal_head (neg : bool) (d : digit) (ds : list digit) (pt : Z) :
  Numeral.normal (Num neg (d :: ds) pt) = true → Numeral.is_d0 d = false.
Proof.
  unfold Numeral.normal. cbn [num_digits].
  intros [Hd _]%andb_true_iff. by apply negb_true_iff.
Qed.

Lemma no_digit_dot (t : string) : Numeral.takeDigits (String "." t) = ([], String "." t).
Proof. reflexivity. Qed.

Lemma no_digit_e (t : string) : Numeral.takeDigits (String "e" t) = ([], String "e" t).
Proof. reflexivity. Qed.

(** The digits [Number::toString] writes are read back as the number. *)
Lemma parseUnsigned_digitsToString (neg : bool) (d : digit) (ds : list digit) (pt : Z)
  (rest : string) :
  Numeral.normal (Num neg (d :: ds) pt) = true →
  Numeral.ends rest = true →
  Numeral.parseUnsigned neg (Numeral.digitsToString (d :: ds) pt +:+ rest)
  = Some (Num neg (d :: ds) pt, rest).
Proof.
  intros Hnormal Hends.
  pose proof (normal_head neg d ds pt Hnormal) as Hd.
  pose proof (ends_no_digit rest Hends) as Hrest.
  unfold Numeral.digitsToString.
  set (k := Z.of_nat (length (d :: ds))).
  destruct ((k <=? pt)%Z && (pt <=? 21)%Z) eqn:HA;
    [|destruct ((0 <? pt)%Z && (pt <=? 21)%Z) eqn:HB;
      [|destruct ((-6 <? pt)%Z && (pt <=? 0)%Z) eqn:HC]].
  - (* digits followed by zeros *)
    apply andb_true_iff in HA as [Hk _]. apply Z.leb_le in Hk.
    unfold Numeral.zeros. rewrite <- digits_string_app.
    change ((d :: ds) ++ ?z) with (d :: (ds ++ z)).
    unfold Numeral.parseUnsigned.
    rewrite intPart_digits, fracPart_none, expPart_none by done.
    rewrite (mkNumber_normal neg _ [] 0 0 (Z.to_nat (pt - k)) d ds pt Hnormal)
      by (by rewrite app_nil_r).
    do 3 f_equal. cbn [length]. rewrite length_app, length_replicate.
    unfold k in *. cbn [length] in *. lia.
  - (* digits with a point inside *)
    apply andb_true_iff in HB as [Hpos Hle]. apply Z.ltb_lt in Hpos.
    assert (pt < k)%Z as Hlt.
    { apply andb_false_iff in HA as [H|H]; [apply Z.leb_gt in H; lia|].
      rewrite Hle in H. done. }
    destruct (Z.to_nat pt) as [|n] eqn:Hn; [lia|].
    assert (S n < length (d :: ds)) as Hlen by (unfold k in *; lia).
    cbn [take]. destruct (drop (S n) (d :: ds)) as [|f fs] eqn:Hdrop.
    { apply (f_equal length) in Hdrop. rewrite length_drop in Hdrop. cbn in *. lia. }
    rewrite !append_assoc.
    unfold Numeral.parseUnsigned.
    rewrite intPart_digits by (done || apply no_digit_dot).
    rewrite fracPart_digits, expPart_none by done.
    rewrite (mkNumber_normal neg _ _ 0 0 0 d ds pt Hnormal).
    + do 3 f_equal. cbn [length]. rewrite length_take. cbn [length] in Hlen. lia.
    + rewrite <- Hdrop. change (d :: take n ds) with (take (S n) (d :: ds)).
      by rewrite take_drop, app_nil_r.
  - (* zero, a point, zeros and the digits *)
    apply andb_true_iff in HC as [_ Hle]. apply Z.leb_le in Hle.
    unfold Numeral.zeros. rewrite <- digits_string_app, !append_assoc.
    change ("0." +:+ ?x) with (String "0" ("." +:+ x)).
    unfold Numeral.parseUnsigned. cbn [Numeral.intPart].
    destruct (replicate (Z.to_nat (- pt)) d0 ++ d :: ds) as [|f fs] eqn:Hfrac.
    { by destruct (Z.to_nat (- pt)). }
    rewrite fracPart_digits, expPart_none by done.
    rewrite (mkNumber_normal neg _ _ 0 (S (Z.to_nat (- pt))) 0 d ds pt Hnormal).
    + do 3 f_equal. cbn [length]. lia.
    + rewrite <- Hfrac. by rewrite app_nil_r.
  - (* exponent notation *)
    assert (pt - 1 ≠ 0)%Z as He.
    { intros He. apply andb_false_iff in HB as [H|H]; [apply Z.ltb_ge in H|apply Z.leb_gt in H];
        lia. }
    change (take 1 (d :: ds)) with [d]. change (drop 1 (d :: ds)) with ds.
    rewrite !append_assoc.
    unfold Numeral.parseUnsigned.
    destruct ds as [|f fs].
    + change (EmptyString +:+ ?x) with x.
      rewrite intPart_digits by (done || apply no_digit_e).
      change ("e" +:+ ?x) with (String "e" x) at 1.
      cbn [Numeral.fracPart].
      change (String "e" ?x) with ("e" +:+ x).
      rewrite expPart_digits by done.
      rewrite (mkNumber_normal neg _ _ _ 0 0 d [] pt Hnormal) by done.
      do 3 f_equal. cbn [length]. lia.
    + rewrite !append_assoc.
      rewrite intPart_digits by (done || apply no_digit_dot).
      rewrite fracPart_digits by apply no_digit_e.
      rewrite expPart_digits by done.
      rewrite (mkNumber_normal neg _ _ _ 0 0 d (f :: fs) pt Hnormal) by (by rewrite app_nil_r).
      do 3 f_equal. cbn [length]. lia.
Qed.

Lemma digit_char_not_minus (d : digit) : Ascii.eqb (Numeral.digit_char d) "-" = false.
Proof. by destruct d. Qed.

(** The text of a number starts with a minus sign or a digit. *)
Lemma digitsToString_head (d : digit) (ds : list digit) (pt : Z) :
  ∃ x t, Numeral.digitsToString (d :: ds) pt = String (Numeral.digit_char x) t.
Proof.
  unfold Numeral.digitsToString.
  destruct ((Z.of_nat (length (d :: ds)) <=? pt)%Z && (pt <=? 21)%Z).
  { exists d. eexists. cbn [Numeral.digits_string]. by rewrite append_cons. }
  destruct ((0 <? pt)%Z && (pt <=? 21)%Z) eqn:HB.
  { apply andb_true_iff in HB as [Hpos _]. apply Z.ltb_lt in Hpos.
    destruct (Z.to_nat pt) as [|n] eqn:Hn; [lia|].
    exists d. eexists. cbn [take Numeral.digits_string]. by rewrite append_cons. }
  destruct ((-6 <? pt)%Z && (pt <=? 0)%Z).
  { exists d0. by eexists. }
  exists d. eexists. change (take 1 (d :: ds)) with [d].
  cbn [Numeral.digits_string]. by rewrite append_cons.
Qed.

(** A number in normal form is read back from its text. *)
Lemma parseNumber_toString (n : number) (rest : string) :
  Numeral.normal n = true → Numeral.ends rest = true →
  Numeral.parseNumber (Numeral.toString n +:+ rest) = Some (n, rest).
Proof.
  destruct n as [neg [|d ds] pt]; intros Hnormal Hends.
  - unfold Numeral.normal in Hnormal. cbn [num_digits num_neg num_point] in Hnormal.
    apply andb_true_iff in Hnormal as [->%negb_true_iff ->%Z.eqb_eq].
    change (Numeral.toString (Num false [] 0) +:+ rest) with (String "0" rest).
    unfold Numeral.parseNumber, Numeral.parseUnsigned. cbn [Ascii.eqb Bool.eqb].
    cbn [Numeral.intPart]. by rewrite fracPart_none, expPart_none.
  - unfold Numeral.toString. cbn [num_digits num_neg num_point].
    destruct neg.
    + rewrite append_assoc. change ("-" +:+ ?x) with (String "-" x).
      unfold Numeral.parseNumber. cbn [Ascii.eqb Bool.eqb].
      by apply parseUnsigned_digitsToString.
    + pose proof (parseUnsigned_digitsToString false d ds pt rest Hnormal Hends) as Hp.
      destruct (digitsToString_head d ds pt) as (x & t & Hhead).
      rewrite Hhead in *. rewrite append_cons in *.
      unfold Numeral.parseNumber. by rewrite digit_char_not_minus.
Qed.

(** ** Reading back a string *)

Lemma parseChars_escape (c : ascii) (tail : string) :
  JSONText.parseChars (JSONText.escape c +:+ tail)
  = match JSONText.parseChars tail with
    | Some (r, rest) => Some (String c r, rest)
    | None => None
    end.
Proof. destruct c as [[] [] [] [] [] [] [] []]; reflexivity. Qed.

Lemma parseChars_escapeAll (s rest : string) :
  JSONText.parseChars (JSONText.escapeAll s +:+ String Text.dq rest) = Some (s, rest).
Proof.
  induction s as [|c s IH]; [done|].
  cbn [JSONText.escapeAll]. by rewrite append_assoc, parseChars_escape, IH.
Qed.

Lemma parseChars_quote (s rest : string) :
  ∃ t, JSONText.quote s +:+ rest = String Text.dq t
       ∧ JSONText.parseChars t = Some (s, rest).
Proof.
  exists (JSONText.escapeAll s +:+ String Text.dq rest). split.
  - unfold JSONText.quote. by rewrite append_cons, append_assoc.
  - apply parseChars_escapeAll.
Qed.

(** ** Reading back a JSON text *)

Lemma startsValue_facts (c : ascii) (s : string) :
  JSONText.startsValue c = true →
  JSONText.skip_ws (String c s) = String c s
  ∧ Text.startsWith "]" (String c s) = false
  ∧ Text.startsWith "}" (String c s) = false.
Proof. destruct c as [[] [] [] [] [] [] [] []]; try discriminate; done. Qed.

Lemma parseValue_number (f : nat) (c : ascii) (t : string) :
  Ascii.eqb c "-" || Numeral.is_digit c = true →
  JSONText.parseValue (S f) (String c t)
  = match Numeral.parseNumber (String c t) with
    | Some (n, r) => Some (JNum n, r)
    | None => None
    end.
Proof. destruct c as [[] [] [] [] [] [] [] []]; try discriminate; reflexivity. Qed.

Lemma is_digit_digit_char (d : digit) : Numeral.is_digit (Numeral.digit_char d) = true.
Proof. by destruct d. Qed.

Lemma toString_head (n : number) :
  ∃ c t, Numeral.toString n = String c t
         ∧ Ascii.eqb c "-" || Numeral.is_digit c = true.
Proof.
  destruct n as [neg [|d ds] pt]; unfold Numeral.toString; cbn [num_digits num_neg num_point].
  - by exists "0", EmptyString.
  - destruct neg; [by eexists _, _|].
    destruct (digitsToString_head d ds pt) as (x & t & ->).
    exists (Numeral.digit_char x), t. by rewrite is_digit_digit_char, orb_true_r.
Qed.

Lemma render_head (t : json) :
  ∃ c s, JSONText.render t = String c s ∧ JSONText.startsValue c = true.
Proof.
  destruct t as [|[]|n|s|xs|ms]; try (by eexists _, _).
  destruct (toString_head n) as (c & t & Ht & Hc).
  exists c, t. split; [done|]. unfold JSONText.startsValue.
  apply orb_true_iff in Hc as [->| ->]; by rewrite ?orb_true_r.
Qed.

Lemma parseValue_array (f : nat) (t : string) :
  JSONText.parseValue (S f) (String "[" t)
  = if Text.startsWith "]" (JSONText.skip_ws t)
    then Some (JArr [], Text.dropChars 1 (JSONText.skip_ws t))
    else match JSONText.parseElements f t with
         | Some (xs, r) => Some (JArr xs, r)
         | None => None
         end.
Proof. reflexivity. Qed.

Lemma parseValue_object (f : nat) (t : string) :
  JSONText.parseValue (S f) (String "{" t)
  = if Text.startsWith "}" (JSONText.skip_ws t)
    then Some (JObj [], Text.dropChars 1 (JSONText.skip_ws t))
    else match JSONText.parseMembers f t with
         | Some (ms, r) => Some (JObj ms, r)
         | None => None
         end.
Proof. reflexivity. Qed.

Lemma parseValue_string (f : nat) (t : string) :
  JSONText.parseValue (S f) (String Text.dq t)
  = match JSONText.parseChars t with
    | Some (str, r) => Some (JStr str, r)
    | None => None
    end.
Proof. reflexivity. Qed.

Lemma parseElements_step (f : nat) (s : string) :
  JSONText.parseElements (S f) s
  = match JSONText.parseValue f s with
    | Some (v, r) =>
        match JSONText.skip_ws r with
        | String "," r' =>
            match JSONText.parseElements f r' with
            | Some (vs, r'') => Some (v :: vs, r'')
            | None => None
            end
        | String "]" r' => Some ([v], r')
        | _ => None
        end
    | None => None
    end.
Proof. reflexivity. Qed.

Lemma parseMembers_step (f : nat) (t : string) :
  JSONText.parseMembers (S f) (String Text.dq t)
  = match JSONText.parseChars t with
    | Some (k, r) =>
        match JSONText.skip_ws r with
        | String ":" r1 =>
            match JSONText.parseValue f r1 with
            | Some (v, r2) =>
                match JSONText.skip_ws r2 with
                | String "," r3 =>
                    match JSONText.parseMembers f r3 with
                    | Some (ms, r4) => Some ((k, v) :: ms, r4)
                    | None => None
                    end
                | String "}" r3 => Some ([(k, v)], r3)
                | _ => None
                end
            | None => None
            end
        | _ => None
        end
    | None => None
    end.
Proof. reflexivity. Qed.

Lemma parseElements_join (xs : list json) :
  Forall reads_back xs → xs ≠ [] → forallb Store.canonical xs = true →
  ∀ f rest, fold_right (fun x n => S (JSONText.size x + n)) 0 xs ≤ f →
    JSONText.parseElements f
      (JSONText.join "," (map JSONText.render xs) +:+ "]" +:+ rest)
    = Some (xs, rest).
Proof.
  induction 1 as [|x xs Hx _ IH]; [done|]. intros _ Hcan f rest Hf.
  cbn [forallb] in Hcan. apply andb_true_iff in Hcan as [Hcx Hcxs].
  cbn [fold_right] in Hf. destruct f as [|f]; [lia|].
  rewrite parseElements_step.
  destruct xs as [|y xs].
  - cbn [map JSONText.join]. change ("]" +:+ ?r) with (String "]" r).
    rewrite (Hx Hcx f (String "]" rest)) by (done || lia). reflexivity.
  - change (JSONText.join "," (map JSONText.render (x :: y :: xs)))
      with (JSONText.render x +:+ "," +:+
            JSONText.join "," (map JSONText.render (y :: xs))).
    rewrite !append_assoc. change ("," +:+ ?r) with (String "," r).
    rewrite (Hx Hcx f _) by (done || lia).
    cbn [JSONText.skip_ws JSONText.is_ws].
    rewrite (IH ltac:(done) Hcxs f rest) by lia. reflexivity.
Qed.

Lemma parseMembers_join (ms : list (string * json)) :
  Forall (fun m => reads_back (snd m)) ms → ms ≠ [] →
  forallb (fun m => Store.canonical (snd m)) ms = true →
  ∀ f rest, fold_right (fun m n => S (JSONText.size (snd m) + n)) 0 ms ≤ f →
    JSONText.parseMembers f
      (JSONText.join ","
         (map (fun m => JSONText.quote (fst m) +:+ ":" +:+ JSONText.render (snd m)) ms)
       +:+ "}" +:+ rest)
    = Some (ms, rest).
Proof.
  induction 1 as [|[k v] ms Hm _ IH]; [done|]. intros _ Hcan f rest Hf.
  cbn [forallb snd] in Hcan. apply andb_true_iff in Hcan as [Hcv Hcms].
  cbn [fold_right snd] in Hf. cbn [snd] in Hm. destruct f as [|f]; [lia|].
  destruct ms as [|m ms].
  - cbn [map JSONText.join fst snd]. rewrite !append_assoc.
    destruct (parseChars_quote k (":" +:+ JSONText.render v +:+ "}" +:+ rest))
      as (t & -> & Hk).
    rewrite parseMembers_step, Hk.
    change (":" +:+ ?r) with (String ":" r). cbn [JSONText.skip_ws JSONText.is_ws].
    change ("}" +:+ ?r) with (String "}" r).
    rewrite (Hm Hcv f (String "}" rest)) by (done || lia). reflexivity.
  - change (JSONText.join ","
              (map (fun m => JSONText.quote (fst m) +:+ ":" +:+ JSONText.render (snd m))
                 ((k, v) :: m :: ms)))
      with ((JSONText.quote k +:+ ":" +:+ JSONText.render v) +:+ "," +:+
            JSONText.join ","
              (map (fun m => JSONText.quote (fst m) +:+ ":" +:+ JSONText.render (snd m))
                 (m :: ms))).
    rewrite !append_assoc.
    match goal with
    | |- JSONText.parseMembers _ (JSONText.quote k +:+ ?tail) = _ =>
        destruct (parseChars_quote k tail) as (t & -> & Hk)
    end.
    rewrite parseMembers_step, Hk.
    change (":" +:+ ?r) with (String ":" r). cbn [JSONText.skip_ws JSONText.is_ws].
    change ("," +:+ ?r) with (String "," r).
    rewrite (Hm Hcv f _) by (done || lia).
    cbn [JSONText.skip_ws JSONText.is_ws].
    rewrite (IH ltac:(done) Hcms f rest) by lia. reflexivity.
Qed.

(** Every value in canonical form is read back from its text. *)
Lemma parseValue_render (t : json) : reads_back t.
Proof.
  induction t as [|b|n|s|xs IH|ms IH] using json_induction;
    intros Hcan fuel rest Hfuel Hends; cbn [JSONText.size] in Hfuel;
    (destruct fuel as [|f]; [lia|]).
  - reflexivity.
  - by destruct b.
  - cbn [JSONText.render].
    pose proof (parseNumber_toString n rest Hcan Hends) as Hp.
    destruct (toString_head n) as (c & t & Ht & Hc). rewrite Ht in *.
    rewrite append_cons in *. by rewrite parseValue_number, Hp.
  - cbn [JSONText.render].
    destruct (parseChars_quote s rest) as (t & -> & Ht).
    by rewrite parseValue_string, Ht.
  - cbn [JSONText.render]. rewrite !append_assoc, append_cons, parseValue_array.
    change (EmptyString +:+ ?x) with x.
    destruct xs as [|x xs]; [reflexivity|].
    cbn [Store.canonical] in Hcan.
    pose proof (parseElements_join (x :: xs) IH ltac:(done) Hcan f rest ltac:(lia)) as Hp.
    destruct (render_head x) as (c & s & Hs & Hc).
    assert (∃ s', JSONText.join "," (map JSONText.render (x :: xs)) +:+ "]" +:+ rest
                  = String c s') as [s' Hs'].
    { destruct xs; cbn [map JSONText.join]; rewrite Hs, ?append_cons; eauto. }
    rewrite Hs' in *.
    destruct (startsValue_facts c s' Hc) as (-> & -> & _).
    by rewrite Hp.
  - cbn [JSONText.render]. rewrite !append_assoc, append_cons, parseValue_object.
    change (EmptyString +:+ ?x) with x.
    destruct ms as [|m ms]; [reflexivity|].
    cbn [Store.canonical] in Hcan. apply andb_true_iff in Hcan as [_ Hcan].
    pose proof (parseMembers_join (m :: ms) IH ltac:(done) Hcan f rest ltac:(lia)) as Hp.
    assert (∃ s', JSONText.join ","
                    (map (fun m => JSONText.quote (fst m) +:+ ":" +:+ JSONText.render (snd m))
                       (m :: ms)) +:+ "}" +:+ rest
                  = String Text.dq s') as [s' Hs'].
    { destruct ms; cbn [map JSONText.join]; unfold JSONText.quote;
        rewrite ?append_cons; eauto. }
    rewrite Hs' in *.
    destruct (startsValue_facts Text.dq s' eq_refl) as (-> & _ & ->).
    by rewrite Hp.
Qed.

Lemma size_le_length (t : json) : JSONText.size t ≤ String.length (JSONText.render t).
Proof.
  induction t as [|b|n|s|xs IH|ms IH] using json_induction; cbn [JSONText.size JSONText.render].
  - cbn. lia.
  - destruct b; cbn; lia.
  - destruct (toString_head n) as (c & t & -> & _). cbn. lia.
  - unfold JSONText.quote. cbn. lia.
  - rewrite !append_length. cbn [String.length].
    enough (fold_right (fun x n => S (JSONText.size x + n)) 0 xs
            ≤ S (String.length (JSONText.join "," (map JSONText.render xs)))) by lia.
    induction IH as [|x xs Hx _ IHxs]; [cbn; lia|].
    cbn [fold_right]. destruct xs as [|y xs].
    + cbn [fold_right map JSONText.join]. lia.
    + change (JSONText.join "," (map JSONText.render (x :: y :: xs)))
        with (JSONText.render x +:+ "," +:+
              JSONText.join "," (map JSONText.render (y :: xs))).
      rewrite !append_length. cbn [String.length]. lia.
  - rewrite !append_length. cbn [String.length].
    enough (fold_right (fun m n => S (JSONText.size (snd m) + n)) 0 ms
            ≤ S (String.length
                   (JSONText.join ","
                      (map (fun m => JSONText.quote (fst m) +:+ ":" +:+
                                     JSONText.render (snd m)) ms)))) by lia.
    induction IH as [|m ms Hm _ IHms]; [cbn; lia|].
    cbn [fold_right]. destruct ms as [|m' ms].
    + cbn [fold_right map JSONText.join]. rewrite !append_length. lia.
    + change (JSONText.join ","
                (map (fun m => JSONText.quote (fst m) +:+ ":" +:+ JSONText.render (snd m))
                   (m :: m' :: ms)))
        with ((JSONText.quote (fst m) +:+ ":" +:+ JSONText.render (snd m)) +:+ "," +:+
              JSONText.join ","
                (map (fun m => JSONText.quote (fst m) +:+ ":" +:+ JSONText.render (snd m))
                   (m' :: ms))).
      rewrite !append_length. cbn [String.length]. lia.
Qed.

(** [JSON.parse(JSON.stringify(v))] gives back the value serialised. *)
Theorem parse_render (t : json) :
  Store.canonical t = true → JSONText.parse (JSONText.render t) = Some t.
Proof.
  intros Hcan. unfold JSONText.parse.
  pose proof (parseValue_render t Hcan (JSONText.fuel_for (JSONText.render t)) EmptyString)
    as Hp.
  rewrite append_nil_r in Hp. rewrite Hp; [done| |done].
  unfold JSONText.fuel_for. pose proof (size_le_length t). lia.
Qed.

(** ** Reading back what [JSON.parse] built *)

Lemma reads_grow (h ext : heap) (v : value) (t : json) :
  reads h v t → reads (h ++ ext) v t.
Proof. intros H ext' fuel Hf. rewrite <- app_assoc. by apply H. Qed.

Lemma lookupProp_ordered (acc : list (string * value)) (k : string) (rest : list string) :
  Store.orderedKeys (map fst acc ++ k :: rest) = true → Store.lookupProp acc k = None.
Proof.
  induction acc as [|[k0 w] acc IH]; [done|].
  cbn [map fst app Store.orderedKeys Store.lookupProp].
  intros [[Hne _]%andb_true_iff Hrest]%andb_true_iff.
  apply negb_true_iff in Hne. rewrite existsb_app in Hne.
  apply orb_false_iff in Hne as [_ Hne]. cbn [existsb] in Hne.
  apply orb_false_iff in Hne as [-> _]. auto.
Qed.

Lemma insertIndexed_ordered (acc : list (string * value)) (k : string) (i : N)
  (rest : list string) (v : value) :
  Store.orderedKeys (map fst acc ++ k :: rest) = true →
  Store.arrayIndex k = Some i →
  Store.insertIndexed acc i k v = acc ++ [(k, v)].
Proof.
  intros Hord Hk. induction acc as [|[k0 w] acc IH]; [done|].
  cbn [map fst app Store.orderedKeys] in Hord.
  apply andb_true_iff in Hord as [[_ Hlater]%andb_true_iff Hrest].
  cbn [Store.insertIndexed app].
  destruct (Store.arrayIndex k0) as [j|].
  - rewrite forallb_app in Hlater. apply andb_true_iff in Hlater as [_ Hlater].
    cbn [forallb] in Hlater. rewrite Hk in Hlater.
    apply andb_true_iff in Hlater as [-> _]. by rewrite IH.
  - rewrite forallb_app in Hlater. apply andb_true_iff in Hlater as [_ Hlater].
    cbn [forallb] in Hlater. by rewrite Hk in Hlater.
Qed.

(** In enumeration order, a property is defined after those before it. *)
Lemma putProp_ordered (acc : list (string * value)) (k : string) (rest : list string)
  (v : value) :
  Store.orderedKeys (map fst acc ++ k :: rest) = true →
  Store.putProp acc k v = acc ++ [(k, v)].
Proof.
  intros Hord. unfold Store.putProp.
  rewrite (lookupProp_ordered acc k rest Hord).
  destruct (Store.arrayIndex k) as [i|] eqn:Hk; [|done].
  by apply (insertIndexed_ordered acc k i rest).
Qed.

Lemma buildProps_ordered (build : json → heap → heap * value) (ms : list (string * json)) :
  ∀ h acc,
    Store.orderedKeys (map fst acc ++ map fst ms) = true →
    Store.buildProps build ms h acc
    = (fst (Store.buildList build (map snd ms) h),
       acc ++ zip (map fst ms) (snd (Store.buildList build (map snd ms) h))).
Proof.
  induction ms as [|[k x] ms IH]; intros h acc Hord.
  - cbn. by rewrite app_nil_r.
  - cbn [map fst snd Store.buildProps Store.buildList] in *.
    destruct (build x h) as [h1 v].
    rewrite (putProp_ordered acc k (map fst ms) v Hord).
    rewrite IH by (by rewrite map_app, <- app_assoc).
    destruct (Store.buildList build (map snd ms) h1) as [h2 vs].
    cbn [fst snd zip zip_with]. by rewrite <- app_assoc.
Qed.

Lemma buildList_reads (xs : list json) :
  Forall (fun x => Store.canonical x = true → rebuilds x) xs →
  forallb Store.canonical xs = true →
  ∀ h, (∃ ext, fst (Store.buildList Store.build xs h) = h ++ ext)
       ∧ Forall2 (reads (fst (Store.buildList Store.build xs h)))
           (snd (Store.buildList Store.build xs h)) xs.
Proof.
  induction 1 as [|x xs Hx _ IH]; intros Hcan h.
  - split; [by exists []; rewrite app_nil_r|constructor].
  - cbn [forallb] in Hcan. apply andb_true_iff in Hcan as [Hcx Hcxs].
    cbn [Store.buildList].
    destruct (Hx Hcx h) as [[e1 He1] Hr1].
    destruct (Store.build x h) as [h1 v]. cbn [fst snd] in *.
    destruct (IH Hcxs h1) as [[e2 He2] Hr2].
    destruct (Store.buildList Store.build xs h1) as [h2 vs]. cbn [fst snd] in *.
    subst h1 h2. split; [by exists (e1 ++ e2); rewrite app_assoc|].
    constructor; [by apply reads_grow|done].
Qed.

Lemma serializeElems_reads (h : heap) (vs : list value) (xs : list json) (fuel : nat)
  (ext : heap) :
  Forall2 (reads h) vs xs →
  Forall (fun x => JSONText.depth x ≤ fuel) xs →
  Store.serializeElems (Store.serialize fuel (h ++ ext)) vs = Some xs.
Proof.
  induction 1 as [|v x vs xs Hv _ IH]; [done|].
  intros [Hx Hxs]%Forall_cons. cbn [Store.serializeElems].
  by rewrite (Hv ext fuel Hx), (IH Hxs).
Qed.

Lemma serializeProps_reads (h : heap) (vs : list value) (ms : list (string * json))
  (fuel : nat) (ext : heap) :
  Forall2 (reads h) vs (map snd ms) →
  Forall (fun m => JSONText.depth (snd m) ≤ fuel) ms →
  Store.serializeProps (Store.serialize fuel (h ++ ext)) (zip (map fst ms) vs) = Some ms.
Proof.
  revert vs. induction ms as [|[k x] ms IH]; intros vs Hvs Hd.
  - by destruct vs.
  - cbn [map snd fst] in *. apply Forall2_cons_inv_r in Hvs as (v & vs' & Hv & Hvs' & ->).
    apply Forall_cons in Hd as [Hx Hms]. cbn [zip zip_with Store.serializeProps fst snd].
    cbn [snd] in Hx.
    by rewrite (Hv ext fuel Hx), (IH vs' Hvs' Hms).
Qed.

Lemma depth_elements (xs : list json) (fuel : nat) :
  fold_right (fun x n => max (JSONText.depth x) n) 0 xs ≤ fuel →
  Forall (fun x => JSONText.depth x ≤ fuel) xs.
Proof.
  induction xs as [|x xs IH]; cbn [fold_right]; intros H; constructor; [lia|].
  apply IH. lia.
Qed.

Lemma depth_members (ms : list (string * json)) (fuel : nat) :
  fold_right (fun m n => max (JSONText.depth (snd m)) n) 0 ms ≤ fuel →
  Forall (fun m => JSONText.depth (snd m) ≤ fuel) ms.
Proof.
  induction ms as [|m ms IH]; cbn [fold_right]; intros H; constructor; [lia|].
  apply IH. lia.
Qed.

(** What [JSON.parse] builds for a value in canonical form serialises to
    that value. *)
Lemma build_reads (t : json) : Store.canonical t = true → rebuilds t.
Proof.
  induction t as [|b|n|s|xs IH|ms IH] using json_induction; intros Hcan h.
  1-4: split; [by exists []; rewrite app_nil_r|]; intros ext [|fuel] _; reflexivity.
  - cbn [Store.canonical] in Hcan. cbn [Store.build].
    destruct (buildList_reads xs IH Hcan h) as [[e He] Hr].
    destruct (Store.buildList Store.build xs h) as [h1 vs]. cbn [fst snd] in *.
    unfold Store.new. cbn [fst snd]. split.
    + exists (e ++ [Arr vs []]). by rewrite He, app_assoc.
    + intros ext [|fuel] Hd; cbn [JSONText.depth] in Hd; [lia|].
      cbn [Store.serialize]. rewrite <- app_assoc. cbn [app].
      rewrite list_lookup_middle by done.
      rewrite (serializeElems_reads h1 vs xs fuel (Arr vs [] :: ext) Hr); [done|].
      apply depth_elements. lia.
  - cbn [Store.canonical] in Hcan. apply andb_true_iff in Hcan as [Hord Hcan].
    cbn [Store.build].
    rewrite (buildProps_ordered Store.build ms h [] Hord).
    assert (Forall (fun x => Store.canonical x = true → rebuilds x) (map snd ms)) as IH'.
    { apply Forall_fmap. exact IH. }
    assert (forallb Store.canonical (map snd ms) = true) as Hcan'.
    { clear -Hcan. induction ms as [|m ms IHm]; [done|].
      cbn [forallb map] in *. apply andb_true_iff in Hcan as [-> Hcan]. auto. }
    destruct (buildList_reads (map snd ms) IH' Hcan' h) as [[e He] Hr].
    destruct (Store.buildList Store.build (map snd ms) h) as [h1 vs]. cbn [fst snd app] in *.
    unfold Store.new. cbn [fst snd]. split.
    + exists (e ++ [Obj (zip (map fst ms) vs)]). by rewrite He, app_assoc.
    + intros ext [|fuel] Hd; cbn [JSONText.depth] in Hd; [lia|].
      cbn [Store.serialize]. rewrite <- app_assoc. cbn [app].
      rewrite list_lookup_middle by done.
      rewrite (serializeProps_reads h1 vs ms fuel (Obj (zip (map fst ms) vs) :: ext) Hr);
        [done|].
      apply depth_members. lia.
Qed.

(** ** No approved fix, no change *)

Lemma applyFixes_none (E : engine) (h : heap) (c : value) (es : list WorkflowError) :
  App.applyFixes E ∅ h c es = (h, Returned).
Proof.
  induction es as [|e es IH]; [done|]. cbn [App.applyFixes].
  by rewrite bool_decide_eq_false_2 by apply not_elem_of_empty.
Qed.

(** What is serialised with some fuel is not nested deeper than the fuel. *)
Lemma serialize_depth (fuel : nat) :
  ∀ (h : heap) (v : value) (t : json),
    Store.serialize fuel h v = Some (Some t) → JSONText.depth t ≤ fuel.
Proof.
  induction fuel as [|fuel IH]; intros h v t Hs;
    destruct v as [| | | | |l|]; cbn [Store.serialize] in Hs;
    try (injection Hs as <-; cbn; lia); try done.
  destruct (h !! l) as [[props|elems props]|]; [| |done].
  - destruct (Store.serializeProps (Store.serialize fuel h) props) as [ms|] eqn:Hms; [|done].
    injection Hs as <-. cbn [JSONText.depth]. apply le_n_S.
    revert ms Hms. induction props as [|p props IHp]; intros ms Hms; cbn in Hms.
    + injection Hms as <-. cbn. lia.
    + destruct (Store.serialize fuel h (snd p)) as [[t|]|] eqn:Ht; [| |done].
      * destruct (Store.serializeProps (Store.serialize fuel h) props) as [ms'|]; [|done].
        injection Hms as <-. cbn [fold_right snd].
        specialize (IH h (snd p) t Ht). specialize (IHp ms' eq_refl). lia.
      * destruct (Store.serializeProps (Store.serialize fuel h) props) as [ms'|]; [|done].
        injection Hms as <-. by apply IHp.
  - destruct (Store.serializeElems (Store.serialize fuel h) elems) as [ts|] eqn:Hts; [|done].
    injection Hs as <-. cbn [JSONText.depth]. apply le_n_S.
    revert ts Hts. induction elems as [|x elems IHe]; intros ts Hts; cbn in Hts.
    + injection Hts as <-. cbn. lia.
    + destruct (Store.serialize fuel h x) as [[t|]|] eqn:Ht; [| |done].
      * destruct (Store.serializeElems (Store.serialize fuel h) elems) as [ts'|]; [|done].
        injection Hts as <-. cbn [fold_right default from_option Datatypes.id].
        specialize (IH h x t Ht). specialize (IHe ts' eq_refl). lia.
      * destruct (Store.serializeElems (Store.serialize fuel h) elems) as [ts'|]; [|done].
        injection Hts as <-. cbn [fold_right default from_option JSONText.depth].
        specialize (IHe ts' eq_refl). lia.
Qed.




(** ** What [JSON.parse] builds is self-contained *)

Lemma buildList_extends (build : json → heap → heap * value) (xs : list json) :
  Forall (fun x => ∀ h, ∃ ext, fst (build x h) = h ++ ext) xs →
  ∀ h, ∃ ext, fst (Store.buildList build xs h) = h ++ ext.
Proof.
  induction 1 as [|x xs Hx _ IH]; intros h; cbn [Store.buildList].
  - exists []. by rewrite app_nil_r.
  - destruct (Hx h) as [e1 He1]. destruct (build x h) as [h1 v]. cbn [fst] in He1.
    destruct (IH h1) as [e2 He2].
    destruct (Store.buildList build xs h1) as [h2 vs]. cbn [fst] in *.
    exists (e1 ++ e2). by rewrite He2, He1, app_assoc.
Qed.

Lemma buildProps_extends (build : json → heap → heap * value) (ms : list (string * json)) :
  Forall (fun m => ∀ h, ∃ ext, fst (build (snd m) h) = h ++ ext) ms →
  ∀ h acc, ∃ ext, fst (Store.buildProps build ms h acc) = h ++ ext.
Proof.
  induction 1 as [|m ms Hm _ IH]; intros h acc; cbn [Store.buildProps].
  - exists []. by rewrite app_nil_r.
  - destruct (Hm h) as [e1 He1]. destruct (build (snd m) h) as [h1 v]. cbn [fst] in He1.
    destruct (IH h1 (Store.putProp acc (fst m) v)) as [e2 He2].
    exists (e1 ++ e2). by rewrite He2, He1, app_assoc.
Qed.

(** [JSON.parse] only adds objects to the store. *)
Lemma build_extends (t : json) : ∀ h, ∃ ext, fst (Store.build t h) = h ++ ext.
Proof.
  induction t as [|b|n|s|xs IH|ms IH] using json_induction; intros h;
    try (exists []; by rewrite app_nil_r); cbn [Store.build].
  - destruct (buildList_extends Store.build xs IH h) as [e He].
    destruct (Store.buildList Store.build xs h) as [h1 vs]. cbn [fst] in *.
    exists (e ++ [Arr vs []]). unfold Store.new. cbn [fst]. by rewrite He, app_assoc.
  - destruct (buildProps_extends Store.build ms IH h []) as [e He].
    destruct (Store.buildProps Store.build ms h []) as [h1 props]. cbn [fst] in *.
    exists (e ++ [Obj props]). unfold Store.new. cbn [fst]. by rewrite He, app_assoc.
Qed.

Section Built.

(** A set of locations that holds every location the building uses. *)
Variable P : loc → Prop.

Local Abbreviation inP := (Graph.within P).

Lemma built_new (h : heap) (o : object) :
  P (length h) → Graph.closed P h → Forall inP (Graph.values o) →
  Graph.closed P (fst (Store.new h o)) ∧ inP (snd (Store.new h o)).
Proof.
  intros Hlen Hclosed Ho. unfold Store.new. cbn [fst snd]. split; [|done].
  intros l o' Hl HP.
  destruct (decide (l < length h)) as [Hlt|Hge].
  - rewrite lookup_app_l in Hl by done. by apply (Hclosed l o' Hl).
  - rewrite lookup_app_r in Hl by lia.
    destruct (l - length h) as [|n]; [|done]. by injection Hl as <-.
Qed.

Lemma built_buildList (build : json → heap → heap * value) (xs : list json) :
  Forall (fun x => ∀ h, ∃ ext, fst (build x h) = h ++ ext) xs →
  Forall (fun x => ∀ h, (∀ l, length h ≤ l < length (fst (build x h)) → P l) →
            Graph.closed P h →
            Graph.closed P (fst (build x h)) ∧ inP (snd (build x h))) xs →
  ∀ h, (∀ l, length h ≤ l < length (fst (Store.buildList build xs h)) → P l) →
    Graph.closed P h →
    Graph.closed P (fst (Store.buildList build xs h))
    ∧ Forall inP (snd (Store.buildList build xs h)).
Proof.
  intros Hext. induction 1 as [|x xs Hx Hxs IH]; intros h Hnew Hc; [done|].
  apply Forall_cons in Hext as [Hex Hexs].
  cbn [Store.buildList] in *.
  pose proof (buildList_extends build xs Hexs (fst (build x h))) as [e2 He2].
  specialize (Hx h). destruct (Hex h) as [e1 He1].
  destruct (build x h) as [h1 v]. cbn [fst snd] in *.
  specialize (IH Hexs h1).
  destruct (Store.buildList build xs h1) as [h2 vs]. cbn [fst snd] in *.
  subst h2 h1. rewrite !length_app in *.
  destruct Hx as [Hc1 Hv]; [intros; apply Hnew; lia|done|].
  destruct IH as [Hc2 Hvs]; [intros; apply Hnew; lia|done|].
  split; [done|by constructor].
Qed.

Lemma built_buildProps (build : json → heap → heap * value) (ms : list (string * json)) :
  Forall (fun m => ∀ h, ∃ ext, fst (build (snd m) h) = h ++ ext) ms →
  Forall (fun m => ∀ h, (∀ l, length h ≤ l < length (fst (build (snd m) h)) → P l) →
            Graph.closed P h →
            Graph.closed P (fst (build (snd m) h)) ∧ inP (snd (build (snd m) h))) ms →
  ∀ h acc, (∀ l, length h ≤ l < length (fst (Store.buildProps build ms h acc)) → P l) →
    Graph.closed P h → Forall inP (snd <$> acc) →
    Graph.closed P (fst (Store.buildProps build ms h acc))
    ∧ Forall inP (snd <$> snd (Store.buildProps build ms h acc)).
Proof.
  intros Hext. induction 1 as [|m ms Hm Hms IH]; intros h acc Hnew Hc Hacc; [done|].
  apply Forall_cons in Hext as [Hem Hems].
  cbn [Store.buildProps] in *.
  specialize (Hm h). destruct (Hem h) as [e1 He1].
  destruct (build (snd m) h) as [h1 v]. cbn [fst snd] in *.
  pose proof (buildProps_extends build ms Hems h1 (Store.putProp acc (fst m) v))
    as [e2 He2].
  subst h1. rewrite He2, !length_app in Hnew. rewrite length_app in Hm.
  destruct Hm as [Hc1 Hv]; [intros; apply Hnew; lia|done|].
  apply IH; [done| |done|].
  - rewrite He2, !length_app. intros; apply Hnew; lia.
  - by apply within_putProp.
Qed.

(** The objects [JSON.parse] builds refer only to the locations it
    uses, if these are in [P], and to what was in [P] before. *)
Lemma built_build (t : json) :
  ∀ h, (∀ l, length h ≤ l < length (fst (Store.build t h)) → P l) →
    Graph.closed P h →
    Graph.closed P (fst (Store.build t h)) ∧ inP (snd (Store.build t h)).
Proof.
  induction t as [|b|n|s|xs IH|ms IH] using json_induction; intros h Hnew Hc; try done;
    cbn [Store.build] in *.
  - assert (Forall (fun x => ∀ h, ∃ ext, fst (Store.build x h) = h ++ ext) xs) as Hext
      by (apply Forall_forall; intros; apply build_extends).
    pose proof (buildList_extends Store.build xs Hext h) as [e He].
    pose proof (built_buildList Store.build xs Hext IH h) as Hl.
    destruct (Store.buildList Store.build xs h) as [h1 vs]. cbn [fst snd] in *.
    unfold Store.new in Hnew. cbn [fst] in Hnew. subst h1.
    rewrite !length_app in *. cbn [length] in Hnew.
    destruct Hl as [Hc1 Hvs]; [intros; apply Hnew; lia|done|].
    apply built_new; [rewrite length_app; apply Hnew; lia|done|].
    cbn. by rewrite app_nil_r.
  - assert (Forall (fun m : string * json =>
                      ∀ h, ∃ ext, fst (Store.build (snd m) h) = h ++ ext) ms) as Hext
      by (apply Forall_forall; intros; apply build_extends).
    pose proof (buildProps_extends Store.build ms Hext h []) as [e He].
    pose proof (built_buildProps Store.build ms Hext IH h []) as Hl.
    destruct (Store.buildProps Store.build ms h []) as [h1 props]. cbn [fst snd] in *.
    unfold Store.new in Hnew. cbn [fst] in Hnew. subst h1.
    rewrite !length_app in *. cbn [length] in Hnew.
    destruct Hl as [Hc1 Hps]; [intros; apply Hnew; lia|done|constructor|].
    by apply built_new; [rewrite length_app; apply Hnew; lia|done|].
Qed.

End Built.

(** What [JSON.parse] builds lies in the locations it adds, and refers
    to nothing else. *)
Lemma build_fresh (t : json) (h : heap) :
  let R := fun l => length h ≤ l < length (fst (Store.build t h)) in
  Graph.closed R (fst (Store.build t h)) ∧ Graph.within R (snd (Store.build t h)).
Proof.
  intros R. apply built_build; [done|].
  intros l o Hl [Hge _]. apply lookup_lt_Some in Hl. lia.
Qed.

(** ** The analysis service builds beside what exists *)

Section ServiceFrame.

Variable W : loc → Prop.
Variable h0 : heap.
Hypothesis W_beyond : ∀ l, length h0 ≤ l → W l.

Local Abbreviation inW := (Graph.within W).
Local Abbreviation grown := (Graph.evolved W h0).

Lemma evolved_postProcess (h : heap) (received : WorkflowError * option json) :
  grown h →
  grown (fst (Service.postProcess h received))
  ∧ inW (newValue (jsonModification (snd (Service.postProcess h received)))).
Proof.
  intros Hev. destruct received as [error raw]. unfold Service.postProcess.
  assert (grown (fst (match raw with
                      | Some t => Store.build t h
                      | None => (h, VUndefined)
                      end))
          ∧ inW (snd (match raw with
                      | Some t => Store.build t h
                      | None => (h, VUndefined)
                      end))) as [Hev1 Hraw].
  { destruct raw as [t|]; [|done]. by apply evolved_build. }
  destruct (match raw with Some t => Store.build t h | None => (h, VUndefined) end)
    as [h1 rawValue]. cbn [fst snd] in Hev1, Hraw.
  unfold JSON.parse.
  destruct (JSONText.parse (JSON.toString (Store.depth_bound h1) h1 rawValue)) as [t|];
    [|done].
  pose proof (evolved_build W h0 W_beyond t h1 Hev1) as [Hev2 Hv].
  by destruct (Store.build t h1) as [h2 v].
Qed.

Lemma evolved_postProcessAll (received : list (WorkflowError * option json)) :
  ∀ h, grown h →
    grown (fst (Service.postProcessAll h received))
    ∧ Forall (fun e => inW (newValue (jsonModification e)))
        (snd (Service.postProcessAll h received)).
Proof.
  induction received as [|e rest IH]; intros h Hev; [done|].
  cbn [Service.postProcessAll].
  pose proof (evolved_postProcess h e Hev) as [Hev1 He].
  destruct (Service.postProcess h e) as [h1 e']. cbn [fst snd] in Hev1, He.
  pose proof (IH h1 Hev1) as [Hev2 Hrest].
  destruct (Service.postProcessAll h1 rest) as [h2 rest']. cbn [fst snd] in *.
  split; [done|by constructor].
Qed.

Lemma evolved_processResponse (M : messages) (text : option string) (h : heap) :
  grown h →
  grown (fst (Service.processResponse M text h))
  ∧ ∀ r, snd (Service.processResponse M text h) = inr (Resolved r) →
      Forall (fun e => inW (newValue (jsonModification e))) (errors r).
Proof.
  intros Hev. unfold Service.processResponse.
  repeat match goal with
         | |- context [match ?x with _ => _ end] =>
             lazymatch x with
             | Service.postProcessAll _ _ => fail
             | _ => destruct x
             end
         end; try done.
  match goal with
  | |- context [Service.postProcessAll h ?rs] =>
      pose proof (evolved_postProcessAll rs h Hev) as [Hev1 Hes];
      destruct (Service.postProcessAll h rs) as [h' es']
  end.
  cbn [fst snd] in *. split; [done|]. by intros r [= <-].
Qed.

(** The analysis leaves what exists as it is, and the patch values it
    returns are made of new objects. *)
Lemma evolved_analyzeWorkflow (M : messages) (API_KEY : option string) (reply : apiReply)
  (h : heap) :
  grown h →
  grown (fst (Service.analyzeWorkflow M API_KEY reply h))
  ∧ ∀ r, snd (Service.analyzeWorkflow M API_KEY reply h) = Resolved r →
      Forall (fun e => inW (newValue (jsonModification e))) (errors r).
Proof.
  intros Hev. unfold Service.analyzeWorkflow.
  destruct API_KEY as [[|c key]|]; [done| |done].
  destruct reply as [text|e]; [|done].
  pose proof (evolved_processResponse M text h Hev) as [Hev1 Hes].
  destruct (Service.processResponse M text h) as [h' [e|a]]; cbn [fst snd] in *; [done|].
  split; [done|]. intros r ->. by apply Hes.
Qed.

End ServiceFrame.

(** ** The original document through a session *)

Lemma closed_same (R : loc → Prop) (h h' : heap) :
  (∀ l, R l → h' !! l = h !! l) → Graph.closed R h → Graph.closed R h'.
Proof. intros Hsame Hc l o Hl HR. rewrite Hsame in Hl by done. by apply (Hc l o). Qed.

Lemma closed_beyond (a n : nat) (h : heap) :
  length h ≤ a → Graph.closed (fun l => a ≤ l < n) h.
Proof. intros Hlen l o Hl [Hge _]. apply lookup_lt_Some in Hl. lia. Qed.

Lemma closed_from (n : nat) (h : heap) :
  length h ≤ n → Graph.closed (fun l => n ≤ l) h.
Proof. intros Hlen l o Hl Hge. apply lookup_lt_Some in Hl. lia. Qed.

(** At the start nothing has been parsed: the layers are empty. *)
Lemma separated_initial : Session.separated App.initial [].
Proof.
  exists 0, 0. split; [done|]. split; [by apply closed_beyond|]. split; [done|].
  split; [by apply closed_from|]. intros r [=].
Qed.

(** The layers stay when the store grows beside the original document. *)
Lemma separated_evolved (st st' : AppState) (h h' : heap) :
  Session.separated st h →
  originalWorkflow st' = originalWorkflow st →
  (∀ n, n ≤ length h → Graph.closed (fun l => n ≤ l) h →
        (∀ r, analysisResult st = Some r →
              Forall (fun e => Graph.within (fun l => n ≤ l) (newValue (jsonModification e)))
                (errors r)) →
        Graph.evolved (fun l => n ≤ l) h h'
        ∧ ∀ r, analysisResult st' = Some r →
               Forall (fun e => Graph.within (fun l => n ≤ l) (newValue (jsonModification e)))
                 (errors r)) →
  Session.separated st' h'.
Proof.
  intros (a & n & Hlen & Hdoc & Horig & Hclosed & Hvalues) Hsame Hstep.
  destruct (Hstep n Hlen Hclosed Hvalues) as [(Hgrow & Hkept & Hclosed') Hvalues'].
  exists a, n. split; [lia|].
  split; [apply (closed_same _ h); [intros l Hl; apply Hkept; lia|done]|].
  split; [by rewrite Hsame|]. split; [done|done].
Qed.

Lemma separated_same (st st' : AppState) (h : heap) :
  originalWorkflow st' = originalWorkflow st →
  analysisResult st' = analysisResult st →
  Session.separated st h → Session.separated st' h.
Proof.
  intros Horig Hres Hsep. apply (separated_evolved st st' h h Hsep Horig).
  intros n Hlen Hclosed Hvalues. split; [by apply evolved_refl|]. by rewrite Hres.
Qed.

(** A submission puts the new original document in a layer of its own. *)
Lemma separated_submit (st st' : AppState) (h h' : heap) (called : bool) :
  App.handleAnalyze_begin st h = (st', h', called) →
  Session.separated st h → Session.separated st' h'.
Proof.
  unfold App.handleAnalyze_begin, JSON.parse. intros Hbegin Hsep.
  destruct (Text.trim (jsonInput st)) as [|c s].
  { injection Hbegin as <- <- <-. by apply (separated_same st). }
  destruct (JSONText.parse (jsonInput st)) as [t|].
  2: { injection Hbegin as <- <- <-. by apply (separated_same st). }
  pose proof (build_fresh t h) as [Hdoc Horig].
  destruct (build_extends t h) as [ext Hext].
  destruct (Store.build t h) as [h1 parsedJson]. cbn [fst snd] in *.
  injection Hbegin as <- <- <-.
  exists (length h), (length h1). split; [done|]. split; [done|]. split; [done|].
  split; [by apply closed_from|]. intros r [=].
Qed.

Lemma separated_settle (M : messages) (API_KEY : option string) (reply : apiReply)
  (settled : analysis) (st st' : AppState) (h h' : heap) :
  Service.analyzeWorkflow M API_KEY reply h = (h', settled) →
  App.handleAnalyze_settle settled st = Some st' →
  Session.separated st h → Session.separated st' h'.
Proof.
  intros Hservice Hsettle Hsep.
  assert (originalWorkflow st' = originalWorkflow st) as Horig.
  { destruct settled as [r|m|]; simpl in Hsettle; [| |done]; injection Hsettle as <-;
      [done|]. by destruct (Text.includes _ m). }
  apply (separated_evolved st st' h h' Hsep Horig).
  intros n Hlen Hclosed Hvalues.
  pose proof (evolved_analyzeWorkflow (fun l => n ≤ l) h ltac:(simpl; lia)
                M API_KEY reply h (evolved_refl _ _ Hclosed)) as [Hev Hnew].
  rewrite Hservice in Hev, Hnew. cbn [fst snd] in Hev, Hnew.
  split; [done|]. intros r Hr.
  destruct settled as [r'|m|]; simpl in Hsettle; [| |done]; injection Hsettle as <-.
  - injection Hr as <-. by apply Hnew.
  - apply Hvalues. by destruct (Text.includes _ m).
Qed.

Lemma separated_render (E : engine) (st : AppState) (h : heap) :
  Session.separated st h →
  Session.separated st (fst (App.correctedWorkflowJson E st h)).
Proof.
  intros Hsep. apply (separated_evolved st st h _ Hsep eq_refl).
  intros n Hlen Hclosed Hvalues. split; [|done].
  by apply evolved_correctedWorkflowJson; [simpl; lia|..].
Qed.

(** Every step of a session keeps the layers. *)
Lemma separated_step (M : messages) (E : engine) (x y : AppState * heap) :
  Session.step M E x y →
  Session.separated (fst x) (snd x) → Session.separated (fst y) (snd y).
Proof.
  intros Hstep.
  destruct Hstep as [b st h|st h|s st h|st h st' h' called Hbegin
                    |key reply settled st h st' h' Hservice Hsettle
                    |i st h|st h|i st h|st h|st h]; cbn [fst snd]; intros Hsep;
    try (by apply (separated_same st)).
  - by apply (separated_submit st st' h h' called).
  - by apply (separated_settle M key reply settled st st' h h').
  - apply (separated_same st); [..|done];
      unfold App.approveAllFixes; destruct (analysisResult st) eqn:Hres; simpl; congruence.
  - by apply separated_render.
Qed.

(** In every state a session reaches, the original document and the
    patch values lie in separate layers of the store. *)
Lemma session_separated (M : messages) (E : engine) (st : AppState) (h : heap) :
  rtc (Session.step M E) (App.initial, []) (st, h) → Session.separated st h.
Proof.
  intros Hrun.
  enough (∀ x y, rtc (Session.step M E) x y →
                 Session.separated (fst x) (snd x) → Session.separated (fst y) (snd y))
    as Hall by exact (Hall _ _ Hrun separated_initial).
  clear. intros x y Hrun. induction Hrun as [x|x y z Hstep _ IH]; [done|].
  intros Hx. by apply IH, (separated_step M E x y).
Qed.

(** The layers give the split of the store under which the corrected
    document is computed without touching the original. *)
Lemma separated_frame (st : AppState) (h : heap) :
  Session.separated st h →
  ∃ W : loc → Prop,
    Graph.closed W h
    ∧ (∀ l, length h ≤ l → W l)
    ∧ (∀ r, analysisResult st = Some r →
            Forall (fun e => Graph.within W (newValue (jsonModification e))) (errors r))
    ∧ (∀ l, Graph.reach h (originalWorkflow st) l → ¬ W l).
Proof.
  intros (a & n & Hlen & Hdoc & Horig & Hclosed & Hvalues).
  exists (fun l => n ≤ l). split; [done|]. split; [simpl; lia|]. split; [done|].
  intros l Hreach. pose proof (reach_closed _ h _ l Hdoc Horig Hreach). simpl in *. lia.
Qed.

(** X22. In every state a session reaches, evaluating the memo leaves
    what can be read of the original document as it was. *)
Lemma session_keeps_original (M : messages) (E : engine) (st : AppState) (h : heap) :
  rtc (Session.step M E) (App.initial, []) (st, h) →
  ∀ fuel, Store.serialize fuel (fst (App.correctedWorkflowJson E st h)) (originalWorkflow st)
          = Store.serialize fuel h (originalWorkflow st).
Proof.
  intros Hrun fuel.
  destruct (separated_frame st h (session_separated M E st h Hrun))
    as (W & Hclosed & Hbeyond & Hvalues & Horig).
  destruct (evolved_correctedWorkflowJson W h Hbeyond E st Hclosed Hvalues)
    as (_ & Hsame & _).
  apply serialize_agree. intros l Hl. apply Hsame, Horig, Hl.
Qed.

(** The steps of a session in which [doc], a JSON text, is typed and
    submitted, and the model answers [Samples.fencedResponse]. *)
Lemma session_analysed (doc : string) :
  snd (Samples.submitted doc) = true →
  rtc (Session.step Samples.messages0 Samples.engine0) (App.initial, [])
    (Samples.settled doc, fst (Samples.analysed doc)).
Proof.
  intros Hcalled.
  eapply rtc_l; [apply (Session.edit _ _ doc)|].
  eapply rtc_l.
  { apply (Session.submit _ _ _ _ (fst (fst (Samples.submitted doc)))
             (snd (fst (Samples.submitted doc))) (snd (Samples.submitted doc))).
    unfold Samples.submitted. by destruct (App.handleAnalyze_begin _ _) as [[? ?] ?]. }
  eapply rtc_l; [|apply rtc_refl].
  apply (Session.settle _ _ (Some "key"%string) (Reply (Some Samples.fencedResponse))
           (snd (Samples.analysed doc))).
  - unfold Samples.analysed. by destruct (Service.analyzeWorkflow _ _ _ _).
  - unfold Samples.settled.
    assert (∃ r, snd (Samples.analysed doc) = Resolved r) as [r ->]; [|done].
    unfold Samples.analysed.
    generalize (snd (fst (Samples.submitted doc))). intros h.
    unfold Service.analyzeWorkflow.
    assert (∃ ms es received v s f nbs,
               JSONText.parse (Text.stripFence (Text.trim Samples.fencedResponse))
               = Some (JObj ms)
               ∧ Service.member ms "errors" = Some (JArr es)
               ∧ existsb Service.isNull es = false
               ∧ mapM Service.asWorkflowError es = Some received
               ∧ Service.asBool (Service.member ms "isValid") = Some v
               ∧ Service.asSummary (Service.member ms "summary") = Some s
               ∧ Service.asString (Service.member ms "textFlow") = Some f
               ∧ Service.asArray (Service.member ms "nodeBreakdowns")
                   ≫= mapM Service.asNodeBreakdown = Some nbs)
      as (ms & es & received & v & s & f & nbs & Hp & He & Hn & Hr & Hv & Hs & Hf & Hb).
    { vm_compute. do 7 eexists. repeat split; reflexivity. }
    unfold Service.processResponse. rewrite Hp, He, Hn, Hr, Hv, Hs, Hf, Hb.
    destruct (Service.postProcessAll h received). by eexists.
Qed.

(** A session from the first keystroke to the corrected document: the
    three fixes of the response are applied to a copy, and the original
    still reads as it was typed. *)
Example session_example :
  let st := Samples.allApproved in
  let h := fst (Samples.analysed Samples.docAB1) in
  rtc (Session.step Samples.messages0 Samples.engine0) (App.initial, []) (st, h)
  ∧ stage st = results
  ∧ approvedFixes st = {[ "e1"%string; "e2"%string; "e3"%string ]}
  ∧ snd (App.correctedWorkflowJson Samples.engine0 st h)
    = Value (Some Samples.correctedAB1)
  ∧ JSON.stringify (fst (App.correctedWorkflowJson Samples.engine0 st h))
      (originalWorkflow st)
    = Some (Some Samples.docAB1').
Proof.
  intros st h. split.
  { apply (rtc_r _ (Samples.settled Samples.docAB1, h)).
    - apply (session_analysed Samples.docAB1). vm_compute. reflexivity.
    - apply Session.approveAllFixes. }
  split; [vm_compute; reflexivity|].
  split; [vm_compute; reflexivity|].
  split; vm_compute; reflexivity.
Qed.

(** A session on the document [0]: it is analysed like any other, it
    serialises to the text [0], and the memo is null. *)
Example session_zero :
  let st := Samples.settled "0" in
  let h := fst (Samples.analysed "0") in
  rtc (Session.step Samples.messages0 Samples.engine0) (App.initial, []) (st, h)
  ∧ stage st = results
  ∧ is_Some (analysisResult st)
  ∧ approvedFixes st = ∅
  ∧ JSON.stringify2 h (originalWorkflow st) = Some (Some "0"%string)
  ∧ App.correctedWorkflowJson Samples.engine0 st h = (h, Value None).
Proof.
  intros st h. split; [apply (session_analysed "0"); vm_compute; reflexivity|].
  split; [vm_compute; reflexivity|].
  split; [vm_compute; by eexists|].
  split; [vm_compute; reflexivity|].
  split; vm_compute; reflexivity.
Qed.

(** ** The enumeration order is kept *)

Lemma char_digit_inv (c : ascii) (d : digit) :
  Numeral.char_digit c = Some d → c = Numeral.digit_char d.
Proof.
  destruct c as [[] [] [] [] [] [] [] []]; cbn; intros H; try discriminate H;
    by injection H as <-.
Qed.

Lemma takeDigits_all (s : string) (ds : list digit) :
  Numeral.takeDigits s = (ds, EmptyString) → s = Numeral.digits_string ds.
Proof.
  revert ds. induction s as [|c s IH]; intros ds; cbn [Numeral.takeDigits].
  - by intros [= <-].
  - destruct (Numeral.char_digit c) as [d|] eqn:Hc; [|done].
    destruct (Numeral.takeDigits s) as [ds' r]. intros [= <- ->].
    cbn [Numeral.digits_string]. by rewrite (IH ds' eq_refl), (char_digit_inv c d Hc).
Qed.

Lemma uint_of_digits_inj (a b : list digit) :
  Numeral.uint_of_digits a = Numeral.uint_of_digits b → a = b.
Proof.
  revert b. induction a as [|x a IH]; intros [|y b]; cbn [Numeral.uint_of_digits].
  - done.
  - by destruct y.
  - by destruct x.
  - destruct x, y; intros H; try discriminate H; injection H as H; by rewrite (IH b H).
Qed.

Lemma unorm_canonical (d : digit) (ds : list digit) :
  match d, ds with d0, _ :: _ => False | _, _ => True end →
  Decimal.unorm (Numeral.uint_of_digits (d :: ds)) = Numeral.uint_of_digits (d :: ds).
Proof. destruct d; try done. by destruct ds. Qed.

(** A canonical numeric string is determined by its value. *)
Lemma uintString_inj (a b : string) (n : N) :
  Store.uintString a = Some n → Store.uintString b = Some n → a = b.
Proof.
  unfold Store.uintString. intros Ha Hb.
  destruct (Numeral.takeDigits a) as [[|x xs] [|]] eqn:Hta; try done.
  destruct (Numeral.takeDigits b) as [[|y ys] [|]] eqn:Htb; try done.
  apply takeDigits_all in Hta, Htb. subst a b. f_equal.
  apply uint_of_digits_inj.
  rewrite <- (unorm_canonical x xs), <- (unorm_canonical y ys).
  - apply DecimalN.Unsigned.of_inj. unfold Numeral.N_of_digits in *.
    destruct x, xs; try done; destruct y, ys; try done; congruence.
  - destruct y, ys; done.
  - destruct x, xs; done.
Qed.

Lemma arrayIndex_inj (a b : string) (n : N) :
  Store.arrayIndex a = Some n → Store.arrayIndex b = Some n → a = b.
Proof.
  unfold Store.arrayIndex. intros Ha Hb.
  destruct (Store.uintString a) as [x|] eqn:Hx; [|done].
  destruct (Store.uintString b) as [y|] eqn:Hy; [|done].
  destruct (x <? 4294967295)%N; [|done]. destruct (y <? 4294967295)%N; [|done].
  injection Ha as ->. injection Hb as ->. by apply (uintString_inj a b n).
Qed.

Lemma keys_replaceProp (props : list (string * value)) (key : string) (v : value) :
  map fst (Store.replaceProp props key v) = map fst props.
Proof.
  induction props as [|[k w] props IH]; [done|]. cbn [Store.replaceProp].
  destruct (String.eqb k key); cbn [map fst]; [done|by rewrite IH].
Qed.

Lemma existsb_insertIndexed (f : string → bool) (props : list (string * value)) (i : N)
  (key : string) (v : value) :
  existsb f (map fst (Store.insertIndexed props i key v))
  = f key || existsb f (map fst props).
Proof.
  induction props as [|[k w] props IH]; cbn [Store.insertIndexed]; [done|].
  destruct (Store.arrayIndex k) as [j|]; [|done].
  destruct (j <? i)%N; [|done].
  cbn [map fst existsb]. rewrite IH. by destruct (f k), (f key).
Qed.

Lemma forallb_insertIndexed (f : string → bool) (props : list (string * value)) (i : N)
  (key : string) (v : value) :
  forallb f (map fst (Store.insertIndexed props i key v))
  = f key && forallb f (map fst props).
Proof.
  induction props as [|[k w] props IH]; cbn [Store.insertIndexed]; [done|].
  destruct (Store.arrayIndex k) as [j|]; [|done].
  destruct (j <? i)%N; [|done].
  cbn [map fst forallb]. rewrite IH. by destruct (f k), (f key).
Qed.

Lemma lookupProp_absent (props : list (string * value)) (key : string) :
  Store.lookupProp props key = None →
  existsb (String.eqb key) (map fst props) = false
  ∧ forallb (fun k => negb (String.eqb k key)) (map fst props) = true.
Proof.
  induction props as [|[k w] props IH]; [done|]. cbn [Store.lookupProp map fst existsb forallb].
  destruct (String.eqb k key) eqn:Hk; [done|]. intros [-> ->]%IH.
  by rewrite String.eqb_sym, Hk.
Qed.

Lemma orderedKeys_insertIndexed (props : list (string * value)) (i : N) (key : string)
  (v : value) :
  Store.orderedKeys (map fst props) = true →
  Store.lookupProp props key = None →
  Store.arrayIndex key = Some i →
  Store.orderedKeys (map fst (Store.insertIndexed props i key v)) = true.
Proof.
  intros Hord Hnone Hkey. induction props as [|[k w] props IH].
  - cbn. by rewrite Hkey.
  - pose proof (lookupProp_absent _ _ Hnone) as [Habsent _].
    cbn [map fst existsb] in Habsent. apply orb_false_iff in Habsent as [Hkk Habsent].
    cbn [Store.lookupProp] in Hnone. rewrite String.eqb_sym, Hkk in Hnone.
    rewrite String.eqb_sym in Hkk.
    pose proof Hord as Hord0.
    cbn [map fst Store.orderedKeys] in Hord.
    apply andb_true_iff in Hord as [[Hfresh Hlater]%andb_true_iff Hrest].
    cbn [Store.insertIndexed].
    destruct (Store.arrayIndex k) as [j|] eqn:Hj.
    + destruct (j <? i)%N eqn:Hji.
      * cbn [map fst Store.orderedKeys]. rewrite Hj.
        rewrite existsb_insertIndexed, forallb_insertIndexed, Hkk, Hkey, Hji, Hlater.
        rewrite IH by done. cbn [orb andb]. by rewrite Hfresh.
      * change (Store.orderedKeys (key :: map fst ((k, w) :: props)) = true).
        cbn [Store.orderedKeys]. rewrite Hkey, Hord0.
        cbn [map fst existsb forallb]. rewrite String.eqb_sym, Hkk, Habsent, Hj.
        cbn [orb negb andb]. rewrite andb_true_r. apply andb_true_iff. split.
        -- apply N.ltb_lt. apply N.ltb_ge in Hji.
           destruct (decide (i = j)) as [->|Hne]; [|lia].
           rewrite (arrayIndex_inj k key j Hj Hkey), String.eqb_refl in Hkk. done.
        -- apply forallb_forall. intros k' Hk'.
           rewrite forallb_forall in Hlater. specialize (Hlater k' Hk').
           destruct (Store.arrayIndex k') as [j'|]; [|done].
           apply N.ltb_lt. apply N.ltb_lt in Hlater. apply N.ltb_ge in Hji. lia.
    + change (Store.orderedKeys (key :: map fst ((k, w) :: props)) = true).
      cbn [Store.orderedKeys]. rewrite Hkey, Hord0.
      cbn [map fst existsb forallb]. rewrite String.eqb_sym, Hkk, Habsent, Hj.
      cbn [orb negb andb]. rewrite andb_true_r.
      apply forallb_forall. intros k' Hk'.
      rewrite forallb_forall in Hlater. specialize (Hlater k' Hk').
      by destruct (Store.arrayIndex k').
Qed.

Lemma orderedKeys_snoc (props : list (string * value)) (key : string) (v : value) :
  Store.orderedKeys (map fst props) = true →
  Store.lookupProp props key = None →
  Store.arrayIndex key = None →
  Store.orderedKeys (map fst (props ++ [(key, v)])) = true.
Proof.
  intros Hord Hnone Hkey. induction props as [|[k w] props IH].
  - cbn. by rewrite Hkey.
  - cbn [Store.lookupProp] in Hnone.
    destruct (String.eqb k key) eqn:Hkk; [done|].
    cbn [map fst app Store.orderedKeys] in *.
    apply andb_true_iff in Hord as [[Hfresh Hlater]%andb_true_iff Hrest].
    rewrite IH by done. rewrite map_app, existsb_app.
    cbn [map fst existsb]. rewrite Hkk, orb_false_r, Hfresh. cbn [andb].
    rewrite andb_true_r.
    destruct (Store.arrayIndex k); rewrite forallb_app, Hlater; cbn; by rewrite Hkey.
Qed.

(** Defining a property keeps the properties in enumeration order. *)
Lemma orderedKeys_putProp (props : list (string * value)) (key : string) (v : value) :
  Store.orderedKeys (map fst props) = true →
  Store.orderedKeys (map fst (Store.putProp props key v)) = true.
Proof.
  intros Hord. unfold Store.putProp.
  destruct (Store.lookupProp props key) eqn:Hl.
  - by rewrite keys_replaceProp.
  - destruct (Store.arrayIndex key) as [i|] eqn:Hk.
    + by apply orderedKeys_insertIndexed.
    + by apply orderedKeys_snoc.
Qed.

(** ** Numbers are read in normal form *)

Lemma strip0_spec (ds : list digit) :
  (∃ z, ds = replicate z d0 ++ Numeral.strip0 ds)
  ∧ match Numeral.strip0 ds with
    | d :: _ => Numeral.is_d0 d = false
    | [] => True
    end.
Proof.
  induction ds as [|d ds [[z Hz] Hhead]]; [by split; [exists 0|]|].
  destruct d; try (by split; [exists 0|]).
  cbn [Numeral.strip0]. split; [|done]. exists (S z). cbn. by rewrite <- Hz.
Qed.

Lemma mkNumber_is_normal (neg : bool) (int frac : list digit) (e : Z) :
  Numeral.normal (Numeral.mkNumber neg int frac e) = true.
Proof.
  unfold Numeral.mkNumber.
  destruct (Numeral.strip0_end (Numeral.strip0 (int ++ frac))) as [|d ds] eqn:Hsig; [done|].
  unfold Numeral.strip0_end in Hsig.
  destruct (strip0_spec (int ++ frac)) as [_ Hhead].
  destruct (strip0_spec (reverse (Numeral.strip0 (int ++ frac)))) as [[z Hz] Hlast].
  apply (f_equal reverse) in Hz. rewrite reverse_involutive, reverse_app, Hsig in Hz.
  rewrite Hz in Hhead. cbn [app] in Hhead.
  unfold Numeral.normal. cbn [num_digits]. rewrite Hhead. cbn [negb andb].
  destruct (last (d :: ds)) as [x|] eqn:Hx; [|done].
  apply last_Some in Hx as [pre Hpre].
  apply (f_equal reverse) in Hsig. rewrite reverse_involutive, Hpre, reverse_snoc in Hsig.
  rewrite Hsig in Hlast. by rewrite Hlast.
Qed.

Lemma parseNumber_normal (s : string) (n : number) (r : string) :
  Numeral.parseNumber s = Some (n, r) → Numeral.normal n = true.
Proof.
  assert (∀ neg s, Numeral.parseUnsigned neg s = Some (n, r) → Numeral.normal n = true)
    as Hun.
  { intros neg s1. unfold Numeral.parseUnsigned.
    destruct (Numeral.intPart s1) as [[int s2]|]; [|done].
    destruct (Numeral.fracPart s2) as [[frac s3]|]; [|done].
    destruct (Numeral.expPart s3) as [[e r']|]; [|done].
    intros [= <- _]. apply mkNumber_is_normal. }
  unfold Numeral.parseNumber. destruct s as [|c t]; [apply Hun|].
  destruct (Ascii.eqb c "-"); apply Hun.
Qed.

Ltac split_parse H :=
  repeat match type of H with
         | context [match ?x with _ => _ end] => destruct x eqn:?; try discriminate H
         | context [if ?x then _ else _] => destruct x eqn:?; try discriminate H
         end.

(** The values the parser gives hold numbers in normal form. *)
Lemma parseValue_normal (fuel : nat) :
  (∀ s t r, JSONText.parseValue fuel s = Some (t, r) → JSONText.normalNumbers t = true)
  ∧ (∀ s xs r, JSONText.parseElements fuel s = Some (xs, r) →
       forallb JSONText.normalNumbers xs = true)
  ∧ (∀ s ms r, JSONText.parseMembers fuel s = Some (ms, r) →
       forallb (fun m => JSONText.normalNumbers (snd m)) ms = true).
Proof.
  induction fuel as [|fuel (IHv & IHe & IHm)]; [done|].
  split; [|split].
  - intros s t r H. cbn [JSONText.parseValue] in H.
    destruct (JSONText.skip_ws s) as [|c s']; [done|].
    destruct (Numeral.parseNumber (String c s')) as [[n rn]|] eqn:Hn;
      destruct (JSONText.parseChars s') as [[str rs]|];
      destruct (JSONText.parseElements fuel s') as [[xs rx]|] eqn:Hx;
      destruct (JSONText.parseMembers fuel s') as [[ms rm]|] eqn:Hm;
      split_parse H; injection H as <- <-; cbn [JSONText.normalNumbers];
      eauto using parseNumber_normal.
  - intros s xs r H. cbn [JSONText.parseElements] in H.
    destruct (JSONText.parseValue fuel s) as [[v r1]|] eqn:Hv; [|done].
    apply IHv in Hv.
    destruct (JSONText.skip_ws r1) as [|c r2]; [done|].
    destruct (JSONText.parseElements fuel r2) as [[vs r3]|] eqn:Hvs;
      split_parse H; injection H as <- <-; cbn [forallb]; rewrite Hv; eauto.
  - intros s ms r H. cbn [JSONText.parseMembers] in H.
    destruct (JSONText.skip_ws s) as [|c s1]; [done|].
    destruct (Ascii.eqb c Text.dq); [|done].
    destruct (JSONText.parseChars s1) as [[k r1]|]; [|done].
    destruct (JSONText.skip_ws r1) as [|c1 r2]; [done|].
    assert (∃ r2', match JSONText.parseValue fuel r2' with
                   | Some (v, r2) =>
                       match JSONText.skip_ws r2 with
                       | String "," r3 =>
                           match JSONText.parseMembers fuel r3 with
                           | Some (ms, r4) => Some ((k, v) :: ms, r4)
                           | None => None
                           end
                       | String "}" r3 => Some ([(k, v)], r3)
                       | _ => None
                       end
                   | None => None
                   end = Some (ms, r)) as [r2' H'].
    { exists r2. split_parse H; try exact H. }
    clear H. destruct (JSONText.parseValue fuel r2') as [[v r3]|] eqn:Hv; [|done].
    apply IHv in Hv.
    destruct (JSONText.skip_ws r3) as [|c3 r4]; [done|].
    destruct (JSONText.parseMembers fuel r4) as [[ms' r5]|] eqn:Hms;
      split_parse H'; injection H' as <- <-; cbn [forallb snd]; rewrite Hv; eauto.
Qed.

(** ** What is built can be read *)

Lemma legible_grow (base : nat) (h ext : heap) (v : value) :
  legible base h v → legible base (h ++ ext) v.
Proof.
  intros (t & Hr & Hc & Hd). exists t. split; [by apply reads_grow|]. split; [done|].
  rewrite length_app. lia.
Qed.

Lemma legible_base (base base' : nat) (h : heap) (v : value) :
  base ≤ base' → legible base' h v → legible base h v.
Proof. intros Hle (t & Hr & Hc & Hd). exists t. split; [done|]. split; [done|lia]. Qed.

Lemma legible_values (base : nat) (h : heap) (vs : list value) :
  Forall (legible base h) vs →
  ∃ ts, Forall2 (reads h) vs ts
        ∧ forallb Store.canonical ts = true
        ∧ Forall (fun t => JSONText.depth t + base ≤ length h) ts.
Proof.
  induction 1 as [|v vs (t & Hr & Hc & Hd) _ (ts & Hrs & Hcs & Hds)].
  - by exists [].
  - exists (t :: ts). split; [by constructor|]. split; [|by constructor].
    cbn [forallb]. by rewrite Hc.
Qed.

Section Values.

Variable P : value → Prop.

Lemma Forall_replaceProp (props : list (string * value)) (key : string) (v : value) :
  P v → Forall P (snd <$> props) → Forall P (snd <$> Store.replaceProp props key v).
Proof.
  intros Hv. induction props as [|[k w] props IH]; [done|].
  cbn [Store.replaceProp]. intros [Hw Hp]%Forall_cons.
  destruct (String.eqb k key); constructor; auto.
Qed.

Lemma Forall_insertIndexed (props : list (string * value)) (i : N) (key : string)
  (v : value) :
  P v → Forall P (snd <$> props) → Forall P (snd <$> Store.insertIndexed props i key v).
Proof.
  intros Hv. induction props as [|[k w] props IH]; [by repeat constructor|].
  cbn [Store.insertIndexed]. intros Hall. pose proof Hall as [Hw Hp]%Forall_cons.
  destruct (Store.arrayIndex k) as [j|]; [destruct (j <? i)%N|]; constructor; auto.
Qed.

Lemma Forall_putProp (props : list (string * value)) (key : string) (v : value) :
  P v → Forall P (snd <$> props) → Forall P (snd <$> Store.putProp props key v).
Proof.
  intros Hv Hp. unfold Store.putProp.
  destruct (Store.lookupProp props key); [by apply Forall_replaceProp|].
  destruct (Store.arrayIndex key); [by apply Forall_insertIndexed|].
  rewrite fmap_app. apply Forall_app. split; [done|by repeat constructor].
Qed.

End Values.

Lemma depth_bound_all (base L : nat) (ts : list json) :
  base ≤ L → Forall (fun t => JSONText.depth t + base ≤ L) ts →
  fold_right (fun x n => max (JSONText.depth x) n) 0 ts + base ≤ L.
Proof. intros Hb. induction 1; cbn [fold_right]; lia. Qed.

Lemma buildList_legible (base : nat) (xs : list json) :
  Forall (fun x => ∀ h, legible (length h) (fst (Store.build x h)) (snd (Store.build x h)))
    xs →
  ∀ h, base ≤ length h →
    Forall (legible base (fst (Store.buildList Store.build xs h)))
      (snd (Store.buildList Store.build xs h)).
Proof.
  induction 1 as [|x xs Hx _ IH]; intros h Hbase; [done|].
  cbn [Store.buildList]. specialize (Hx h).
  destruct (build_extends x h) as [e1 He1].
  destruct (Store.build x h) as [h1 v]. cbn [fst snd] in *.
  assert (base ≤ length h1) as Hbase1 by (rewrite He1, length_app; lia).
  specialize (IH h1 Hbase1).
  assert (∃ e2, fst (Store.buildList Store.build xs h1) = h1 ++ e2) as [e2 He2].
  { apply buildList_extends. apply Forall_forall. intros; apply build_extends. }
  destruct (Store.buildList Store.build xs h1) as [h2 vs]. cbn [fst snd] in *.
  constructor; [|done]. rewrite He2. apply legible_grow. by apply (legible_base _ (length h)).
Qed.

Lemma buildProps_legible (base : nat) (ms : list (string * json)) :
  Forall (fun m => ∀ h, legible (length h) (fst (Store.build (snd m) h))
                          (snd (Store.build (snd m) h))) ms →
  ∀ h acc, base ≤ length h →
    Store.orderedKeys (map fst acc) = true →
    Forall (legible base h) (snd <$> acc) →
    Store.orderedKeys (map fst (snd (Store.buildProps Store.build ms h acc))) = true
    ∧ Forall (legible base (fst (Store.buildProps Store.build ms h acc)))
        (snd <$> snd (Store.buildProps Store.build ms h acc)).
Proof.
  induction 1 as [|m ms Hm _ IH]; intros h acc Hbase Hord Hacc; [done|].
  cbn [Store.buildProps]. specialize (Hm h).
  destruct (build_extends (snd m) h) as [e1 He1].
  destruct (Store.build (snd m) h) as [h1 v]. cbn [fst snd] in *.
  apply IH.
  - rewrite He1, length_app. lia.
  - by apply orderedKeys_putProp.
  - apply Forall_putProp; [by apply (legible_base _ (length h))|].
    rewrite He1. eapply Forall_impl; [exact Hacc|]. intros w Hw. by apply legible_grow.
Qed.

(** Whatever the text, the object graph [JSON.parse] builds serialises to
    a value in canonical form, within the depth the store allows. *)
Lemma build_legible (t0 : json) :
  JSONText.normalNumbers t0 = true →
  ∀ h, legible (length h) (fst (Store.build t0 h)) (snd (Store.build t0 h)).
Proof.
  induction t0 as [|b|n|s|xs IH|ms IH] using json_induction; intros Hnn h.
  1-4: eexists; split; [intros ext [|fuel] _; reflexivity|]; split; [done|cbn; lia].
  - cbn [JSONText.normalNumbers] in Hnn. cbn [Store.build].
    assert (Forall (fun x => ∀ h, legible (length h) (fst (Store.build x h))
                                    (snd (Store.build x h))) xs) as IH'.
    { rewrite Forall_forall in IH. apply Forall_forall. intros x Hx. apply IH; [done|].
      rewrite forallb_forall in Hnn. apply Hnn. by apply list_elem_of_In. }
    pose proof (buildList_legible (length h) xs IH' h (le_n _)) as Hvs.
    assert (∃ e, fst (Store.buildList Store.build xs h) = h ++ e) as [e He].
    { apply buildList_extends. apply Forall_forall. intros; apply build_extends. }
    destruct (Store.buildList Store.build xs h) as [h1 vs]. cbn [fst snd] in *.
    destruct (legible_values _ _ _ Hvs) as (ts & Hrs & Hcs & Hds).
    assert (length h ≤ length h1) as Hlen by (rewrite He, length_app; lia).
    pose proof (depth_bound_all _ _ _ Hlen Hds) as Hdepth.
    exists (JArr ts). unfold Store.new. cbn [fst snd]. split; [|split; [done|]].
    + intros ext [|fuel] Hd; cbn [JSONText.depth] in Hd; [lia|].
      cbn [Store.serialize]. rewrite <- app_assoc. cbn [app].
      rewrite list_lookup_middle by done.
      rewrite (serializeElems_reads h1 vs ts fuel (Arr vs [] :: ext) Hrs); [done|].
      apply depth_elements. lia.
    + cbn [JSONText.depth]. rewrite length_app. cbn [length]. lia.
  - cbn [JSONText.normalNumbers] in Hnn. cbn [Store.build].
    assert (Forall (fun m => ∀ h, legible (length h) (fst (Store.build (snd m) h))
                                    (snd (Store.build (snd m) h))) ms) as IH'.
    { rewrite Forall_forall in IH. apply Forall_forall. intros m Hm. apply IH; [done|].
      rewrite forallb_forall in Hnn. apply Hnn. by apply list_elem_of_In. }
    pose proof (buildProps_legible (length h) ms IH' h [] (le_n _) eq_refl
                  ltac:(constructor)) as [Hord Hvs].
    assert (∃ e, fst (Store.buildProps Store.build ms h []) = h ++ e) as [e He].
    { apply buildProps_extends. apply Forall_forall. intros; apply build_extends. }
    destruct (Store.buildProps Store.build ms h []) as [h1 props]. cbn [fst snd] in *.
    destruct (legible_values _ _ _ Hvs) as (ts & Hrs & Hcs & Hds).
    assert (length h ≤ length h1) as Hlen by (rewrite He, length_app; lia).
    pose proof (depth_bound_all _ _ _ Hlen Hds) as Hdepth.
    pose proof (Forall2_length _ _ _ Hrs) as Hlength. rewrite length_fmap in Hlength.
    set (members := zip (map fst props) ts).
    assert (map fst members = map fst props) as Hkeys.
    { unfold members. apply fst_zip. rewrite length_map. lia. }
    assert (map snd members = ts) as Hvals.
    { unfold members. apply snd_zip. rewrite length_map. lia. }
    assert (props = zip (map fst members) (snd <$> props)) as Hprops.
    { rewrite Hkeys. symmetry. apply (zip_fst_snd props). }
    exists (JObj members). unfold Store.new. cbn [fst snd]. split; [|split].
    + intros ext [|fuel] Hd; cbn [JSONText.depth] in Hd; [lia|].
      cbn [Store.serialize]. rewrite <- app_assoc. cbn [app].
      rewrite list_lookup_middle by done.
      rewrite Hprops at 2.
      rewrite (serializeProps_reads h1 (snd <$> props) members fuel (Obj props :: ext));
        [done|by rewrite Hvals|].
      apply depth_members. lia.
    + cbn [Store.canonical]. rewrite Hkeys, Hord. cbn [andb].
      rewrite <- Hvals in Hcs. clear -Hcs.
      induction members as [|m members IHm]; [done|].
      cbn [map forallb] in *. apply andb_true_iff in Hcs as [-> Hcs]. auto.
    + cbn [JSONText.depth]. rewrite length_app. cbn [length].
      assert (fold_right (fun m n => max (JSONText.depth (snd m)) n) 0 members
              = fold_right (fun x n => max (JSONText.depth x) n) 0 ts) as ->; [|lia].
      rewrite <- Hvals. clear. induction members as [|m members IHm]; [done|].
      cbn [map fold_right]. by rewrite IHm.
Qed.

(** ** The original document can always be read *)

Lemma parse_normal (s : string) (t : json) :
  JSONText.parse s = Some t → JSONText.normalNumbers t = true.
Proof.
  unfold JSONText.parse.
  destruct (JSONText.parseValue (JSONText.fuel_for s) s) as [[v r]|] eqn:Hv; [|done].
  destruct (JSONText.skip_ws r); [|done]. intros [= <-].
  exact (proj1 (parseValue_normal (JSONText.fuel_for s)) s v r Hv).
Qed.

(** When the store grows beside the original document, the document
    reads as before. *)
Lemma separated_reads (st : AppState) (h h' : heap) :
  Session.separated st h →
  (∀ n, n ≤ length h → Graph.closed (fun l => n ≤ l) h →
        (∀ r, analysisResult st = Some r →
              Forall (fun e => Graph.within (fun l => n ≤ l) (newValue (jsonModification e)))
                (errors r)) →
        Graph.evolved (fun l => n ≤ l) h h') →
  length h ≤ length h'
  ∧ ∀ fuel, Store.serialize fuel h' (originalWorkflow st)
            = Store.serialize fuel h (originalWorkflow st).
Proof.
  intros (a & n & Hlen & Hdoc & Horig & Hclosed & Hvalues) Hstep.
  destruct (Hstep n Hlen Hclosed Hvalues) as (Hgrow & Hkept & _).
  split; [done|]. intros fuel. apply serialize_agree. intros l Hl.
  apply Hkept. pose proof (reach_closed _ h _ l Hdoc Horig Hl). simpl in *. lia.
Qed.

(** A step of a session either parses a new original document into the
    store, or leaves the original document and what it reads as. *)
Lemma step_original (M : messages) (E : engine) (x y : AppState * heap) :
  Session.step M E x y →
  Session.separated (fst x) (snd x) →
  (∃ t0, JSONText.parse (jsonInput (fst x)) = Some t0
         ∧ snd y = fst (Store.build t0 (snd x))
         ∧ originalWorkflow (fst y) = snd (Store.build t0 (snd x)))
  ∨ (originalWorkflow (fst y) = originalWorkflow (fst x)
     ∧ length (snd x) ≤ length (snd y)
     ∧ ∀ fuel, Store.serialize fuel (snd y) (originalWorkflow (fst x))
               = Store.serialize fuel (snd x) (originalWorkflow (fst x))).
Proof.
  intros Hstep.
  destruct Hstep as [b st h|st h|s st h|st h st' h' called Hbegin
                    |key reply settled st h st' h' Hservice Hsettle
                    |i st h|st h|i st h|st h|st h]; cbn [fst snd]; intros Hsep;
    try (by right).
  - unfold App.handleAnalyze_begin, JSON.parse in Hbegin.
    destruct (Text.trim (jsonInput st)) as [|c s].
    { injection Hbegin as <- <- <-. by right. }
    destruct (JSONText.parse (jsonInput st)) as [t|].
    2: { injection Hbegin as <- <- <-. by right. }
    left. exists t. split; [done|].
    destruct (Store.build t h) as [h1 parsedJson]. by injection Hbegin as <- <- <-.
  - right.
    assert (originalWorkflow st' = originalWorkflow st) as Horig.
    { destruct settled as [r|m|]; simpl in Hsettle; [| |done]; injection Hsettle as <-;
        [done|]. by destruct (Text.includes _ m). }
    split; [done|]. apply (separated_reads st h h' Hsep).
    intros n Hlen Hclosed Hvalues.
    pose proof (evolved_analyzeWorkflow (fun l => n ≤ l) h ltac:(simpl; lia)
                  M key reply h (evolved_refl _ _ Hclosed)) as [Hev _].
    by rewrite Hservice in Hev.
  - right. split; [|done]. unfold App.approveAllFixes. by destruct (analysisResult st).
  - right. split; [done|]. apply (separated_reads st h _ Hsep).
    intros n Hlen Hclosed Hvalues.
    by apply evolved_correctedWorkflowJson; [simpl; lia|..].
Qed.

Lemma readable_initial : Session.readable App.initial [].
Proof. exists JNull. split; [done|]. split; [done|]. by intros [|fuel] _. Qed.

Lemma readable_step (M : messages) (E : engine) (x y : AppState * heap) :
  Session.step M E x y →
  Session.separated (fst x) (snd x) →
  Session.readable (fst x) (snd x) → Session.readable (fst y) (snd y).
Proof.
  intros Hstep Hsep (t & Hcan & Hdepth & Hread).
  destruct (step_original M E x y Hstep Hsep)
    as [(t0 & Hparse & Hstore & Horig)|(Horig & Hlen & Hsame)].
  - destruct (build_legible t0 (parse_normal _ _ Hparse) (snd x)) as (t' & Hr & Hc & Hd).
    exists t'. rewrite Hstore, Horig. split; [done|]. split; [lia|].
    intros fuel Hfuel. specialize (Hr [] fuel Hfuel). by rewrite app_nil_r in Hr.
  - exists t. rewrite Horig. split; [done|]. split; [lia|].
    intros fuel Hfuel. rewrite Hsame. by apply Hread.
Qed.

(** In every state a session reaches, the original document
    serialises, to a value in canonical form. *)
Lemma session_readable (M : messages) (E : engine) (st : AppState) (h : heap) :
  rtc (Session.step M E) (App.initial, []) (st, h) → Session.readable st h.
Proof.
  intros Hrun.
  enough (∀ x y, rtc (Session.step M E) x y →
                 Session.separated (fst x) (snd x) ∧ Session.readable (fst x) (snd x) →
                 Session.separated (fst y) (snd y) ∧ Session.readable (fst y) (snd y))
    as Hall by exact (proj2 (Hall _ _ Hrun (conj separated_initial readable_initial))).
  clear. intros x y Hrun. induction Hrun as [x|x y z Hstep _ IH]; [done|].
  intros [Hsep Hread]. apply IH. split.
  - by apply (separated_step M E x y).
  - by apply (readable_step M E x y).
Qed.

(** X23. In every state a session reaches with an analysis result, no
    fix approved and a truthy original document, the memo is the 2-space
    serialisation of the original document. *)
Lemma session_nothing_approved (M : messages) (E : engine) (st : AppState) (h : heap)
  (r : AnalysisResult) :
  rtc (Session.step M E) (App.initial, []) (st, h) →
  analysisResult st = Some r →
  approvedFixes st = ∅ →
  App.truthy (originalWorkflow st) = true →
  ∃ text, JSON.stringify2 h (originalWorkflow st) = Some (Some text)
          ∧ snd (App.correctedWorkflowJson E st h) = Value (Some text).
Proof.
  intros Hrun Hr Happ Htruthy.
  destruct (session_readable M E st h Hrun) as (t & Hcan & Hdepth & Hread).
  assert (Store.serialize (Store.depth_bound h) h (originalWorkflow st) = Some (Some t))
    as Hser by (apply Hread; unfold Store.depth_bound; lia).
  exists (JSONText.renderIndented 0 t). unfold JSON.stringify2 at 1. rewrite Hser.
  split; [done|].
  destruct (build_reads t Hcan h) as [[ext Hext] Hreads].
  unfold App.correctedWorkflowJson. rewrite Hr, Htruthy. cbn [negb].
  unfold JSON.stringify. rewrite Hser. cbn [default from_option Datatypes.id].
  unfold JSON.parse. rewrite (parse_render t Hcan).
  destruct (Store.build t h) as [h1 c] eqn:Hb. cbn [fst snd] in *.
  rewrite Happ, applyFixes_none.
  unfold JSON.stringify2.
  pose proof (Hreads [] (Store.depth_bound h1)) as Hread1.
  rewrite app_nil_r in Hread1. rewrite Hread1; [done|].
  unfold Store.depth_bound. rewrite Hext, length_app. lia.
Qed.

(** ** The parser has fuel enough *)

Lemma skip_ws_length (s : string) :
  String.length (JSONText.skip_ws s) ≤ String.length s.
Proof.
  induction s as [|c s IH]; [done|]. cbn [JSONText.skip_ws].
  destruct (JSONText.is_ws c); cbn [String.length]; lia.
Qed.

Lemma dropChars_length (n : nat) (s : string) :
  String.length (Text.dropChars n s) ≤ String.length s.
Proof.
  revert s. induction n as [|n IH]; intros [|c s]; cbn [Text.dropChars String.length];
    try lia. specialize (IH s). lia.
Qed.

Lemma dropChars_startsWith (p s : string) :
  Text.startsWith p s = true →
  String.length (Text.dropChars (String.length p) s) + String.length p = String.length s.
Proof.
  revert s. induction p as [|a p IH]; intros s; [cbn; lia|].
  destruct s as [|b s]; [done|]. cbn [Text.startsWith Text.dropChars String.length].
  intros [_ H]%andb_true_iff. specialize (IH s H). lia.
Qed.

Lemma parseChars_length (n : nat) :
  ∀ s x r, String.length s ≤ n → JSONText.parseChars s = Some (x, r) →
    String.length r < String.length s.
Proof.
  induction n as [|n IH]; intros [|c t] x r Hn H; try done; cbn [String.length] in Hn;
    [lia|].
  cbn [JSONText.parseChars] in H. cbn [String.length].
  destruct (Ascii.eqb c Text.dq); [injection H as <- <-; lia|].
  destruct (Ascii.eqb c "\").
  - destruct t as [|e t']; [done|]. cbn [String.length] in *.
    assert (∀ y, (match JSONText.parseChars t' with
                  | Some (r0, rest) => Some (String y r0, rest)
                  | None => None
                  end = Some (x, r)) → String.length r < S (S (String.length t')))
      as Hlit.
    { intros y Hy. destruct (JSONText.parseChars t') as [[x2 r2]|] eqn:H2; [|done].
      injection Hy as <- <-. apply IH in H2; lia. }
    destruct t' as [|h1 [|h2 [|h3 [|h4 t'']]]];
      try (destruct (JSONText.parseChars t'') as [[x3 r3]|] eqn:H3;
           [apply IH in H3; [|cbn [String.length] in *; lia]|]);
      split_parse H; try (injection H as <- <-); cbn [String.length] in *;
      try lia; try (by eapply Hlit).
  - destruct (nat_of_ascii c <? 32); [done|].
    destruct (JSONText.parseChars t) as [[x1 r1]|] eqn:H1; [|done].
    apply IH in H1; [|lia]. injection H as <- <-. lia.
Qed.

Lemma takeDigits_length (s : string) (ds : list digit) (r : string) :
  Numeral.takeDigits s = (ds, r) → String.length s = length ds + String.length r.
Proof.
  revert ds r. induction s as [|c s IH]; intros ds r; cbn [Numeral.takeDigits].
  - by intros [= <- <-].
  - destruct (Numeral.char_digit c); [|by intros [= <- <-]].
    destruct (Numeral.takeDigits s) as [ds' r']. intros [= <- <-].
    cbn [String.length length]. by rewrite (IH ds' r' eq_refl).
Qed.

Lemma intPart_length (s : string) (ds : list digit) (r : string) :
  Numeral.intPart s = Some (ds, r) → String.length r < String.length s.
Proof.
  unfold Numeral.intPart. intros H.
  assert (String.length r < String.length s
          ∨ match Numeral.takeDigits s with
            | ([], _) => None
            | (ds', r') => Some (ds', r')
            end = Some (ds, r)) as [Hlt|Htake].
  { destruct s as [|c t]; [by right|].
    destruct (Ascii.eqb c "0") eqn:Hc.
    - apply Ascii.eqb_eq in Hc as ->. left. injection H as <- <-. cbn. lia.
    - right. destruct c as [[] [] [] [] [] [] [] []]; try done. }
  - done.
  - destruct (Numeral.takeDigits s) as [[|d ds'] r'] eqn:Ht; [done|].
    injection Htake as <- <-. apply takeDigits_length in Ht. cbn [length] in Ht. lia.
Qed.

Lemma fracPart_length (s : string) (ds : list digit) (r : string) :
  Numeral.fracPart s = Some (ds, r) → String.length r ≤ String.length s.
Proof.
  unfold Numeral.fracPart. intros H.
  destruct s as [|c t]; [by injection H as <- <-|].
  destruct (Ascii.eqb c ".") eqn:Hc.
  - apply Ascii.eqb_eq in Hc as ->.
    destruct (Numeral.takeDigits t) as [[|d ds'] r'] eqn:Ht; [done|].
    injection H as <- <-. apply takeDigits_length in Ht. cbn [String.length]. lia.
  - assert (Some ([], String c t) = Some (ds, r)) as [= <- <-]; [|done].
    destruct c as [[] [] [] [] [] [] [] []]; try done.
Qed.

Lemma expPart_length (s : string) (e : Z) (r : string) :
  Numeral.expPart s = Some (e, r) → String.length r ≤ String.length s.
Proof.
  unfold Numeral.expPart. intros H.
  destruct s as [|c t]; [by injection H as <- <-|].
  destruct (Ascii.eqb c "e" || Ascii.eqb c "E"); [|by injection H as <- <-].
  assert (∀ sgn u, match Numeral.takeDigits u with
                   | ([], _) => None
                   | (ds, r') => Some ((sgn * Z.of_N (Numeral.N_of_digits ds))%Z, r')
                   end = Some (e, r) → String.length r ≤ String.length u) as Hexp.
  { intros sgn u Hu. destruct (Numeral.takeDigits u) as [[|d ds] r'] eqn:Ht; [done|].
    injection Hu as <- <-. apply takeDigits_length in Ht. lia. }
  cbn [String.length].
  destruct t as [|c' t'].
  - apply Hexp in H. cbn [String.length] in H. lia.
  - destruct (Ascii.eqb c' "+") eqn:Hp; [apply Ascii.eqb_eq in Hp as ->|].
    { apply Hexp in H. cbn [String.length]. lia. }
    destruct (Ascii.eqb c' "-") eqn:Hm; [apply Ascii.eqb_eq in Hm as ->|].
    { apply Hexp in H. cbn [String.length]. lia. }
    assert (String.length r ≤ String.length (String c' t')); [|lia].
    apply (Hexp 1%Z). destruct c' as [[] [] [] [] [] [] [] []]; try done.
Qed.

Lemma parseNumber_length (s : string) (n : number) (r : string) :
  Numeral.parseNumber s = Some (n, r) → String.length r < String.length s.
Proof.
  assert (∀ neg s1, Numeral.parseUnsigned neg s1 = Some (n, r) →
                    String.length r < String.length s1) as Hun.
  { intros neg s1. unfold Numeral.parseUnsigned.
    destruct (Numeral.intPart s1) as [[int s2]|] eqn:Hi; [|done].
    destruct (Numeral.fracPart s2) as [[frac s3]|] eqn:Hf; [|done].
    destruct (Numeral.expPart s3) as [[e r']|] eqn:He; [|done].
    intros [= _ <-].
    apply intPart_length in Hi. apply fracPart_length in Hf. apply expPart_length in He.
    lia. }
  unfold Numeral.parseNumber. destruct s as [|c t]; [apply Hun|].
  destruct (Ascii.eqb c "-"); intros H%Hun; cbn [String.length] in *; lia.
Qed.

(** Every parser consumes part of the text. *)
Lemma parseValue_length (f : nat) :
  (∀ s t r, JSONText.parseValue f s = Some (t, r) → String.length r < String.length s)
  ∧ (∀ s xs r, JSONText.parseElements f s = Some (xs, r) →
       String.length r < String.length s)
  ∧ (∀ s ms r, JSONText.parseMembers f s = Some (ms, r) →
       String.length r < String.length s).
Proof.
  induction f as [|f (IHv & IHe & IHm)]; [done|].
  split; [|split].
  - intros s t r H. cbn [JSONText.parseValue] in H.
    pose proof (skip_ws_length s) as Hs.
    destruct (JSONText.skip_ws s) as [|c s']; [done|]. cbn [String.length] in Hs.
    pose proof (dropChars_length 3 s') as H3. pose proof (dropChars_length 4 s') as H4.
    pose proof (dropChars_length 1 (JSONText.skip_ws s')) as H1.
    pose proof (skip_ws_length s') as Hs'.
    remember (Text.dropChars 3 s') as q3 eqn:E3. clear E3.
    remember (Text.dropChars 4 s') as q4 eqn:E4. clear E4.
    remember (Text.dropChars 1 (JSONText.skip_ws s')) as q1 eqn:E1. clear E1.
    destruct (Numeral.parseNumber (String c s')) as [[n rn]|] eqn:Hn;
      [apply parseNumber_length in Hn; cbn [String.length] in Hn|];
      (destruct (JSONText.parseChars s') as [[str rs]|] eqn:Hc;
       [apply (parseChars_length _ _ _ _ (le_n _)) in Hc|]);
      (destruct (JSONText.parseElements f s') as [[xs rx]|] eqn:Hx;
       [apply IHe in Hx|]);
      (destruct (JSONText.parseMembers f s') as [[ms rm]|] eqn:Hm;
       [apply IHm in Hm|]);
      split_parse H; injection H as <- <-; lia.
  - intros s xs r H. cbn [JSONText.parseElements] in H.
    destruct (JSONText.parseValue f s) as [[v r1]|] eqn:Hv; [|done].
    apply IHv in Hv. pose proof (skip_ws_length r1) as Hs.
    destruct (JSONText.skip_ws r1) as [|c r2]; [done|]. cbn [String.length] in Hs.
    destruct (JSONText.parseElements f r2) as [[vs r3]|] eqn:Hvs; [apply IHe in Hvs|];
      split_parse H; injection H as <- <-; lia.
  - intros s ms r H. cbn [JSONText.parseMembers] in H.
    pose proof (skip_ws_length s) as Hs.
    destruct (JSONText.skip_ws s) as [|c s1]; [done|]. cbn [String.length] in Hs.
    destruct (Ascii.eqb c Text.dq); [|done].
    destruct (JSONText.parseChars s1) as [[k r1]|] eqn:Hk; [|done].
    apply (parseChars_length _ _ _ _ (le_n _)) in Hk.
    pose proof (skip_ws_length r1) as Hs1.
    destruct (JSONText.skip_ws r1) as [|c1 r2]; [done|]. cbn [String.length] in Hs1.
    destruct (JSONText.parseValue f r2) as [[v r3]|] eqn:Hv.
    2: { split_parse H. }
    apply IHv in Hv. pose proof (skip_ws_length r3) as Hs3.
    destruct (JSONText.skip_ws r3) as [|c3 r4].
    { split_parse H. }
    cbn [String.length] in Hs3.
    destruct (JSONText.parseMembers f r4) as [[ms' r5]|] eqn:Hms; [apply IHm in Hms|];
      split_parse H; injection H as <- <-; lia.
Qed.

Ltac by_character c H :=
  destruct c as [[] [] [] [] [] [] [] []]; try exact H.

(** A call of a parser succeeds with other fuel when the calls it makes
    do. *)
Lemma parseValue_lift (f f' : nat) (s : string) :
  (∀ t x, String.length t < String.length s →
          JSONText.parseElements f t = Some x → JSONText.parseElements f' t = Some x) →
  (∀ t x, String.length t < String.length s →
          JSONText.parseMembers f t = Some x → JSONText.parseMembers f' t = Some x) →
  ∀ x, JSONText.parseValue (S f) s = Some x → JSONText.parseValue (S f') s = Some x.
Proof.
  intros HE HM x H. cbn [JSONText.parseValue] in *.
  pose proof (skip_ws_length s) as Hs.
  destruct (JSONText.skip_ws s) as [|c t]; [done|]. cbn [String.length] in Hs.
  destruct (JSONText.parseElements f t) as [e|] eqn:He;
    [rewrite (HE t e ltac:(lia) He)|];
    (destruct (JSONText.parseMembers f t) as [m|] eqn:Hm;
     [rewrite (HM t m ltac:(lia) Hm)|]);
    try exact H; by_character c H; cbv beta iota in H;
    destruct (Text.startsWith _ _); first [exact H|discriminate H].
Qed.

Lemma parseElements_lift (f f' : nat) (s : string) :
  (∀ x, JSONText.parseValue f s = Some x → JSONText.parseValue f' s = Some x) →
  (∀ t x, String.length t < String.length s →
          JSONText.parseElements f t = Some x → JSONText.parseElements f' t = Some x) →
  ∀ x, JSONText.parseElements (S f) s = Some x → JSONText.parseElements (S f') s = Some x.
Proof.
  intros HV HE x H. cbn [JSONText.parseElements] in *.
  destruct (JSONText.parseValue f s) as [[v r]|] eqn:Hv; [|done].
  rewrite (HV (v, r) eq_refl). apply (proj1 (parseValue_length f)) in Hv.
  pose proof (skip_ws_length r) as Hs.
  destruct (JSONText.skip_ws r) as [|c r']; [done|]. cbn [String.length] in Hs.
  destruct (JSONText.parseElements f r') as [e|] eqn:He;
    [by rewrite (HE r' e ltac:(lia) He)|].
  by_character c H; cbv beta iota in H; discriminate H.
Qed.

Lemma parseMembers_lift (f f' : nat) (s : string) :
  (∀ t x, String.length t < String.length s →
          JSONText.parseValue f t = Some x → JSONText.parseValue f' t = Some x) →
  (∀ t x, String.length t < String.length s →
          JSONText.parseMembers f t = Some x → JSONText.parseMembers f' t = Some x) →
  ∀ x, JSONText.parseMembers (S f) s = Some x → JSONText.parseMembers (S f') s = Some x.
Proof.
  intros HV HM x H. cbn [JSONText.parseMembers] in *.
  pose proof (skip_ws_length s) as Hs.
  destruct (JSONText.skip_ws s) as [|c s1]; [done|]. cbn [String.length] in Hs.
  destruct (Ascii.eqb c Text.dq); [|done].
  destruct (JSONText.parseChars s1) as [[k r1]|] eqn:Hk; [|done].
  apply (parseChars_length _ _ _ _ (le_n _)) in Hk.
  pose proof (skip_ws_length r1) as Hs1.
  destruct (JSONText.skip_ws r1) as [|c1 r2]; [done|]. cbn [String.length] in Hs1.
  destruct (JSONText.parseValue f r2) as [[v r3]|] eqn:Hv.
  2: { by_character c1 H; cbv beta iota in H; discriminate H. }
  rewrite (HV r2 _ ltac:(lia) Hv). apply (proj1 (parseValue_length f)) in Hv.
  pose proof (skip_ws_length r3) as Hs3.
  destruct (JSONText.skip_ws r3) as [|c3 r4]; [done|]. cbn [String.length] in Hs3.
  destruct (JSONText.parseMembers f r4) as [m|] eqn:Hm;
    [by rewrite (HM r4 m ltac:(lia) Hm)|].
  by_character c1 H; cbv beta iota in H |- *.
  by_character c3 H; cbv beta iota in H; discriminate H.
Qed.

(** More fuel does not change what a parser finds. *)
Lemma parseValue_mono (f : nat) :
  (∀ s x f', f ≤ f' → JSONText.parseValue f s = Some x →
             JSONText.parseValue f' s = Some x)
  ∧ (∀ s x f', f ≤ f' → JSONText.parseElements f s = Some x →
               JSONText.parseElements f' s = Some x)
  ∧ (∀ s x f', f ≤ f' → JSONText.parseMembers f s = Some x →
               JSONText.parseMembers f' s = Some x).
Proof.
  induction f as [|f (IHv & IHe & IHm)]; [done|].
  split; [|split]; intros s x [|f'] Hle H; try lia.
  - apply (parseValue_lift f f' s); [| |done]; intros t y _; [apply IHe|apply IHm]; lia.
  - apply (parseElements_lift f f' s); [| |done]; [intros y|intros t y _];
      [apply IHv|apply IHe]; lia.
  - apply (parseMembers_lift f f' s); [| |done]; intros t y _; [apply IHv|apply IHm]; lia.
Qed.

Lemma parseValue_more (f f' : nat) (s : string) (x : json * string) :
  f ≤ f' → JSONText.parseValue f s = Some x → JSONText.parseValue f' s = Some x.
Proof. apply (proj1 (parseValue_mono f)). Qed.

Lemma parseElements_more (f f' : nat) (s : string) (x : list json * string) :
  f ≤ f' → JSONText.parseElements f s = Some x → JSONText.parseElements f' s = Some x.
Proof. apply (proj1 (proj2 (parseValue_mono f))). Qed.

Lemma parseMembers_more (f f' : nat) (s : string) (x : list (string * json) * string) :
  f ≤ f' → JSONText.parseMembers f s = Some x → JSONText.parseMembers f' s = Some x.
Proof. apply (proj2 (proj2 (parseValue_mono f))). Qed.

(** Whatever a parser finds with some fuel, it finds with fuel twice the
    length of the text. *)
Lemma parseValue_enough (n : nat) :
  ∀ s, String.length s ≤ n →
    (∀ f x, JSONText.parseValue f s = Some x →
            JSONText.parseValue (2 * String.length s) s = Some x)
    ∧ (∀ f x, JSONText.parseElements f s = Some x →
              JSONText.parseElements (2 * String.length s + 1) s = Some x)
    ∧ (∀ f x, JSONText.parseMembers f s = Some x →
              JSONText.parseMembers (2 * String.length s + 1) s = Some x).
Proof.
  induction n as [|n IH]; intros s Hn.
  - destruct s; [|cbn in Hn; lia].
    split; [|split]; intros [|f] [x r] H; try done; cbn in H; try done.
    by destruct f.
  - assert (∀ f x, JSONText.parseValue f s = Some x →
                   JSONText.parseValue (2 * String.length s) s = Some x) as HV.
    { intros [|f] [t r] H; [done|].
      pose proof (proj1 (parseValue_length _) _ _ _ H) as Hlen.
      replace (2 * String.length s) with (S (2 * String.length s - 1)) by lia.
      apply (parseValue_lift f _ s); [| |done]; intros u y Hu Hy.
      - apply (proj1 (proj2 (IH u ltac:(lia)))) in Hy.
        eapply parseElements_more; [|exact Hy]. lia.
      - apply (proj2 (proj2 (IH u ltac:(lia)))) in Hy.
        eapply parseMembers_more; [|exact Hy]. lia. }
    split; [exact HV|]. split.
    + intros [|f] [xs r] H; [done|].
      replace (2 * String.length s + 1) with (S (2 * String.length s)) by lia.
      apply (parseElements_lift f _ s); [| |done].
      * intros y Hy. by apply (HV f).
      * intros u y Hu Hy. apply (proj1 (proj2 (IH u ltac:(lia)))) in Hy.
        eapply parseElements_more; [|exact Hy]. lia.
    + intros [|f] [ms r] H; [done|].
      replace (2 * String.length s + 1) with (S (2 * String.length s)) by lia.
      apply (parseMembers_lift f _ s); [| |done]; intros u y Hu Hy.
      * apply (proj1 (IH u ltac:(lia))) in Hy.
        eapply parseValue_more; [|exact Hy]. lia.
      * apply (proj2 (proj2 (IH u ltac:(lia)))) in Hy.
        eapply parseMembers_more; [|exact Hy]. lia.
Qed.

(** The fuel [JSON.parse] runs with is enough: no fuel beyond it changes
    the outcome, so that a text it rejects is rejected whatever the
    fuel. *)
Lemma parseValue_fuel (s : string) (fuel : nat) :
  JSONText.fuel_for s ≤ fuel →
  JSONText.parseValue fuel s = JSONText.parseValue (JSONText.fuel_for s) s.
Proof.
  intros Hle.
  destruct (JSONText.parseValue (JSONText.fuel_for s) s) as [x|] eqn:Hfor.
  - by apply (parseValue_more (JSONText.fuel_for s)).
  - destruct (JSONText.parseValue fuel s) as [x|] eqn:Hfuel; [|done].
    apply (proj1 (parseValue_enough _ s (le_n _))) in Hfuel.
    apply (parseValue_more _ (JSONText.fuel_for s)) in Hfuel;
      [congruence|unfold JSONText.fuel_for; lia].
Qed.

(** A text [JSON.parse] finds no value in has none, whatever the fuel. *)
Lemma parseValue_rejects (s : string) :
  JSONText.parseValue (JSONText.fuel_for s) s = None →
  ∀ fuel, JSONText.parseValue fuel s = None.
Proof.
  intros Hnone fuel.
  destruct (JSONText.parseValue fuel s) as [x|] eqn:Hfuel; [|done].
  apply (proj1 (parseValue_enough _ s (le_n _))) in Hfuel.
  apply (parseValue_more _ (JSONText.fuel_for s)) in Hfuel;
    [congruence|unfold JSONText.fuel_for; lia].
Qed.

(** A text [JSON.parse] rejects holds no JSON value followed by white
    space only, whatever the fuel it is read with. *)
Lemma parse_rejects (s : string) :
  JSONText.parse s = None →
  ∀ fuel v r, JSONText.parseValue fuel s = Some (v, r) →
    JSONText.skip_ws r ≠ EmptyString.
Proof.
  intros Hparse fuel v r Hfuel Hrest.
  apply (proj1 (parseValue_enough _ s (le_n _))) in Hfuel.
  apply (parseValue_more _ (JSONText.fuel_for s)) in Hfuel;
    [|unfold JSONText.fuel_for; lia].
  unfold JSONText.parse in Hparse. by rewrite Hfuel, Hrest in Hparse.
Qed.

(** * Further properties *)

(** ** The approved-fix set and the sections *)

(** X1. [toggleFix] flips the membership of the id it is given and of no
    other, and changes nothing else in the session. *)
Theorem toggleFix_flips_one (errorId : string) (st : AppState) :
  (errorId ∈ approvedFixes (App.toggleFix errorId st) ↔ errorId ∉ approvedFixes st)
  ∧ (∀ i, i ≠ errorId →
          (i ∈ approvedFixes (App.toggleFix errorId st) ↔ i ∈ approvedFixes st))
  ∧ App.toggleFix errorId st = App.setApprovedFixes (approvedFixes (App.toggleFix errorId st)) st.
Proof.
  unfold App.toggleFix. cbn [approvedFixes App.setApprovedFixes].
  destruct (bool_decide_reflect (errorId ∈ approvedFixes st)) as [Hin|Hout].
  - split; [|split; [|done]].
    + rewrite elem_of_difference, elem_of_singleton. naive_solver.
    + intros i Hi. rewrite elem_of_difference, elem_of_singleton. naive_solver.
  - split; [|split; [|done]].
    + rewrite elem_of_union, elem_of_singleton. naive_solver.
    + intros i Hi. rewrite elem_of_union, elem_of_singleton. naive_solver.
Qed.

Lemma toggle_elem (x i : string) (X : gset string) :
  i ∈ (if bool_decide (x ∈ X) then X ∖ {[x]} else X ∪ {[x]})
  ↔ (i = x ∧ x ∉ X) ∨ (i ≠ x ∧ i ∈ X).
Proof.
  destruct (bool_decide_reflect (x ∈ X)) as [Hin|Hout].
  - rewrite elem_of_difference, elem_of_singleton. naive_solver.
  - rewrite elem_of_union, elem_of_singleton.
    destruct (decide (i = x)) as [->|Hne]; naive_solver.
Qed.

(** X2. Toggling two fixes gives the same session in either order. *)
Theorem toggleFix_commutes (a b : string) (st : AppState) :
  App.toggleFix a (App.toggleFix b st) = App.toggleFix b (App.toggleFix a st).
Proof.
  destruct st as [sg ji ar ae af os hk ow].
  unfold App.toggleFix, App.setApprovedFixes. cbn. f_equal.
  apply set_eq. intros i. rewrite !toggle_elem.
  destruct (decide (i = a)), (decide (i = b)), (decide (a ∈ af)), (decide (b ∈ af));
    naive_solver.
Qed.

(** X3. [approveAllFixes] forgets what was toggled before it: in a
    session that holds an analysis result, a toggle followed by
    [approveAllFixes] gives the session [approveAllFixes] gives alone. *)
Theorem approveAllFixes_absorbs_toggles (errorId : string) (st : AppState)
  (r : AnalysisResult) :
  analysisResult st = Some r →
  App.approveAllFixes (App.toggleFix errorId st) = App.approveAllFixes st.
Proof.
  intros Hr. unfold App.approveAllFixes. cbn [analysisResult App.toggleFix App.setApprovedFixes].
  by rewrite Hr.
Qed.

Lemma approveAllFixes_absorbs_toggles_witness :
  App.approveAllFixes (App.toggleFix "e2" Samples.showingResults)
  = App.approveAllFixes Samples.showingResults
  ∧ App.toggleFix "e2" Samples.showingResults ≠ Samples.showingResults.
Proof.
  split.
  - apply (approveAllFixes_absorbs_toggles "e2" Samples.showingResults Samples.twoIssues).
    reflexivity.
  - intros H. apply (f_equal approvedFixes) in H.
    assert ("e2"%string ∈ approvedFixes Samples.showingResults) as Hin by (simpl; set_solver).
    rewrite <- H in Hin. revert Hin. vm_compute. set_solver.
Defined.

(** X4. Let a section read as the code reads it, [prev[id]], which
    finds what objects inherit where the section has no entry.
    [toggleSection] flips the reading of the section it is given and of
    no other, and changes nothing else in the session; called twice it
    leaves every section reading as it did.  A section without an entry
    gets the entry [true] when first toggled, unless its id is a name
    objects inherit, such as [toString] or [constructor]: it then gets the
    entry [false]. *)
Theorem toggleSection_reads (E : engine) (i : string) (st : AppState) :
  let reading (s : AppState) (j : string) := App.sectionOpen E (openSections s) j in
  (∀ j, reading (App.toggleSection E i (App.toggleSection E i st)) j = reading st j)
  ∧ reading (App.toggleSection E i st) i = negb (reading st i)
  ∧ (∀ j, j ≠ i → reading (App.toggleSection E i st) j = reading st j)
  ∧ (openSections st !! i = None →
     openSections (App.toggleSection E i st) !! i
     = Some (negb (bool_decide (is_Some (inheritedFunction E false i))
                   || String.eqb i "__proto__")))
  ∧ App.toggleSection E i st
    = App.setOpenSections (openSections (App.toggleSection E i st)) st.
Proof.
  intros reading. unfold reading, App.toggleSection, App.sectionOpen.
  cbn [openSections App.setOpenSections].
  split; [|split; [|split; [|split]]].
  - intros j. destruct (decide (j = i)) as [->|Hne].
    + rewrite !lookup_insert_eq. rewrite negb_involutive.
      by destruct (openSections st !! i).
    + by rewrite !lookup_insert_ne.
  - rewrite lookup_insert_eq. by destruct (openSections st !! i).
  - intros j Hne. by rewrite lookup_insert_ne.
  - intros Hnone. by rewrite lookup_insert_eq, Hnone.
  - done.
Qed.

Lemma toggleSection_reads_witness :
  openSections (App.toggleSection Samples.engine0 "toString" App.initial) !! "toString"%string
  = Some false
  ∧ openSections (App.toggleSection Samples.engine0 "n1" App.initial) !! "n1"%string
    = Some true.
Proof.
  split.
  - destruct (toggleSection_reads Samples.engine0 "toString" App.initial)
      as (_ & _ & _ & Hfirst & _).
    rewrite (Hfirst eq_refl). reflexivity.
  - destruct (toggleSection_reads Samples.engine0 "n1" App.initial)
      as (_ & _ & _ & Hfirst & _).
    rewrite (Hfirst eq_refl). reflexivity.
Defined.

(** ** Submitting a text *)

(** The bytes a white-space character starts with. *)
Lemma blank_head (s : string) (c : ascii) (t : string) :
  Text.isBlank s = true → JSONText.skip_ws s = String c t →
  JSONText.is_ws c = false
  ∧ (Text.is_space c = true
     ∨ nat_of_ascii c = 194 ∨ nat_of_ascii c = 225 ∨ nat_of_ascii c = 226
     ∨ nat_of_ascii c = 227 ∨ nat_of_ascii c = 239).
Proof.
  induction s as [|c1 s IH]; [done|].
  intros Hblank Hskip. cbn [JSONText.skip_ws] in Hskip.
  destruct (JSONText.is_ws c1) eqn:Hws.
  - apply IH; [|done]. cbn [Text.isBlank] in Hblank.
    assert (Text.is_space c1 = true) as Hsp.
    { destruct c1 as [[] [] [] [] [] [] [] []]; try done. }
    by rewrite Hsp in Hblank.
  - injection Hskip as -> ->. split; [done|].
    cbn [Text.isBlank] in Hblank.
    destruct (Text.is_space c) eqn:Hsp; [by left|right].
    destruct t as [|c2 [|c3 t]]; [done| |].
    + destruct (Text.is_space2 c c2) eqn:H2; [|done].
      unfold Text.is_space2 in H2. apply andb_true_iff in H2 as [H2 _].
      apply Nat.eqb_eq in H2. by left.
    + destruct (Text.is_space2 c c2) eqn:H2.
      { unfold Text.is_space2 in H2. apply andb_true_iff in H2 as [H2 _].
        apply Nat.eqb_eq in H2. by left. }
      destruct (Text.is_space3 c c2 c3) eqn:H3; [|done].
      unfold Text.is_space3 in H3. cbv zeta in H3.
      repeat match type of H3 with
             | _ || _ = true => apply orb_true_iff in H3 as [H3|H3]
             end;
        repeat match type of H3 with
               | _ && _ = true => apply andb_true_iff in H3 as [H3 _]
               end;
        apply Nat.eqb_eq in H3; rewrite H3; auto.
Qed.

Lemma parseValue_blank_head (c : ascii) (t : string) (f : nat) :
  JSONText.is_ws c = false →
  (Text.is_space c = true
   ∨ nat_of_ascii c = 194 ∨ nat_of_ascii c = 225 ∨ nat_of_ascii c = 226
   ∨ nat_of_ascii c = 227 ∨ nat_of_ascii c = 239) →
  JSONText.parseValue f (String c t) = None.
Proof.
  intros Hws Hc. destruct f as [|f]; [done|].
  cbn [JSONText.parseValue JSONText.skip_ws]. rewrite Hws.
  destruct c as [[] [] [] [] [] [] [] []]; try discriminate Hws;
    try (exfalso; destruct Hc as [Hc|[Hc|[Hc|[Hc|[Hc|Hc]]]]]; vm_compute in Hc;
         discriminate Hc);
    reflexivity.
Qed.

(** A text of white space only is no JSON text. *)
Lemma blank_not_json (s : string) : Text.isBlank s = true → JSONText.parse s = None.
Proof.
  intros Hblank. unfold JSONText.parse.
  destruct (JSONText.skip_ws s) as [|c t] eqn:Hskip.
  - unfold JSONText.fuel_for. replace (2 * String.length s + 2) with (S (2 * String.length s + 1)) by lia.
    cbn [JSONText.parseValue]. by rewrite Hskip.
  - destruct (blank_head s c t Hblank Hskip) as [Hws Hc].
    pose proof (parseValue_blank_head c t (JSONText.fuel_for s) Hws Hc) as Hnone.
    assert (JSONText.parseValue (JSONText.fuel_for s) s
            = JSONText.parseValue (JSONText.fuel_for s) (String c t)) as ->; [|by rewrite Hnone].
    destruct (JSONText.fuel_for s) as [|f]; [done|].
    cbn [JSONText.parseValue]. rewrite Hskip. cbn [JSONText.skip_ws]. by rewrite Hws.
Qed.

(** X5. [handleAnalyze] calls the analyzer exactly when the submitted
    text is a JSON text: the check for an empty text refuses no JSON text,
    and what passes it without being JSON is refused by the parse. *)
Theorem analysis_starts_iff_json (st : AppState) (h : heap) :
  snd (App.handleAnalyze_begin st h) = true ↔ is_Some (JSONText.parse (jsonInput st)).
Proof.
  unfold App.handleAnalyze_begin, JSON.parse.
  destruct (Text.trim (jsonInput st)) as [|c s] eqn:Htrim.
  - apply trim_empty_iff, blank_not_json in Htrim. rewrite Htrim. cbn.
    split; [done|]. by intros [x Hx].
  - destruct (JSONText.parse (jsonInput st)) as [t|]; cbn.
    + destruct (Store.build t h). cbn. split; [eauto|done].
    + split; [done|]. by intros [x Hx].
Qed.

(** X6. A submitted JSON text is parsed into the store and becomes the
    document of the session, whatever the analysis answers.  When the
    analysis resolves, the session shows its result with no error, no
    approved fix and no open section; when it is rejected, the session is
    back in [input] with an error and without the result it held before. *)
Theorem submission_outcome (analyze : string → heap → heap * analysis) (st : AppState)
  (h h2 : heap) (t : json) (settled : analysis) :
  JSONText.parse (jsonInput st) = Some t →
  analyze (jsonInput st) (fst (Store.build t h)) = (h2, settled) →
  let after (sg : Stage) (r : option AnalysisResult) (e : option string) (k : bool) :=
    {| stage := sg; jsonInput := jsonInput st; analysisResult := r; apiError := e;
       approvedFixes := ∅; openSections := ∅; hasApiKey := k;
       originalWorkflow := snd (Store.build t h) |} in
  App.handleAnalyze analyze st h
  = match settled with
    | Resolved r => Some (after results (Some r) None (hasApiKey st), h2)
    | Rejected m =>
        if Text.includes "Requested entity was not found" m
        then Some (after input None
                     (Some "The selected API key is invalid or has been revoked. Please select a different key."%string)
                     false, h2)
        else Some (after input None (Some m) (hasApiKey st), h2)
    | Untyped => None
    end.
Proof.
  intros Hparse Hanalyze after.
  assert (Text.trim (jsonInput st) ≠ EmptyString) as Htrim.
  { intros Hblank%trim_empty_iff%blank_not_json. congruence. }
  unfold App.handleAnalyze, App.handleAnalyze_begin, JSON.parse. rewrite Hparse.
  destruct (Text.trim (jsonInput st)) as [|c s]; [done|].
  destruct (Store.build t h) as [h1 doc]. cbn [fst snd] in *.
  cbn [jsonInput App.setOriginalWorkflow App.setStage App.setApiError
         App.setAnalysisResult App.setApprovedFixes App.setOpenSections].
  rewrite Hanalyze. destruct settled as [r|m|]; [done| |done].
  unfold App.handleAnalyze_settle. by destruct (Text.includes _ m).
Qed.

Lemma submission_outcome_witness :
  App.handleAnalyze
    (fun _ => Service.analyzeWorkflow Samples.messages0 None (Reply None))
    (App.setJsonInput Samples.docEmpty Samples.showingResults) []
  = Some ({| stage := input; jsonInput := Samples.docEmpty; analysisResult := None;
             apiError := Some "API key is not configured. Please ensure the API_KEY environment variable is set."%string;
             approvedFixes := ∅; openSections := ∅; hasApiKey := true;
             originalWorkflow := VRef 0 |}, [Obj []]).
Proof.
  pose proof (submission_outcome
                (fun _ => Service.analyzeWorkflow Samples.messages0 None (Reply None))
                (App.setJsonInput Samples.docEmpty Samples.showingResults) [] [Obj []]
                (JObj [])
                (Rejected "API key is not configured. Please ensure the API_KEY environment variable is set.")
                ltac:(vm_compute; reflexivity) ltac:(vm_compute; reflexivity)) as H.
  cbv zeta in H. rewrite H. vm_compute. reflexivity.
Defined.

(** ** The analysis service *)

(** X7. Without a configured API key the analysis is rejected with the
    configuration message before anything is sent: the reply plays no
    part and the store is untouched; [handleAnalyze] then shows that
    message in the [input] stage and leaves the credential flag as it
    was. *)
Theorem missing_key_rejects (M : messages) (API_KEY : option string) (reply : apiReply)
  (h : heap) (st : AppState) :
  API_KEY = None ∨ API_KEY = Some EmptyString →
  let message :=
    "API key is not configured. Please ensure the API_KEY environment variable is set."%string in
  Service.analyzeWorkflow M API_KEY reply h = (h, Rejected message)
  ∧ App.handleAnalyze_settle (Rejected message) st
    = Some (App.setStage input (App.setApiError (Some message) st))
  ∧ hasApiKey (App.setStage input (App.setApiError (Some message) st)) = hasApiKey st
  ∧ apiError (App.setStage input (App.setApiError (Some message) st)) = Some message
  ∧ stage (App.setStage input (App.setApiError (Some message) st)) = input.
Proof. intros [->| ->] message; done. Qed.

Lemma missing_key_rejects_witness :
  Service.analyzeWorkflow Samples.messages0 (Some EmptyString)
    (Reply (Some Samples.responseBody)) [Obj []]
  = ([Obj []],
     Rejected "API key is not configured. Please ensure the API_KEY environment variable is set.").
Proof.
  apply (missing_key_rejects Samples.messages0 (Some EmptyString)
           (Reply (Some Samples.responseBody)) [Obj []] App.initial).
  by right.
Defined.

Lemma includes_after_prefix (m : string) :
  Text.includes "Requested entity was not found"
    ("Error analyzing workflow with Gemini: " +:+ m)
  = Text.includes "Requested entity was not found" m.
Proof.
  rewrite !append_cons. change (EmptyString +:+ m) with m.
  repeat match goal with
         | |- Text.includes ?n (String ?c ?t) = _ =>
             change (Text.includes n (String c t))
               with (Text.startsWith n (String c t) || Text.includes n t);
             change (Text.startsWith n (String c t)) with false;
             cbn [orb]
         end.
  reflexivity.
Qed.

(** X8. When the request to the model fails with an error that carries a
    message (its own, or that of its [error] property when it has one),
    the analysis is rejected with that message after the words "Error
    analyzing workflow with Gemini: "; [handleAnalyze] returns to [input]
    and clears the credential flag exactly when the message mentions
    "Requested entity was not found", showing the key message then and
    the rejection message otherwise. *)
Theorem api_failure_outcome (M : messages) (c0 : ascii) (key : string) (h : heap)
  (own : ErrorDetails) (nested : option ErrorDetails) (c : ascii) (m : string)
  (st : AppState) :
  e_message (default own nested) = Some (String c m) →
  let message := ("Error analyzing workflow with Gemini: " +:+ String c m)%string in
  let found := Text.includes "Requested entity was not found" (String c m) in
  Service.analyzeWorkflow M (Some (String c0 key)) (Failure (ThrownObject own nested)) h
  = (h, Rejected message)
  ∧ ∃ st', App.handleAnalyze_settle (Rejected message) st = Some st'
           ∧ stage st' = input
           ∧ hasApiKey st' = hasApiKey st && negb found
           ∧ apiError st'
             = Some (if found
                     then "The selected API key is invalid or has been revoked. Please select a different key."%string
                     else message).
Proof.
  intros Hm message found. split.
  - unfold Service.analyzeWorkflow, Service.errorMessage. by rewrite Hm.
  - unfold App.handleAnalyze_settle. unfold message at 1. rewrite includes_after_prefix.
    fold found. destruct found; eexists; (split; [reflexivity|]); cbn.
    + by rewrite andb_false_r.
    + by rewrite andb_true_r.
Qed.

Lemma api_failure_outcome_witness :
  ∃ st', App.handleAnalyze_settle
           (Rejected "Error analyzing workflow with Gemini: quota exceeded")
           Samples.showingResults = Some st'
         ∧ stage st' = input ∧ hasApiKey st' = true
         ∧ apiError st' = Some "Error analyzing workflow with Gemini: quota exceeded"%string.
Proof.
  destruct (api_failure_outcome Samples.messages0 "k" EmptyString []
              {| e_message := Some "outer"%string; e_status := None; e_code := None |}
              (Some {| e_message := Some "quota exceeded"%string; e_status := None;
                       e_code := None |})
              "q" "uota exceeded" Samples.showingResults eq_refl)
    as (_ & st' & Hsettle & Hstage & Hkey & Herr).
  exists st'. split; [exact Hsettle|]. split; [exact Hstage|]. split; [exact Hkey|exact Herr].
Defined.

Lemma postProcessAll_nodeId (received : list (WorkflowError * option json)) :
  ∀ h, Forall (fun e => nodeId e ≠ Some EmptyString) (snd (Service.postProcessAll h received)).
Proof.
  induction received as [|[error raw] rest IH]; intros h; [constructor|].
  cbn [Service.postProcessAll].
  destruct (Service.postProcess h (error, raw)) as [h1 e'] eqn:He.
  specialize (IH h1). destruct (Service.postProcessAll h1 rest) as [h2 rest'].
  cbn [snd] in *. constructor; [|done].
  unfold Service.postProcess in He.
  destruct (match raw with Some t => Store.build t h | None => (h, VUndefined) end)
    as [h0 rawValue].
  destruct (match JSON.parse _ h0 with Some (h3, parsed) => (h3, parsed) | None => _ end)
    as [h3 v].
  injection He as _ <-. cbn [nodeId].
  by destruct (nodeId error) as [[|c s]|].
Qed.

(** X9. No issue of a resolved analysis has the empty string for
    [nodeId]: where the model sent one, the field is absent. *)
Theorem resolved_nodeId_never_empty (M : messages) (API_KEY : option string)
  (reply : apiReply) (h h' : heap) (r : AnalysisResult) :
  Service.analyzeWorkflow M API_KEY reply h = (h', Resolved r) →
  Forall (fun e => nodeId e ≠ Some EmptyString) (errors r).
Proof.
  unfold Service.analyzeWorkflow.
  destruct API_KEY as [[|c key]|]; [done| |done].
  destruct reply as [text|e]; [|done].
  destruct (Service.processResponse M text h) as [h1 [e|a]] eqn:Hp; [done|].
  intros [= -> ->]. revert Hp. unfold Service.processResponse.
  repeat match goal with
         | |- context [match ?x with _ => _ end] =>
             lazymatch x with
             | Service.postProcessAll _ _ => fail
             | _ => destruct x
             end
         end; try done.
  match goal with
  | |- context [Service.postProcessAll h ?rs] =>
      pose proof (postProcessAll_nodeId rs h) as Hall;
      destruct (Service.postProcessAll h rs) as [h2 es']
  end.
  by intros [= _ <-].
Qed.

Lemma resolved_nodeId_never_empty_witness :
  ∃ r, snd (Samples.analysed Samples.docEmpty) = Resolved r
       ∧ map nodeId (errors r) = [None; Some "n1"%string; None].
Proof.
  destruct (snd (Samples.analysed Samples.docEmpty)) as [r| |] eqn:Hr;
    [|vm_compute in Hr; discriminate Hr..].
  exists r. split; [done|].
  pose proof (resolved_nodeId_never_empty Samples.messages0 (Some "key"%string)
                (Reply (Some Samples.fencedResponse))
                (snd (fst (Samples.submitted Samples.docEmpty)))
                (fst (Samples.analysed Samples.docEmpty)) r
                ltac:(unfold Samples.analysed in *;
                      destruct (Service.analyzeWorkflow _ _ _ _); cbn in *; by subst)) as _.
  vm_compute in Hr. injection Hr as <-. reflexivity.
Defined.

Lemma parse_number_text (n : number) :
  Numeral.normal n = true → JSONText.parse (Numeral.toString n) = Some (JNum n).
Proof. intros Hn. by apply (parse_render (JNum n)). Qed.

(** X10. A [newValue] that arrives as a number, a boolean or null, and
    not as a string, is stored as that same value, and one that is
    absent stays undefined; one that arrives as an object is kept as that
    object.  The store is touched in the last case only, by the object
    itself. *)
Theorem plain_newValue_kept (h : heap) (error : WorkflowError) :
  (∀ n, Numeral.normal n = true →
        let r := Service.postProcess h (error, Some (JNum n)) in
        fst r = h ∧ newValue (jsonModification (snd r)) = VNum n)
  ∧ (∀ b, let r := Service.postProcess h (error, Some (JBool b)) in
          fst r = h ∧ newValue (jsonModification (snd r)) = VBool b)
  ∧ (let r := Service.postProcess h (error, Some JNull) in
     fst r = h ∧ newValue (jsonModification (snd r)) = VNull)
  ∧ (let r := Service.postProcess h (error, None) in
     fst r = h ∧ newValue (jsonModification (snd r)) = VUndefined)
  ∧ (∀ ms, let r := Service.postProcess h (error, Some (JObj ms)) in
           (fst r, newValue (jsonModification (snd r))) = Store.build (JObj ms) h).
Proof.
  split; [|split; [|split; [|split]]].
  - intros n Hn. cbv zeta. unfold Service.postProcess, JSON.parse, Store.depth_bound.
    cbn [Store.build JSON.toString]. by rewrite (parse_number_text n Hn).
  - by intros [|].
  - done.
  - done.
  - intros ms. cbv zeta. unfold Service.postProcess. cbn [Store.build].
    destruct (Store.buildProps Store.build ms h []) as [h1 props].
    unfold Store.new, Store.depth_bound, JSON.parse.
    cbn [JSON.toString]. rewrite list_lookup_middle by done. done.
Qed.

Lemma plain_newValue_kept_witness :
  Service.postProcess [] (Samples.issue "e1" "a" VUndefined false, Some (JNum (Numeral.of_N 5)))
  = ([], Samples.issue "e1" "a" (VNum (Numeral.of_N 5)) false).
Proof.
  destruct (plain_newValue_kept [] (Samples.issue "e1" "a" VUndefined false))
    as (Hnum & _).
  destruct (Hnum (Numeral.of_N 5) eq_refl) as [Hh Hv].
  destruct (Service.postProcess [] _) as [h' e'] eqn:He. cbn [fst snd] in *. subst h'.
  f_equal. revert He. unfold Service.postProcess, JSON.parse, Store.depth_bound.
  cbn [Store.build JSON.toString]. rewrite (parse_number_text (Numeral.of_N 5) eq_refl).
  cbn [Store.build]. by intros [= <-].
Defined.

Lemma postProcess_extends (h : heap) (received : WorkflowError * option json) :
  ∃ ext, fst (Service.postProcess h received) = h ++ ext.
Proof.
  destruct received as [error raw]. unfold Service.postProcess.
  assert (∃ e1, fst (match raw with
                     | Some t => Store.build t h
                     | None => (h, VUndefined)
                     end) = h ++ e1) as [e1 He1].
  { destruct raw as [t|]; [apply build_extends|]. exists []. by rewrite app_nil_r. }
  destruct (match raw with Some t => Store.build t h | None => (h, VUndefined) end)
    as [h1 rawValue]. cbn [fst] in He1. subst h1.
  unfold JSON.parse.
  destruct (JSONText.parse _) as [t|]; [|by exists e1].
  destruct (build_extends t (h ++ e1)) as [e2 He2].
  destruct (Store.build t (h ++ e1)) as [h2 v]. cbn [fst] in *.
  exists (e1 ++ e2). by rewrite He2, app_assoc.
Qed.

Lemma postProcessAll_extends (received : list (WorkflowError * option json)) :
  ∀ h, ∃ ext, fst (Service.postProcessAll h received) = h ++ ext.
Proof.
  induction received as [|x rest IH]; intros h; [exists []; by rewrite app_nil_r|].
  cbn [Service.postProcessAll].
  destruct (postProcess_extends h x) as [e1 He1].
  destruct (Service.postProcess h x) as [h1 e']. cbn [fst] in He1. subst h1.
  destruct (IH (h ++ e1)) as [e2 He2].
  destruct (Service.postProcessAll (h ++ e1) rest) as [h2 rest']. cbn [fst] in *.
  exists (e1 ++ e2). by rewrite He2, app_assoc.
Qed.

(** X11. Whatever the key, the reply and the outcome, the analysis only
    adds objects to the store: every object that existed is where it was
    and as it was. *)
Theorem analysis_only_adds (M : messages) (API_KEY : option string) (reply : apiReply)
  (h : heap) :
  ∃ ext, fst (Service.analyzeWorkflow M API_KEY reply h) = h ++ ext
         ∧ ∀ l o, h !! l = Some o →
                  fst (Service.analyzeWorkflow M API_KEY reply h) !! l = Some o.
Proof.
  assert (∃ ext, fst (Service.analyzeWorkflow M API_KEY reply h) = h ++ ext) as [ext Hext].
  { unfold Service.analyzeWorkflow.
    destruct API_KEY as [[|c key]|]; try (exists []; by rewrite app_nil_r).
    destruct reply as [text|e]; [|exists []; by rewrite app_nil_r].
    assert (∃ ext, fst (Service.processResponse M text h) = h ++ ext) as [ext Hext].
    { unfold Service.processResponse.
      repeat match goal with
             | |- context [match ?x with _ => _ end] =>
                 lazymatch x with
                 | Service.postProcessAll _ _ => fail
                 | _ => destruct x
                 end
             end; try (exists []; by rewrite app_nil_r).
      match goal with
      | |- context [Service.postProcessAll h ?rs] =>
          destruct (postProcessAll_extends rs h) as [ext Hext];
          destruct (Service.postProcessAll h rs) as [h2 es']
      end.
      by exists ext. }
    destruct (Service.processResponse M text h) as [h' [e|a]]; by exists ext. }
  exists ext. split; [done|]. intros l o Hl. rewrite Hext. by apply lookup_app_l_Some.
Qed.

(** ** The corrected document *)

Lemma applyFixes_filter (E : engine) (approved : gset string) (es : list WorkflowError) :
  ∀ h c, App.applyFixes E approved h c es
         = App.applyFixes E approved h c (filter (fun e => id e ∈ approved) es).
Proof.
  induction es as [|e es IH]; intros h c; [done|].
  cbn [App.applyFixes]. destruct (decide (id e ∈ approved)) as [Hin|Hout].
  - rewrite filter_cons_True by done. cbn [App.applyFixes].
    rewrite bool_decide_eq_true_2 by done.
    destruct (Lodash.set E h c _ _) as [h' [| |]]; [apply IH|done|done].
  - rewrite filter_cons_False by done. rewrite bool_decide_eq_false_2 by done. apply IH.
Qed.

(** X12. The corrected document depends on the approved issues only:
    computing it with the other issues removed from the analysis result
    gives the same text and the same store. *)
Theorem unapproved_issues_are_ignored (E : engine) (st : AppState) (h : heap)
  (r : AnalysisResult) :
  analysisResult st = Some r →
  App.correctedWorkflowJson E st h
  = App.correctedWorkflowJson E
      (App.setAnalysisResult
         (Some {| isValid := isValid r; summary := summary r; textFlow := textFlow r;
                  nodeBreakdowns := nodeBreakdowns r;
                  errors := filter (fun e => id e ∈ approvedFixes st) (errors r) |}) st) h.
Proof.
  intros Hr. unfold App.correctedWorkflowJson.
  cbn [analysisResult originalWorkflow approvedFixes App.setAnalysisResult errors].
  rewrite Hr. destruct (negb (App.truthy (originalWorkflow st))); [done|].
  destruct (JSON.stringify h (originalWorkflow st)) as [text|]; [|done].
  destruct (JSON.parse _ h) as [[h1 c]|]; [|done].
  by rewrite applyFixes_filter.
Qed.

Lemma unapproved_issues_are_ignored_witness :
  App.correctedWorkflowJson Samples.engine0
    (Samples.patching Samples.docAB1 (VRef 1) "a.b" (VNum (Numeral.of_N 2)) [])
    (fst (Samples.parsed Samples.docAB1))
  = App.correctedWorkflowJson Samples.engine0
      (App.setAnalysisResult (Some (Samples.result []))
         (Samples.patching Samples.docAB1 (VRef 1) "a.b" (VNum (Numeral.of_N 2)) []))
      (fst (Samples.parsed Samples.docAB1)).
Proof.
  rewrite (unapproved_issues_are_ignored Samples.engine0
             (Samples.patching Samples.docAB1 (VRef 1) "a.b" (VNum (Numeral.of_N 2)) [])
             (fst (Samples.parsed Samples.docAB1))
             (Samples.result [Samples.issue "e1" "a.b" (VNum (Numeral.of_N 2)) false])
             eq_refl).
  reflexivity.
Defined.

Lemma applyFixes_primitive (E : engine) (approved : gset string) (h : heap) (c : value)
  (es : list WorkflowError) :
  Lodash.isObject c = false → App.applyFixes E approved h c es = (h, Returned).
Proof.
  intros Hc. induction es as [|e es IH]; [done|]. cbn [App.applyFixes].
  unfold Lodash.set. rewrite Hc. by destruct (bool_decide _).
Qed.

(** X13. A document that is a string, a number or [true], and not an
    object or an array, cannot be patched: whatever the issues and
    whatever is approved, the corrected document is the serialisation of
    the original, and the store is untouched. *)
Theorem primitive_document_is_not_patched (E : engine) (st : AppState) (h : heap)
  (r : AnalysisResult) :
  analysisResult st = Some r →
  App.truthy (originalWorkflow st) = true →
  Lodash.isObject (originalWorkflow st) = false →
  (∀ n, originalWorkflow st = VNum n → Numeral.normal n = true) →
  ∃ text, JSON.stringify2 h (originalWorkflow st) = Some (Some text)
          ∧ App.correctedWorkflowJson E st h = (h, Value (Some text)).
Proof.
  intros Hr Htruthy Hprim Hnormal.
  assert (∃ t, Store.canonical t = true
               ∧ (∀ fuel, Store.serialize fuel h (originalWorkflow st) = Some (Some t))
               ∧ Store.build t h = (h, originalWorkflow st)) as (t & Hcan & Hser & Hbuild).
  { destruct (originalWorkflow st) as [| |b|n|s|l|f] eqn:Hv; try done.
    - exists (JBool b). split; [done|]. split; [by intros [|fuel]|done].
    - exists (JNum n). split; [by apply Hnormal|]. split; [by intros [|fuel]|done].
    - exists (JStr s). split; [done|]. split; [by intros [|fuel]|done]. }
  exists (JSONText.renderIndented 0 t).
  unfold JSON.stringify2 at 1. rewrite Hser. split; [done|].
  unfold App.correctedWorkflowJson. rewrite Hr, Htruthy. cbn [negb].
  unfold JSON.stringify. rewrite Hser. cbn [default from_option Datatypes.id].
  unfold JSON.parse. rewrite (parse_render t Hcan), Hbuild.
  rewrite applyFixes_primitive by done.
  unfold JSON.stringify2. by rewrite Hser.
Qed.

Lemma primitive_document_is_not_patched_witness :
  App.correctedWorkflowJson Samples.engine0
    (Samples.patching (Text.q "'flow'") (VStr "flow") "length" (VNum (Numeral.of_N 1))
       ["e1"%string]) []
  = ([], Value (Some (Text.q "'flow'"))).
Proof.
  destruct (primitive_document_is_not_patched Samples.engine0
              (Samples.patching (Text.q "'flow'") (VStr "flow") "length"
                 (VNum (Numeral.of_N 1)) ["e1"%string]) []
              (Samples.result [Samples.issue "e1" "length" (VNum (Numeral.of_N 1)) false])
              eq_refl eq_refl eq_refl
              ltac:(intros n [=])) as (text & Htext & Hmemo).
  rewrite Hmemo. vm_compute in Htext. by injection Htext as <-.
Defined.

(** ** The deep write *)

Lemma lookupProp_replaceProp_ne (props : list (string * value)) (key k' : string)
  (v : value) :
  k' ≠ key →
  Store.lookupProp (Store.replaceProp props key v) k' = Store.lookupProp props k'.
Proof.
  intros Hne. induction props as [|[k w] props IH]; [done|].
  cbn [Store.replaceProp]. destruct (String.eqb k key) eqn:Hk.
  - apply String.eqb_eq in Hk as ->. cbn [Store.lookupProp].
    by rewrite (proj2 (String.eqb_neq key k')).
  - cbn [Store.lookupProp]. by rewrite IH.
Qed.

Lemma lookupProp_insertIndexed_ne (props : list (string * value)) (i : N)
  (key k' : string) (v : value) :
  k' ≠ key →
  Store.lookupProp (Store.insertIndexed props i key v) k' = Store.lookupProp props k'.
Proof.
  intros Hne.
  assert (Store.lookupProp ((key, v) :: props) k' = Store.lookupProp props k') as Hhead.
  { cbn [Store.lookupProp]. by rewrite (proj2 (String.eqb_neq key k')). }
  induction props as [|[k w] props IH]; [done|].
  cbn [Store.insertIndexed].
  destruct (Store.arrayIndex k) as [j|]; [destruct (j <? i)%N|].
  - cbn [Store.lookupProp]. rewrite IH; [done|].
    cbn [Store.lookupProp]. by rewrite (proj2 (String.eqb_neq key k')).
  - cbn [Store.lookupProp]. by rewrite (proj2 (String.eqb_neq key k')).
  - cbn [Store.lookupProp]. by rewrite (proj2 (String.eqb_neq key k')).
Qed.

Lemma lookupProp_snoc_ne (props : list (string * value)) (key k' : string) (v : value) :
  k' ≠ key →
  Store.lookupProp (props ++ [(key, v)]) k' = Store.lookupProp props k'.
Proof.
  intros Hne. induction props as [|[k w] props IH]; cbn [app Store.lookupProp].
  - by rewrite (proj2 (String.eqb_neq key k')).
  - by rewrite IH.
Qed.

Lemma lookupProp_putProp_ne (props : list (string * value)) (key k' : string) (v : value) :
  k' ≠ key →
  Store.lookupProp (Store.putProp props key v) k' = Store.lookupProp props k'.
Proof.
  intros Hne. unfold Store.putProp.
  destruct (Store.lookupProp props key); [by apply lookupProp_replaceProp_ne|].
  destruct (Store.arrayIndex key);
    [by apply lookupProp_insertIndexed_ne|by apply lookupProp_snoc_ne].
Qed.

Lemma set_plain (E : engine) (h : heap) (l : loc) (props : list (string * value))
  (key : string) (v : value) :
  h !! l = Some (Obj props) →
  Lodash.isDeepProp key = false →
  Lodash.isUnsafeKey key = false →
  Lodash.set E h (VRef l) key v
  = (<[l := Obj (Store.putProp props key v)]> h, Returned).
Proof.
  intros Hl Hdeep Hsafe.
  unfold Lodash.set, Lodash.castPath, Lodash.isKey. rewrite Hdeep. cbn [negb orb Lodash.isObject].
  rewrite baseSetLoop_step, Hsafe. cbn [Store.set]. by rewrite Hl.
Qed.

(** X14. A write under a plain key (no dot, no bracket pair) of an
    object sets that property and touches nothing else: the key reads as
    the value written, every other key of the object reads as before, and
    every other object of the store is as it was. *)
Theorem set_plain_key_frame (E : engine) (h : heap) (l : loc)
  (props : list (string * value)) (key : string) (v : value) :
  h !! l = Some (Obj props) →
  Lodash.isDeepProp key = false →
  Lodash.isUnsafeKey key = false →
  let h' := fst (Lodash.set E h (VRef l) key v) in
  snd (Lodash.set E h (VRef l) key v) = Returned
  ∧ Store.get h' (VRef l) key = v
  ∧ (∀ k', k' ≠ key → Store.get h' (VRef l) k' = Store.get h (VRef l) k')
  ∧ (∀ l', l' ≠ l → h' !! l' = h !! l')
  ∧ length h' = length h.
Proof.
  intros Hl Hdeep Hsafe h'. unfold h'. rewrite (set_plain E h l props key v Hl Hdeep Hsafe).
  pose proof (lookup_lt_Some _ _ _ Hl) as Hlt. cbn [fst snd].
  split; [done|]. split; [|split; [|split]].
  - unfold Store.get. rewrite list_lookup_insert_eq by done.
    cbn [Store.getOwn]. by rewrite lookupProp_putProp.
  - intros k' Hne. unfold Store.get. rewrite list_lookup_insert_eq by done. rewrite Hl.
    cbn [Store.getOwn]. by rewrite lookupProp_putProp_ne.
  - intros l' Hne. by rewrite list_lookup_insert_ne.
  - by rewrite length_insert.
Qed.

Lemma set_plain_key_frame_witness :
  Store.get (fst (Lodash.set Samples.engine0
                    [Obj [("name"%string, VStr "flow"); ("active"%string, VBool false)]]
                    (VRef 0) "active" (VBool true))) (VRef 0) "name"
  = VStr "flow".
Proof.
  destruct (set_plain_key_frame Samples.engine0
              [Obj [("name"%string, VStr "flow"); ("active"%string, VBool false)]] 0
              [("name"%string, VStr "flow"); ("active"%string, VBool false)]
              "active" (VBool true) eq_refl eq_refl eq_refl) as (_ & _ & Hother & _).
  rewrite (Hother "name"%string ltac:(discriminate)). reflexivity.
Defined.

Lemma replaceProp_replaceProp (props : list (string * value)) (key : string)
  (v1 v2 : value) :
  Store.replaceProp (Store.replaceProp props key v1) key v2 = Store.replaceProp props key v2.
Proof.
  induction props as [|[k w] props IH]; [done|]. cbn [Store.replaceProp].
  destruct (String.eqb k key) eqn:Hk; cbn [Store.replaceProp]; rewrite Hk; [done|].
  by rewrite IH.
Qed.

Lemma replaceProp_insertIndexed (props : list (string * value)) (i : N) (key : string)
  (v1 v2 : value) :
  Store.lookupProp props key = None →
  Store.replaceProp (Store.insertIndexed props i key v1) key v2
  = Store.insertIndexed props i key v2.
Proof.
  induction props as [|[k w] props IH]; intros Hnone.
  - cbn. by rewrite String.eqb_refl.
  - cbn [Store.lookupProp] in Hnone. destruct (String.eqb k key) eqn:Hk; [done|].
    cbn [Store.insertIndexed].
    destruct (Store.arrayIndex k) as [j|]; [destruct (j <? i)%N|];
      cbn [Store.replaceProp]; rewrite ?Hk, ?String.eqb_refl; [|done..].
    by rewrite IH.
Qed.

Lemma replaceProp_snoc (props : list (string * value)) (key : string) (v1 v2 : value) :
  Store.lookupProp props key = None →
  Store.replaceProp (props ++ [(key, v1)]) key v2 = props ++ [(key, v2)].
Proof.
  induction props as [|[k w] props IH]; intros Hnone.
  - cbn. by rewrite String.eqb_refl.
  - cbn [Store.lookupProp] in Hnone. destruct (String.eqb k key) eqn:Hk; [done|].
    cbn [app Store.replaceProp]. rewrite Hk. by rewrite IH.
Qed.

Lemma putProp_putProp (props : list (string * value)) (key : string) (v1 v2 : value) :
  Store.putProp (Store.putProp props key v1) key v2 = Store.putProp props key v2.
Proof.
  unfold Store.putProp at 1. rewrite lookupProp_putProp. unfold Store.putProp.
  destruct (Store.lookupProp props key) eqn:Hl; [apply replaceProp_replaceProp|].
  destruct (Store.arrayIndex key);
    [by apply replaceProp_insertIndexed|by apply replaceProp_snoc].
Qed.

(** X15. The last write wins: two writes under the same plain key of an
    object leave the store as the second alone does, the property in the
    place it had, or would have taken, in the enumeration. *)
Theorem last_write_wins (E : engine) (h : heap) (l : loc) (props : list (string * value))
  (key : string) (v1 v2 : value) :
  h !! l = Some (Obj props) →
  Lodash.isDeepProp key = false →
  Lodash.isUnsafeKey key = false →
  Lodash.set E (fst (Lodash.set E h (VRef l) key v1)) (VRef l) key v2
  = Lodash.set E h (VRef l) key v2.
Proof.
  intros Hl Hdeep Hsafe. pose proof (lookup_lt_Some _ _ _ Hl) as Hlt.
  rewrite (set_plain E h l props key v1 Hl Hdeep Hsafe). cbn [fst].
  rewrite (set_plain E _ l (Store.putProp props key v1) key v2);
    [|by rewrite list_lookup_insert_eq|done|done].
  rewrite (set_plain E h l props key v2 Hl Hdeep Hsafe).
  by rewrite list_insert_insert_eq, putProp_putProp.
Qed.

Lemma last_write_wins_witness :
  Lodash.set Samples.engine0
    (fst (Lodash.set Samples.engine0 [Obj [("name"%string, VStr "flow")]] (VRef 0)
            "retries" (VNum (Numeral.of_N 3))))
    (VRef 0) "retries" (VNum (Numeral.of_N 5))
  = ([Obj [("name"%string, VStr "flow"); ("retries"%string, VNum (Numeral.of_N 5))]],
     Returned).
Proof.
  rewrite (last_write_wins Samples.engine0 [Obj [("name"%string, VStr "flow")]] 0
             [("name"%string, VStr "flow")] "retries" (VNum (Numeral.of_N 3))
             (VNum (Numeral.of_N 5)) eq_refl eq_refl eq_refl).
  reflexivity.
Defined.

(** ** Paths *)

Lemma takeName_app (n rest : string) :
  Lodash.takeName n = n →
  (rest = EmptyString ∨ ∃ t, rest = String "." t) →
  Lodash.takeName (n +:+ rest) = n.
Proof.
  intros Hn Hrest. induction n as [|c n IH].
  - destruct Hrest as [->|[t ->]]; reflexivity.
  - rewrite append_cons. cbn [Lodash.takeName] in *.
    destruct (Lodash.is_path_char c); [|done].
    injection Hn as Hn. by rewrite IH.
Qed.

Lemma scanPath_skip (n rest : string) :
  Lodash.scanPath (String.length n) (n +:+ rest) = Lodash.scanPath 0 rest.
Proof. induction n as [|c n IH]; [done|]. rewrite append_cons. exact IH. Qed.

Lemma plain_head (n : string) :
  n ≠ EmptyString → Lodash.takeName n = n →
  ∃ c n', n = String c n' ∧ Lodash.is_path_char c = true.
Proof.
  destruct n as [|c n']; [done|]. intros _ Hn. exists c, n'. split; [done|].
  cbn [Lodash.takeName] in Hn. by destruct (Lodash.is_path_char c).
Qed.

Lemma scanPath_name (n rest : string) :
  n ≠ EmptyString → Lodash.takeName n = n →
  (rest = EmptyString ∨ ∃ t, rest = String "." t) →
  Lodash.scanPath 0 (n +:+ rest) = n :: Lodash.scanPath 0 rest.
Proof.
  intros Hne Hn Hrest. pose proof (takeName_app n rest Hn Hrest) as Htake.
  destruct (plain_head n Hne Hn) as (c & n' & -> & Hc).
  rewrite append_cons in *. cbn [Lodash.scanPath].
  unfold Lodash.matchPropName. rewrite Hc, Htake.
  cbn [String.length]. rewrite Nat.sub_succ, Nat.sub_0_r.
  by rewrite scanPath_skip.
Qed.

Lemma scanPath_dot (n rest : string) :
  n ≠ EmptyString → Lodash.takeName n = n →
  Lodash.scanPath 0 (String "." (n +:+ rest)) = Lodash.scanPath 0 (n +:+ rest).
Proof.
  intros Hne Hn. destruct (plain_head n Hne Hn) as (c & n' & -> & Hc).
  rewrite append_cons. cbn [Lodash.scanPath].
  assert (Lodash.matchPropName (String "." (String c (n' +:+ rest))) = None) as ->; [|done].
  unfold Lodash.matchPropName. cbn [Lodash.is_path_char Ascii.eqb Bool.eqb orb negb andb].
  unfold Lodash.startsEmptyPart. cbn [Text.startsWith].
  unfold Lodash.is_path_char in Hc. apply negb_true_iff in Hc.
  apply orb_false_iff in Hc as [[Hdot Hopen]%orb_false_iff Hclose].
  rewrite (Ascii.eqb_sym "." c), (Ascii.eqb_sym "[" c), Hdot, Hopen. done.
Qed.

Lemma scanPath_names (names : list string) :
  Forall (fun n => n ≠ EmptyString ∧ Lodash.takeName n = n) names →
  Lodash.scanPath 0 (JSONText.join "." names) = names.
Proof.
  induction 1 as [|n names [Hne Hn] Hnames IH]; [done|].
  destruct names as [|n2 names].
  - cbn [JSONText.join]. rewrite <- (append_nil_r n) at 1.
    rewrite scanPath_name by auto. done.
  - change (JSONText.join "." (n :: n2 :: names))
      with (n +:+ "." +:+ JSONText.join "." (n2 :: names)).
    rewrite scanPath_name; [|done|done|right; eexists; reflexivity].
    f_equal. apply Forall_cons in Hnames as [[Hne2 Hn2] _].
    assert (∃ rest, JSONText.join "." (n2 :: names) = n2 +:+ rest) as [rest Hrest].
    { destruct names; [exists EmptyString; cbn; by rewrite append_nil_r|].
      eexists. reflexivity. }
    change ("." +:+ JSONText.join "." (n2 :: names))
      with (String "." (JSONText.join "." (n2 :: names))).
    rewrite Hrest, scanPath_dot by done. by rewrite <- Hrest.
Qed.

Lemma isDeepProp_dot (n rest : string) : Lodash.isDeepProp (n +:+ String "." rest) = true.
Proof.
  induction n as [|c n IH]; [done|]. rewrite append_cons. cbn [Lodash.isDeepProp].
  rewrite IH. by rewrite orb_true_r.
Qed.

(** X16. A path written as names joined by dots, each name non-empty and
    free of dots and brackets, is read as the list of those names; it
    addresses them in that order unless the object written to has an own
    property whose name is the whole path. *)
Theorem dotted_path_segments (names : list string) :
  names ≠ [] →
  Forall (fun n => n ≠ EmptyString ∧ Lodash.takeName n = n) names →
  Lodash.stringToPath (JSONText.join "." names) = names
  ∧ ∀ h object, Store.has h object (JSONText.join "." names) = false →
                Lodash.castPath h (JSONText.join "." names) object = names.
Proof.
  intros Hnil Hnames.
  assert (Lodash.stringToPath (JSONText.join "." names) = names) as Hpath.
  { unfold Lodash.stringToPath. rewrite scanPath_names by done.
    destruct names as [|n names]; [done|].
    apply Forall_cons in Hnames as [[Hne Hn] _].
    destruct (plain_head n Hne Hn) as (c & n' & -> & Hc).
    assert (∃ rest, JSONText.join "." (String c n' :: names) = String c rest) as [rest ->].
    { destruct names; eexists; reflexivity. }
    cbn [Text.startsWith]. unfold Lodash.is_path_char in Hc. apply negb_true_iff in Hc.
    apply orb_false_iff in Hc as [[Hdot _]%orb_false_iff _].
    by rewrite (Ascii.eqb_sym "." c), Hdot. }
  split; [done|]. intros h object Hhas.
  unfold Lodash.castPath, Lodash.isKey. rewrite Hhas, orb_false_r.
  destruct (Lodash.isDeepProp (JSONText.join "." names)) eqn:Hdeep; [done|].
  cbn [negb]. destruct names as [|n [|n2 names]]; [done|done|].
  change (JSONText.join "." (n :: n2 :: names))
    with (n +:+ String "." (JSONText.join "." (n2 :: names))) in Hdeep.
  by rewrite isDeepProp_dot in Hdeep.
Qed.

Lemma dotted_path_segments_witness :
  Lodash.stringToPath "nodes.parameters.retries" = ["nodes"; "parameters"; "retries"]%string.
Proof.
  apply (dotted_path_segments ["nodes"; "parameters"; "retries"]%string); [done|].
  repeat constructor; done.
Defined.

(** ** The copy the patches are applied to *)

(** X17. [JSON.parse(JSON.stringify(v))] is a deep copy: for a value that
    serialises, in canonical form, the parse of its text succeeds, only
    adds objects to the store, and gives a value made of new objects only
    (it shares none with [v] or with anything that existed) that
    serialises to the same text. *)
Theorem deep_copy_is_fresh (h : heap) (v : value) (t : json) :
  Store.serialize (Store.depth_bound h) h v = Some (Some t) →
  Store.canonical t = true →
  ∃ text h' c,
    JSON.stringify h v = Some (Some text)
    ∧ JSON.parse text h = Some (h', c)
    ∧ (∃ ext, h' = h ++ ext)
    ∧ (∀ l, Graph.reach h' c l → length h ≤ l < length h')
    ∧ JSON.stringify h' c = Some (Some text).
Proof.
  intros Hser Hcan.
  destruct (build_reads t Hcan h) as [[ext Hext] Hreads].
  pose proof (build_fresh t h) as [Hclosed Hwithin]. cbv zeta in Hclosed, Hwithin.
  exists (JSONText.render t), (fst (Store.build t h)), (snd (Store.build t h)).
  split; [unfold JSON.stringify; by rewrite Hser|].
  split; [unfold JSON.parse; rewrite (parse_render t Hcan); by destruct (Store.build t h)|].
  split; [by exists ext|].
  split; [intros l Hl; by apply (reach_closed _ _ _ _ Hclosed Hwithin Hl)|].
  unfold JSON.stringify.
  pose proof (Hreads [] (Store.depth_bound (fst (Store.build t h)))) as Hread.
  rewrite app_nil_r in Hread. rewrite Hread; [done|].
  apply serialize_depth in Hser. unfold Store.depth_bound in *.
  rewrite Hext, length_app. lia.
Qed.

Lemma deep_copy_is_fresh_witness :
  ∃ h' c, JSON.parse Samples.docAB1' (fst (Samples.parsed Samples.docAB1)) = Some (h', c)
          ∧ length h' = 4
          ∧ JSON.stringify h' c = Some (Some Samples.docAB1').
Proof.
  destruct (deep_copy_is_fresh (fst (Samples.parsed Samples.docAB1)) (VRef 1)
              (JObj [("a"%string, JObj [("b"%string, JNum (Numeral.of_N 1))])])
              ltac:(vm_compute; reflexivity) ltac:(vm_compute; reflexivity))
    as (text & h' & c & Htext & Hparse & [ext Hext] & _ & Hcopy).
  vm_compute in Htext. injection Htext as <-.
  exists h', c. split; [exact Hparse|]. split; [|exact Hcopy].
  revert Hparse. vm_compute. by intros [= <- _].
Defined.

(** ** The session through the interface *)

Lemma consistent_initial : Interface.consistent App.initial.
Proof. by repeat split. Qed.

Lemma consistent_step (bridge : bool) (M : messages) (E : engine)
  (x y : AppState * heap) :
  Interface.step bridge M E x y →
  Interface.consistent (fst x) → Interface.consistent (fst y).
Proof.
  intros Hstep.
  destruct Hstep as [b st h Hb|st h Hb Hk|st h Hb Hk|s st h Hk Hstage
                    |st h st' h' called Hk Hstage Hen Hbegin
                    |key reply settled st h st' h' Hstage Hservice Hsettle
                    |e r st h Hshown He Hoffer|r st h Hshown Hes|r st h Hshown|st h];
    cbn [fst]; intros (Hres & Hana & Happ & Hopen); try done.
  - unfold App.handleAnalyze_begin in Hbegin.
    destruct (Text.trim (jsonInput st)); [by injection Hbegin as <- _ _|].
    destruct (JSON.parse (jsonInput st) h) as [[h1 doc]|]; [|by injection Hbegin as <- _ _].
    injection Hbegin as <- _ _. by repeat split.
  - specialize (Hana Hstage). rewrite Hana in Happ.
    destruct settled as [r|m|]; cbn in Hsettle; [| |done]; injection Hsettle as <-.
    + split; [cbn; eauto|]. split; [done|]. split; [|done].
      cbn. rewrite Happ. set_solver.
    + assert (∀ s, analysisResult s = None → approvedFixes s = ∅ → openSections s = ∅ →
                   Interface.consistent (App.setStage input s)) as Hinput.
      { intros s Hr Ha Ho. split; [done|]. split; [done|]. cbn. by rewrite Hr. }
      destruct (Text.includes _ m); by apply Hinput.
  - unfold View.resultsShown in Hshown. destruct (hasApiKey st); [|done].
    destruct (stage st) eqn:Hstage; try done.
    split; [cbn; rewrite Hstage; auto|]. split; [cbn; by rewrite Hstage|]. split; [|done].
    cbn [analysisResult approvedFixes App.toggleFix App.setApprovedFixes].
    rewrite Hshown in Happ |- *. intros i [[-> _]|[_ Hi]]%toggle_elem; eauto.
  - unfold View.resultsShown in Hshown. destruct (hasApiKey st); [|done].
    destruct (stage st) eqn:Hstage; try done.
    unfold App.approveAllFixes. rewrite Hshown.
    split; [cbn; eauto|]. split; [cbn; by rewrite Hstage|]. split; [|done].
    cbn [analysisResult approvedFixes App.setApprovedFixes]. rewrite Hshown.
    intros i (e & He & Hid & Hauto)%elem_of_autoFixable.
    exists e. unfold View.acceptOffered. by rewrite Hauto.
Qed.

Lemma consistent_run (bridge : bool) (M : messages) (E : engine) (st : AppState) (h : heap) :
  rtc (Interface.step bridge M E) (App.initial, []) (st, h) → Interface.consistent st.
Proof.
  intros Hrun.
  enough (∀ x y, rtc (Interface.step bridge M E) x y →
                 Interface.consistent (fst x) → Interface.consistent (fst y))
    as Hall by exact (Hall _ _ Hrun consistent_initial).
  clear. intros x y Hrun. induction Hrun as [x|x y z Hstep _ IH]; [done|].
  intros Hx. by apply IH, (consistent_step bridge M E x y).
Qed.

(** The steps of the interface by which [doc], a JSON text, is analysed. *)
Lemma interface_analysed (bridge : bool) (doc : string) :
  bridge = true →
  snd (Walk.submitted doc) = true →
  rtc (Interface.step bridge Samples.messages0 Samples.engine0) (App.initial, [])
    (Walk.settled doc, fst (Walk.analysed doc))
  ∧ ∃ r, analysisResult (Walk.settled doc) = Some r ∧ stage (Walk.settled doc) = results
         ∧ hasApiKey (Walk.settled doc) = true.
Proof.
  intros Hbridge Hcalled.
  assert (Text.trim doc ≠ EmptyString) as Htrim.
  { intros Hblank. revert Hcalled. unfold Walk.submitted, App.handleAnalyze_begin.
    cbn [jsonInput App.setJsonInput]. by rewrite Hblank. }
  assert (stage (fst (fst (Walk.submitted doc))) = analyzing
          ∧ hasApiKey (fst (fst (Walk.submitted doc))) = true) as [Hstage Hkey].
  { revert Hcalled. unfold Walk.submitted, App.handleAnalyze_begin.
    cbn [jsonInput App.setJsonInput].
    destruct (Text.trim doc); [done|].
    by destruct (JSON.parse doc []) as [[h1 v]|]. }
  assert (∃ r, snd (Walk.analysed doc) = Resolved r) as [r Hr].
  { unfold Walk.analysed. generalize (snd (fst (Walk.submitted doc))). intros h.
    unfold Service.analyzeWorkflow.
    assert (∃ ms es received v s f nbs,
               JSONText.parse (Text.stripFence (Text.trim Samples.fencedResponse))
               = Some (JObj ms)
               ∧ Service.member ms "errors" = Some (JArr es)
               ∧ existsb Service.isNull es = false
               ∧ mapM Service.asWorkflowError es = Some received
               ∧ Service.asBool (Service.member ms "isValid") = Some v
               ∧ Service.asSummary (Service.member ms "summary") = Some s
               ∧ Service.asString (Service.member ms "textFlow") = Some f
               ∧ Service.asArray (Service.member ms "nodeBreakdowns")
                   ≫= mapM Service.asNodeBreakdown = Some nbs)
      as (ms & es & received & v & s & f & nbs & Hp & He & Hn & Hrec & Hv & Hs & Hf & Hb).
    { vm_compute. do 7 eexists. repeat split; reflexivity. }
    unfold Service.processResponse. rewrite Hp, He, Hn, Hrec, Hv, Hs, Hf, Hb.
    destruct (Service.postProcessAll h received). by eexists. }
  split.
  - eapply rtc_l; [apply (Interface.checkApiKey _ _ _ true); exact Hbridge|].
    eapply rtc_l; [apply (Interface.edit _ _ _ doc); reflexivity|].
    eapply rtc_l.
    { apply (Interface.submit _ _ _ _ _ (fst (fst (Walk.submitted doc)))
               (snd (fst (Walk.submitted doc))) (snd (Walk.submitted doc)));
        [reflexivity|reflexivity| |].
      - unfold View.analyzeDisabled. cbn [jsonInput App.setJsonInput].
        clear -Htrim. destruct (Text.trim doc); [by destruct Htrim|reflexivity].
      - unfold Walk.submitted, Walk.keyed. clear.
        destruct (App.handleAnalyze_begin _ _) as [[? ?] ?]. reflexivity. }
    eapply rtc_l; [|apply rtc_refl].
    apply (Interface.settle _ _ _ (Some "key"%string) (Reply (Some Samples.fencedResponse))
             (snd (Walk.analysed doc))); [exact Hstage| |].
    + unfold Walk.analysed. clear.
      destruct (Service.analyzeWorkflow _ _ _ _). reflexivity.
    + unfold Walk.settled. rewrite Hr. reflexivity.
  - exists r. unfold Walk.settled. rewrite Hr.
    split; [reflexivity|]. split; [reflexivity|exact Hkey].
Qed.

(** X18. Through the interface only fixes that need no input from the
    user are ever approved: whatever the user does, every approved id is
    the id of an issue of the current result that is offered for
    acceptance; with ids unique within the result, no issue that requires
    user input is approved, so none is applied. *)
Theorem interface_approves_offered_only (bridge : bool) (M : messages) (E : engine)
  (st : AppState) (h : heap) :
  rtc (Interface.step bridge M E) (App.initial, []) (st, h) →
  (∀ i, i ∈ approvedFixes st →
        ∃ r e, analysisResult st = Some r ∧ e ∈ errors r ∧ id e = i
               ∧ requiresUserInput (jsonModification e) = false)
  ∧ (∀ r, analysisResult st = Some r → NoDup (map id (errors r)) →
          ∀ e, e ∈ errors r → requiresUserInput (jsonModification e) = true →
               id e ∉ approvedFixes st).
Proof.
  intros (_ & _ & Happ & _)%consistent_run.
  destruct (analysisResult st) as [r|]; [|rewrite Happ; set_solver].
  split.
  - intros i (e & He & Hid & Hoffer)%Happ. exists r, e.
    unfold View.acceptOffered in Hoffer. apply negb_true_iff in Hoffer. done.
  - intros r' [= <-] Hnd e He Hman (e' & He' & Hid & Hoffer)%Happ.
    assert (e' = e) as -> by eauto using NoDup_map_id_inj.
    unfold View.acceptOffered in Hoffer. by rewrite Hman in Hoffer.
Qed.

Lemma interface_approves_offered_only_witness :
  approvedFixes (App.approveAllFixes (Walk.settled Samples.docAB1))
  = {[ "e1"%string; "e2"%string; "e3"%string ]}
  ∧ ∀ i, i ∈ approvedFixes (App.approveAllFixes (Walk.settled Samples.docAB1)) →
         ∃ r e, analysisResult (App.approveAllFixes (Walk.settled Samples.docAB1)) = Some r
                ∧ e ∈ errors r ∧ id e = i
                ∧ requiresUserInput (jsonModification e) = false.
Proof.
  split; [vm_compute; reflexivity|].
  destruct (interface_analysed true Samples.docAB1 eq_refl ltac:(vm_compute; reflexivity))
    as (Hrun & r & Hr & Hstage & Hkey).
  apply (interface_approves_offered_only true Samples.messages0 Samples.engine0 _
           (fst (Walk.analysed Samples.docAB1))).
  eapply rtc_r; [exact Hrun|].
  apply (Interface.approveAllFixes _ _ _ r).
  - unfold View.resultsShown. by rewrite Hkey, Hstage.
  - intros Hnil. revert Hr. vm_compute. intros [= <-]. discriminate Hnil.
Defined.

(** X19. Through the interface the stage and the result go together: in
    the [results] stage an analysis result is present, so its view is
    rendered; in the [analyzing] stage there is no result and no approved
    fix; and the section state is empty at all times, nothing ever calling
    [toggleSection]. *)
Theorem interface_stage_and_result (bridge : bool) (M : messages) (E : engine)
  (st : AppState) (h : heap) :
  rtc (Interface.step bridge M E) (App.initial, []) (st, h) →
  (stage st = results → is_Some (analysisResult st))
  ∧ (stage st = analyzing → analysisResult st = None ∧ approvedFixes st = ∅)
  ∧ openSections st = ∅.
Proof.
  intros (Hres & Hana & Happ & Hopen)%consistent_run.
  split; [done|]. split; [|done]. intros Hstage. specialize (Hana Hstage).
  by rewrite Hana in Happ.
Qed.

Lemma interface_stage_and_result_witness :
  stage (Walk.settled Samples.docAB1) = results
  ∧ is_Some (analysisResult (Walk.settled Samples.docAB1))
  ∧ openSections (Walk.settled Samples.docAB1) = ∅.
Proof.
  destruct (interface_analysed true Samples.docAB1 eq_refl ltac:(vm_compute; reflexivity))
    as (Hrun & r & Hr & Hstage & Hkey).
  destruct (interface_stage_and_result true Samples.messages0 Samples.engine0 _ _ Hrun)
    as (Hres & _ & Hopen).
  split; [exact Hstage|]. split; [exact (Hres Hstage)|exact Hopen].
Defined.

(** X20. Through the interface the corrected document and its download
    button are rendered only while a fix of the current result that is
    offered for acceptance is approved. *)
Theorem corrected_shown_only_with_fix (bridge : bool) (M : messages) (E : engine)
  (st : AppState) (h : heap) (memo : option string) :
  rtc (Interface.step bridge M E) (App.initial, []) (st, h) →
  View.correctedShown memo st = true →
  ∃ r e, analysisResult st = Some r ∧ e ∈ errors r ∧ id e ∈ approvedFixes st
         ∧ requiresUserInput (jsonModification e) = false.
Proof.
  intros (_ & _ & Happ & _)%consistent_run Hshown.
  unfold View.correctedShown in Hshown. destruct memo as [[|c text]|]; try done.
  apply Nat.ltb_lt in Hshown.
  destruct (set_choose_L (approvedFixes st)) as [i Hi].
  { intros Hempty. rewrite Hempty, size_empty in Hshown. lia. }
  destruct (analysisResult st) as [r|]; [|rewrite Happ in Hi; set_solver].
  destruct (Happ i Hi) as (e & He & <- & Hoffer).
  exists r, e. unfold View.acceptOffered in Hoffer. apply negb_true_iff in Hoffer. done.
Qed.

Lemma corrected_shown_only_with_fix_witness :
  View.correctedShown (Some Samples.correctedAB1)
    (App.approveAllFixes (Walk.settled Samples.docAB1)) = true
  ∧ ∃ r e, analysisResult (App.approveAllFixes (Walk.settled Samples.docAB1)) = Some r
           ∧ e ∈ errors r
           ∧ id e ∈ approvedFixes (App.approveAllFixes (Walk.settled Samples.docAB1))
           ∧ requiresUserInput (jsonModification e) = false.
Proof.
  assert (View.correctedShown (Some Samples.correctedAB1)
            (App.approveAllFixes (Walk.settled Samples.docAB1)) = true) as Hshown
    by (vm_compute; reflexivity).
  split; [exact Hshown|].
  destruct (interface_analysed true Samples.docAB1 eq_refl ltac:(vm_compute; reflexivity))
    as (Hrun & r & Hr & Hstage & Hkey).
  apply (corrected_shown_only_with_fix true Samples.messages0 Samples.engine0 _
           (fst (Walk.analysed Samples.docAB1)) (Some Samples.correctedAB1)); [|exact Hshown].
  eapply rtc_r; [exact Hrun|].
  apply (Interface.approveAllFixes _ _ _ r).
  - unfold View.resultsShown. by rewrite Hkey, Hstage.
  - intros Hnil. revert Hr. vm_compute. intros [= <-]. discriminate Hnil.
Defined.

(** X21. Where [window.aistudio] does not exist the application never
    leaves its key screen: neither the effect nor the button "Select API
    Key" does anything, and the session stays what it was at the start. *)
Theorem without_bridge_nothing_happens (M : messages) (E : engine) (x : AppState * heap) :
  rtc (Interface.step false M E) (App.initial, []) x →
  x = (App.initial, []) ∧ View.keyScreen (fst x) = true.
Proof.
  intros Hrun.
  enough (x = (App.initial, [])) as -> by done.
  remember (App.initial, @nil object) as x0 eqn:Hx0.
  induction Hrun as [x|x y z Hstep _ IH]; [done|]. subst x.
  enough (y = (App.initial, [])) as -> by auto.
  inversion Hstep; subst; try done.
Qed.

Lemma without_bridge_nothing_happens_witness :
  View.keyScreen App.initial = true
  ∧ ¬ Interface.step false Samples.messages0 Samples.engine0 (App.initial, [])
        (App.setHasApiKey true App.initial, []).
Proof.
  split; [reflexivity|]. intros Hstep.
  destruct (without_bridge_nothing_happens Samples.messages0 Samples.engine0
              (App.setHasApiKey true App.initial, [])
              (rtc_once _ _ Hstep)) as [Heq _].
  discriminate Heq.
Defined.

Lemma session_keeps_original_witness :
  fst (App.correctedWorkflowJson Samples.engine0 Samples.allApproved
         (fst (Samples.analysed Samples.docAB1)))
  ≠ fst (Samples.analysed Samples.docAB1)
  ∧ JSON.stringify
      (fst (App.correctedWorkflowJson Samples.engine0 Samples.allApproved
              (fst (Samples.analysed Samples.docAB1))))
      (originalWorkflow Samples.allApproved)
    = Some (Some Samples.docAB1').
Proof.
  split; [vm_compute; discriminate|].
  destruct session_example as (Hrun & _).
  unfold JSON.stringify.
  rewrite (session_keeps_original Samples.messages0 Samples.engine0 _ _ Hrun).
  vm_compute. reflexivity.
Defined.

Lemma session_nothing_approved_witness :
  ∃ text, JSON.stringify2 (fst (Samples.analysed Samples.docAB1))
            (originalWorkflow (Samples.settled Samples.docAB1)) = Some (Some text)
          ∧ snd (App.correctedWorkflowJson Samples.engine0 (Samples.settled Samples.docAB1)
                   (fst (Samples.analysed Samples.docAB1))) = Value (Some text).
Proof.
  assert (∃ r, analysisResult (Samples.settled Samples.docAB1) = Some r) as [r Hr]
    by (vm_compute; eexists; reflexivity).
  apply (session_nothing_approved Samples.messages0 Samples.engine0 _ _ r);
    [|exact Hr|vm_compute; reflexivity|vm_compute; reflexivity].
  apply (session_analysed Samples.docAB1). vm_compute. reflexivity.
Defined.

(** ** A fenced response *)

(** White space after a text does not change what is read at its head. *)
Lemma skip_ws_append (x s : string) :
  JSONText.skip_ws x = EmptyString →
  JSONText.skip_ws (s +:+ x)
  = match JSONText.skip_ws s with
    | EmptyString => EmptyString
    | String c t => String c (t +:+ x)
    end.
Proof.
  intros Hx. induction s as [|c s IH]; [exact Hx|].
  rewrite append_cons. cbn [JSONText.skip_ws]. by destruct (JSONText.is_ws c).
Qed.

Lemma ws_head (x : string) :
  JSONText.skip_ws x = EmptyString →
  x = EmptyString ∨ ∃ c x', x = String c x' ∧ JSONText.is_ws c = true.
Proof.
  destruct x as [|c x']; [by left|]. cbn [JSONText.skip_ws].
  destruct (JSONText.is_ws c) eqn:Hc; [|done]. right. by exists c, x'.
Qed.

Lemma startsWith_append (p s x : string) :
  Text.startsWith p s = true → Text.startsWith p (s +:+ x) = true.
Proof. intros [r ->]%startsWith_inv. rewrite append_assoc. apply startsWith_app. Qed.

Lemma dropChars_append (p s x : string) :
  Text.startsWith p s = true →
  Text.dropChars (String.length p) (s +:+ x) = Text.dropChars (String.length p) s +:+ x.
Proof.
  revert s. induction p as [|a p IH]; intros s; [done|].
  destruct s as [|b s]; [done|]. cbn [Text.startsWith]. intros [_ H]%andb_true_iff.
  rewrite append_cons. cbn [String.length Text.dropChars]. by apply IH.
Qed.

Lemma takeDigits_append (x s : string) :
  JSONText.skip_ws x = EmptyString →
  Numeral.takeDigits (s +:+ x)
  = (fst (Numeral.takeDigits s), snd (Numeral.takeDigits s) +:+ x).
Proof.
  intros Hx. induction s as [|c s IH].
  - destruct (ws_head x Hx) as [->|(c & x' & -> & Hc)]; [done|].
    destruct c as [[] [] [] [] [] [] [] []]; try discriminate Hc; reflexivity.
  - rewrite append_cons. cbn [Numeral.takeDigits]. rewrite IH.
    destruct (Numeral.char_digit c); [|done]. by destruct (Numeral.takeDigits s).
Qed.

Lemma intPart_append (x s : string) (ds : list digit) (r : string) :
  JSONText.skip_ws x = EmptyString →
  Numeral.intPart s = Some (ds, r) → Numeral.intPart (s +:+ x) = Some (ds, r +:+ x).
Proof.
  intros Hx H.
  assert (∀ c u, Ascii.eqb c "0" = false →
                 Numeral.intPart (String c u)
                 = match Numeral.takeDigits (String c u) with
                   | ([], _) => None
                   | (ds', r') => Some (ds', r')
                   end) as Hother.
  { intros c u Hc. destruct c as [[] [] [] [] [] [] [] []]; try done. }
  destruct s as [|c t]; [done|]. rewrite append_cons.
  destruct (Ascii.eqb c "0") eqn:Hc.
  - apply Ascii.eqb_eq in Hc as ->. by injection H as <- <-.
  - rewrite Hother in H |- * by done. rewrite <- append_cons, (takeDigits_append x _ Hx).
    destruct (Numeral.takeDigits (String c t)) as [[|d ds'] r']; [done|].
    by injection H as <- <-.
Qed.

Lemma fracPart_append (x s : string) (ds : list digit) (r : string) :
  JSONText.skip_ws x = EmptyString →
  Numeral.fracPart s = Some (ds, r) → Numeral.fracPart (s +:+ x) = Some (ds, r +:+ x).
Proof.
  intros Hx H.
  assert (∀ c u, Ascii.eqb c "." = false →
                 Numeral.fracPart (String c u) = Some ([], String c u)) as Hother.
  { intros c u Hc. destruct c as [[] [] [] [] [] [] [] []]; try done. }
  destruct s as [|c t].
  - injection H as <- <-.
    destruct (ws_head x Hx) as [->|(c & x' & -> & Hc)]; [done|].
    apply Hother. destruct c as [[] [] [] [] [] [] [] []]; try discriminate Hc; reflexivity.
  - rewrite append_cons. destruct (Ascii.eqb c ".") eqn:Hc.
    + apply Ascii.eqb_eq in Hc as ->. cbn [Numeral.fracPart] in H |- *.
      rewrite (takeDigits_append x _ Hx).
      destruct (Numeral.takeDigits t) as [[|d ds'] r']; [done|].
      by injection H as <- <-.
    + rewrite Hother in H |- * by done. by injection H as <- <-.
Qed.

Lemma expPart_append (x s : string) (e : Z) (r : string) :
  JSONText.skip_ws x = EmptyString →
  Numeral.expPart s = Some (e, r) → Numeral.expPart (s +:+ x) = Some (e, r +:+ x).
Proof.
  intros Hx H. unfold Numeral.expPart in H |- *.
  destruct s as [|c t].
  - injection H as <- <-.
    destruct (ws_head x Hx) as [->|(c & x' & -> & Hc)]; [done|].
    destruct c as [[] [] [] [] [] [] [] []]; try discriminate Hc; reflexivity.
  - rewrite append_cons.
    destruct (Ascii.eqb c "e" || Ascii.eqb c "E"); [|by injection H as <- <-].
    assert (∀ sgn u, match Numeral.takeDigits u with
                     | ([], _) => None
                     | (ds, r') => Some ((sgn * Z.of_N (Numeral.N_of_digits ds))%Z, r')
                     end = Some (e, r) →
                     match Numeral.takeDigits (u +:+ x) with
                     | ([], _) => None
                     | (ds, r') => Some ((sgn * Z.of_N (Numeral.N_of_digits ds))%Z, r')
                     end = Some (e, r +:+ x)) as Hexp.
    { intros sgn u Hu. rewrite (takeDigits_append x _ Hx).
      destruct (Numeral.takeDigits u) as [[|d ds] r']; [done|]. by injection Hu as <- <-. }
    destruct t as [|c' t']; [done|]. rewrite append_cons.
    destruct (Ascii.eqb c' "+") eqn:Hp; [apply Ascii.eqb_eq in Hp as ->; by apply Hexp|].
    destruct (Ascii.eqb c' "-") eqn:Hm; [apply Ascii.eqb_eq in Hm as ->; by apply Hexp|].
    rewrite <- append_cons.
    destruct c' as [[] [] [] [] [] [] [] []]; try discriminate Hp; try discriminate Hm;
      apply (Hexp 1%Z) in H; exact H.
Qed.

Lemma parseNumber_append (x s : string) (n : number) (r : string) :
  JSONText.skip_ws x = EmptyString →
  Numeral.parseNumber s = Some (n, r) → Numeral.parseNumber (s +:+ x) = Some (n, r +:+ x).
Proof.
  intros Hx.
  assert (∀ neg s1, Numeral.parseUnsigned neg s1 = Some (n, r) →
                    Numeral.parseUnsigned neg (s1 +:+ x) = Some (n, r +:+ x)) as Hun.
  { intros neg s1. unfold Numeral.parseUnsigned.
    destruct (Numeral.intPart s1) as [[int s2]|] eqn:Hi; [|done].
    destruct (Numeral.fracPart s2) as [[frac s3]|] eqn:Hf; [|done].
    destruct (Numeral.expPart s3) as [[e r']|] eqn:He; [|done].
    intros [= <- <-].
    by rewrite (intPart_append x _ _ _ Hx Hi), (fracPart_append x _ _ _ Hx Hf),
      (expPart_append x _ _ _ Hx He). }
  unfold Numeral.parseNumber. destruct s as [|c t].
  - intros H. discriminate H.
  - rewrite append_cons. destruct (Ascii.eqb c "-"); [apply Hun|].
    rewrite <- append_cons. apply Hun.
Qed.

Lemma parseChars_append (x : string) (n : nat) :
  ∀ s str r, String.length s ≤ n → JSONText.parseChars s = Some (str, r) →
    JSONText.parseChars (s +:+ x) = Some (str, r +:+ x).
Proof.
  induction n as [|n IH]; intros [|c t] str r Hn H; try done; cbn [String.length] in Hn;
    [lia|].
  rewrite append_cons. cbn [JSONText.parseChars] in H |- *.
  destruct (Ascii.eqb c Text.dq); [by injection H as <- <-|].
  destruct (Ascii.eqb c "\").
  - destruct t as [|e t']; [done|]. rewrite append_cons. cbn [String.length] in Hn.
    assert (∀ y, match JSONText.parseChars t' with
                 | Some (r0, rest) => Some (String y r0, rest)
                 | None => None
                 end = Some (str, r) →
                 match JSONText.parseChars (t' +:+ x) with
                 | Some (r0, rest) => Some (String y r0, rest)
                 | None => None
                 end = Some (str, r +:+ x)) as Hlit.
    { intros y Hy. destruct (JSONText.parseChars t') as [[x2 r2]|] eqn:H2; [|done].
      injection Hy as <- <-. by rewrite (IH t' _ _ ltac:(lia) H2). }
    assert (∀ u y, String.length u ≤ n →
                   match JSONText.parseChars u with
                   | Some (r0, rest) => Some (y +:+ r0, rest)
                   | None => None
                   end = Some (str, r) →
                   match JSONText.parseChars (u +:+ x) with
                   | Some (r0, rest) => Some (y +:+ r0, rest)
                   | None => None
                   end = Some (str, r +:+ x)) as Hu.
    { intros u y Hlen Hy. destruct (JSONText.parseChars u) as [[x2 r2]|] eqn:H2; [|done].
      injection Hy as <- <-. by rewrite (IH _ _ _ Hlen H2). }
    destruct t' as [|h1 [|h2 [|h3 [|h4 t'']]]]; cbn [String.length] in Hn;
      destruct e as [[] [] [] [] [] [] [] []]; cbv beta iota zeta in H |- *;
      try discriminate H; try (apply Hlit in H; exact H);
      try (destruct (Ascii.eqb _ Text.dq); [apply Hlit in H; exact H|discriminate H]).
    rewrite !append_cons.
    destruct (JSONText.hex_value h1), (JSONText.hex_value h2), (JSONText.hex_value h3),
      (JSONText.hex_value h4); try discriminate H.
    apply Hu in H; [exact H|lia].
  - destruct (nat_of_ascii c <? 32); [done|].
    destruct (JSONText.parseChars t) as [[x1 r1]|] eqn:H1; [|done].
    rewrite (IH t _ _ ltac:(lia) H1). by injection H as <- <-.
Qed.

(** A parser that finds a value finds the same one when white space is
    added at the end of the text, and leaves that white space unread. *)
Lemma parseValue_append (x : string) (f : nat) :
  JSONText.skip_ws x = EmptyString →
  (∀ s t r, JSONText.parseValue f s = Some (t, r) →
            JSONText.parseValue f (s +:+ x) = Some (t, r +:+ x))
  ∧ (∀ s xs r, JSONText.parseElements f s = Some (xs, r) →
               JSONText.parseElements f (s +:+ x) = Some (xs, r +:+ x))
  ∧ (∀ s ms r, JSONText.parseMembers f s = Some (ms, r) →
               JSONText.parseMembers f (s +:+ x) = Some (ms, r +:+ x)).
Proof.
  intros Hx. induction f as [|f (IHv & IHe & IHm)]; [done|].
  split; [|split].
  - intros s t r H. cbn [JSONText.parseValue] in H |- *.
    rewrite (skip_ws_append x s Hx).
    destruct (JSONText.skip_ws s) as [|c s']; [done|].
    pose proof (parseNumber_append x (String c s')) as Hn. rewrite append_cons in Hn.
    pose proof (skip_ws_append x s' Hx) as Hs'.
    destruct (Numeral.parseNumber (String c s')) as [[n rn]|];
      [rewrite (Hn n rn Hx eq_refl)|]; clear Hn;
      (destruct (JSONText.parseChars s') as [[str rs]|] eqn:Hc;
       [rewrite (parseChars_append x _ s' str rs (le_n _) Hc)|]);
      (destruct (JSONText.parseElements f s') as [[xs rx]|] eqn:He;
       [rewrite (IHe _ _ _ He)|]);
      (destruct (JSONText.parseMembers f s') as [[ms rm]|] eqn:Hm;
       [rewrite (IHm _ _ _ Hm)|]);
      destruct c as [[] [] [] [] [] [] [] []]; cbv beta iota in H |- *;
      try discriminate H;
      try (destruct (Ascii.eqb _ Text.dq); [|discriminate H]);
      try (injection H as <- <-; reflexivity);
      try match type of H with
          | context [Text.startsWith ?p ?u] =>
              destruct (Text.startsWith p u) eqn:Hp; [|discriminate H];
              rewrite (startsWith_append p u x Hp);
              pose proof (dropChars_append p u x Hp) as Hd; cbn [String.length] in Hd;
              rewrite Hd; injection H as <- <-; reflexivity
          end;
      rewrite Hs'; destruct (JSONText.skip_ws s') as [|c2 s2];
      cbn [Text.startsWith Text.dropChars] in H |- *;
      try discriminate H; try (injection H as <- <-; reflexivity);
      destruct (Ascii.eqb _ c2); cbn [andb] in H |- *;
      try discriminate H; injection H as <- <-; reflexivity.
  - intros s xs r H. cbn [JSONText.parseElements] in H |- *.
    destruct (JSONText.parseValue f s) as [[v r1]|] eqn:Hv; [|done].
    rewrite (IHv _ _ _ Hv), (skip_ws_append x r1 Hx).
    destruct (JSONText.skip_ws r1) as [|c r2]; [done|].
    destruct (JSONText.parseElements f r2) as [[vs r3]|] eqn:Hvs;
      [rewrite (IHe _ _ _ Hvs)|];
      destruct c as [[] [] [] [] [] [] [] []]; cbv beta iota in H |- *;
      try discriminate H; injection H as <- <-; reflexivity.
  - intros s ms r H. cbn [JSONText.parseMembers] in H |- *.
    rewrite (skip_ws_append x s Hx).
    destruct (JSONText.skip_ws s) as [|c s1]; [done|].
    destruct (Ascii.eqb c Text.dq); [|done].
    destruct (JSONText.parseChars s1) as [[k r1]|] eqn:Hk; [|done].
    rewrite (parseChars_append x _ s1 k r1 (le_n _) Hk), (skip_ws_append x r1 Hx).
    destruct (JSONText.skip_ws r1) as [|c1 r2]; [done|].
    destruct (JSONText.parseValue f r2) as [[v r3]|] eqn:Hv.
    2: { destruct c1 as [[] [] [] [] [] [] [] []]; cbv beta iota in H; discriminate H. }
    rewrite (IHv _ _ _ Hv), (skip_ws_append x r3 Hx).
    destruct (JSONText.skip_ws r3) as [|c3 r4].
    { destruct c1 as [[] [] [] [] [] [] [] []]; cbv beta iota in H; discriminate H. }
    destruct (JSONText.parseMembers f r4) as [[ms' r5]|] eqn:Hms;
      [rewrite (IHm _ _ _ Hms)|];
      destruct c1 as [[] [] [] [] [] [] [] []]; cbv beta iota in H |- *;
      try discriminate H;
      destruct c3 as [[] [] [] [] [] [] [] []]; cbv beta iota in H |- *;
      try discriminate H; injection H as <- <-; reflexivity.
Qed.

Lemma parse_append (x s : string) (t : json) :
  JSONText.skip_ws x = EmptyString →
  JSONText.parse s = Some t → JSONText.parse (s +:+ x) = Some t.
Proof.
  intros Hx H. unfold JSONText.parse in H.
  destruct (JSONText.parseValue (JSONText.fuel_for s) s) as [[v r]|] eqn:Hv; [|done].
  destruct (JSONText.skip_ws r) eqn:Hr; [|done]. injection H as ->.
  apply (proj1 (parseValue_append x _ Hx)) in Hv.
  apply (parseValue_more _ (JSONText.fuel_for (s +:+ x))) in Hv;
    [|unfold JSONText.fuel_for; rewrite append_length; lia].
  unfold JSONText.parse. by rewrite Hv, (skip_ws_append x r Hx), Hr.
Qed.

Lemma skip_ws_idempotent (s : string) :
  JSONText.skip_ws (JSONText.skip_ws s) = JSONText.skip_ws s.
Proof.
  induction s as [|c s IH]; [done|]. cbn [JSONText.skip_ws].
  destruct (JSONText.is_ws c) eqn:Hc; [done|]. cbn [JSONText.skip_ws]. by rewrite Hc.
Qed.

Lemma skip_ws_head (s : string) (c : ascii) (u : string) :
  JSONText.skip_ws s = String c u → JSONText.is_ws c = false.
Proof.
  induction s as [|c1 s IH]; [done|]. cbn [JSONText.skip_ws].
  destruct (JSONText.is_ws c1) eqn:Hc; [done|]. by intros [= <- _].
Qed.

Lemma parseValue_skip (f : nat) (s : string) :
  JSONText.parseValue f (JSONText.skip_ws s) = JSONText.parseValue f s.
Proof. destruct f as [|f]; [done|]. cbn [JSONText.parseValue]. by rewrite skip_ws_idempotent. Qed.

(** The white space before a JSON text plays no part. *)
Lemma parse_skip (s : string) : JSONText.parse (JSONText.skip_ws s) = JSONText.parse s.
Proof.
  unfold JSONText.parse.
  rewrite <- (parseValue_fuel (JSONText.skip_ws s) (JSONText.fuel_for s)), parseValue_skip;
    [done|].
  pose proof (skip_ws_length s). unfold JSONText.fuel_for. lia.
Qed.

(** A JSON text starts, after its white space, with a character that is
    neither white space nor the first byte of a white-space character. *)
Lemma json_head (s : string) (t : json) :
  JSONText.parse s = Some t →
  ∃ c u, JSONText.skip_ws s = String c u
         ∧ Text.is_space c = false
         ∧ nat_of_ascii c ≠ 194 ∧ nat_of_ascii c ≠ 225 ∧ nat_of_ascii c ≠ 226
         ∧ nat_of_ascii c ≠ 227 ∧ nat_of_ascii c ≠ 239.
Proof.
  intros H. rewrite <- parse_skip in H.
  destruct (JSONText.skip_ws s) as [|c u] eqn:Hskip; [done|].
  exists c, u. split; [done|].
  pose proof (skip_ws_head s c u Hskip) as Hws.
  assert (¬ (Text.is_space c = true
             ∨ nat_of_ascii c = 194 ∨ nat_of_ascii c = 225 ∨ nat_of_ascii c = 226
             ∨ nat_of_ascii c = 227 ∨ nat_of_ascii c = 239)) as Hnot.
  { intros Hc. unfold JSONText.parse in H.
    by rewrite (parseValue_blank_head c u _ Hws Hc) in H. }
  destruct (Text.is_space c); [exfalso; apply Hnot; by left|].
  repeat split; try done; intros Heq; apply Hnot; auto 10.
Qed.

Lemma trimStart_plain_head (c : ascii) (t : string) :
  Text.is_space c = false →
  nat_of_ascii c ≠ 194 → nat_of_ascii c ≠ 225 → nat_of_ascii c ≠ 226 →
  nat_of_ascii c ≠ 227 → nat_of_ascii c ≠ 239 →
  Text.trimStart (String c t) = String c t.
Proof.
  intros Hsp H2%Nat.eqb_neq Ha%Nat.eqb_neq Hb%Nat.eqb_neq Hc%Nat.eqb_neq Hd%Nat.eqb_neq.
  cbn [Text.trimStart]. rewrite Hsp.
  destruct t as [|c2 [|c3 t]]; [done| |]; unfold Text.is_space2; rewrite H2;
    cbn [andb]; [done|].
  unfold Text.is_space3. cbv zeta. by rewrite Ha, Hb, Hc, Hd.
Qed.

(** [trimStart] stops where the JSON text starts. *)
Lemma trimStart_json (s z : string) (t : json) :
  JSONText.parse s = Some t →
  Text.trimStart (s +:+ z) = JSONText.skip_ws s +:+ z.
Proof.
  intros H. destruct (json_head s t H) as (c & u & Hskip & Hsp & H2 & Ha & Hb & Hc & Hd).
  clear H. rewrite Hskip. revert Hskip. induction s as [|c1 s IH]; [done|].
  cbn [JSONText.skip_ws]. rewrite append_cons.
  destruct (JSONText.is_ws c1) eqn:Hws.
  - intros Hskip. cbn [Text.trimStart].
    assert (Text.is_space c1 = true) as ->; [|by apply IH].
    destruct c1 as [[] [] [] [] [] [] [] []]; try discriminate Hws; reflexivity.
  - intros [= -> ->]. rewrite append_cons. by apply trimStart_plain_head.
Qed.

(** A white-space character at the head of a text is read before the
    first backtick of the text. *)
Lemma afterSpace_backtick (a b t : string) :
  Text.afterSpace (a +:+ String "`" b) = Some t →
  ∃ a', t = a' +:+ String "`" b ∧ String.length a' < String.length a.
Proof.
  assert (∀ c, Text.is_space2 c "`" = false) as H2.
  { intros c. unfold Text.is_space2. apply andb_false_r. }
  assert (∀ c c3, Text.is_space3 c "`" c3 = false) as H3.
  { intros c c3. destruct c as [[] [] [] [] [] [] [] []]; reflexivity. }
  assert (∀ c c2, Text.is_space3 c c2 "`" = false) as H3'.
  { intros c c2. unfold Text.is_space3. cbv zeta.
    change (nat_of_ascii "`") with 96. cbn [Nat.eqb Nat.leb andb orb].
    by rewrite !andb_false_r. }
  destruct a as [|c1 [|c2 [|c3 a]]]; rewrite ?append_cons;
    change (EmptyString +:+ String "`" b) with (String "`" b); cbn [Text.afterSpace].
  - by destruct b as [|c2 [|c3 b]].
  - rewrite H2. destruct (Text.is_space c1).
    + intros [= <-]. exists EmptyString. split; [done|]. cbn; lia.
    + destruct b; [done|]. by rewrite H3.
  - rewrite H3'. destruct (Text.is_space c1).
    { intros [= <-]. exists (String c2 EmptyString). split; [done|]. cbn; lia. }
    destruct (Text.is_space2 c1 c2); [|done].
    intros [= <-]. exists EmptyString. split; [done|]. cbn; lia.
  - destruct (Text.is_space c1).
    { intros [= <-]. exists (String c2 (String c3 a)). split; [done|]. cbn; lia. }
    destruct (Text.is_space2 c1 c2).
    { intros [= <-]. exists (String c3 a). split; [done|]. cbn; lia. }
    destruct (Text.is_space3 c1 c2 c3); [|done].
    intros [= <-]. exists a. split; [done|]. cbn; lia.
Qed.

(** A text that holds a backtick is not white space only. *)
Lemma isBlank_backtick (n : nat) :
  ∀ a b, String.length a ≤ n → Text.isBlank (a +:+ String "`" b) = false.
Proof.
  induction (lt_wf n) as [n _ IH]. intros a b Hn. rewrite isBlank_unfold.
  destruct (Text.afterSpace (a +:+ String "`" b)) as [t|] eqn:Ht.
  - destruct (afterSpace_backtick a b t Ht) as (a' & -> & Hlt).
    rewrite (IH (String.length a') ltac:(lia) a' b (le_n _)). by destruct a.
  - by destruct a.
Qed.

(** [trimEnd] stops at the last backtick of a fence. *)
Lemma trimEnd_backtick (a w : string) :
  Text.isBlank w = true →
  Text.trimEnd (a +:+ String "`" w) = a +:+ String "`" EmptyString.
Proof.
  intros Hw. induction a as [|c a IH].
  - change (EmptyString +:+ String "`" w) with (String "`" w). cbn [Text.trimEnd].
    assert (Text.isBlank (String "`" w) = false) as ->
      by apply (isBlank_backtick 0 EmptyString w (le_n _)).
    destruct w as [|c w]; [done|]. cbn [Text.trimEnd]. by rewrite Hw.
  - rewrite !append_cons. cbn [Text.trimEnd]. rewrite <- append_cons.
    by rewrite (isBlank_backtick _ (String c a) w (le_n _)), IH.
Qed.

Lemma stripEnd_append (p y : string) :
  p ≠ EmptyString → Text.stripEnd p (y +:+ p) = y.
Proof.
  intros Hp. induction y as [|c y IH].
  - destruct p as [|a p]; [done|]. change (EmptyString +:+ String a p) with (String a p).
    cbn [Text.stripEnd]. by rewrite String.eqb_refl.
  - rewrite append_cons. cbn [Text.stripEnd].
    destruct (String.eqb_spec (String c (y +:+ p)) p) as [Heq|_]; [|by rewrite IH].
    apply (f_equal String.length) in Heq. cbn [String.length] in Heq.
    rewrite append_length in Heq. lia.
Qed.

Lemma dropChars_prefix (p s : string) : Text.dropChars (String.length p) (p +:+ s) = s.
Proof. induction p as [|a p IH]; [done|]. rewrite append_cons. exact IH. Qed.

(** What the cleaning leaves of a fenced JSON text: the text from its
    first character, and the line break that stood before the closing
    fence. *)
Lemma fenced_cleaned (body tail : string) (t : json) :
  JSONText.parse body = Some t →
  Text.isBlank tail = true →
  Text.stripFence
    (Text.trim ("```json" +:+ JSONText.newline +:+ body +:+ JSONText.newline
                +:+ "```" +:+ tail))
  = JSONText.skip_ws body +:+ JSONText.newline.
Proof.
  intros Hparse Htail. unfold Text.trim.
  assert (JSONText.parse (JSONText.newline +:+ body) = Some t) as Hnl.
  { rewrite <- parse_skip.
    change (JSONText.skip_ws (JSONText.newline +:+ body)) with (JSONText.skip_ws body).
    by rewrite parse_skip. }
  remember (JSONText.newline +:+ body +:+ JSONText.newline +:+ "```" +:+ tail) as z eqn:Hz.
  assert (Text.trimStart ("```json" +:+ z) = "```json" +:+ z) as ->.
  { apply (trimStart_plain_head "`" ("``json" +:+ z)); [reflexivity|..]; vm_compute; lia. }
  subst z.
  assert ("```json" +:+ JSONText.newline +:+ body +:+ JSONText.newline +:+ "```" +:+ tail
          = ("```json" +:+ JSONText.newline +:+ body +:+ JSONText.newline +:+ "``")
            +:+ String "`" tail) as ->.
  { rewrite !append_assoc. reflexivity. }
  rewrite (trimEnd_backtick _ tail Htail), !append_assoc.
  unfold Text.stripFence, Text.fence_open, Text.fence_close.
  rewrite (startsWith_app "```json"), (dropChars_prefix "```json").
  rewrite <- (append_assoc JSONText.newline body), (trimStart_json _ _ t Hnl).
  change (JSONText.skip_ws (JSONText.newline +:+ body)) with (JSONText.skip_ws body).
  change ("``" +:+ String "`" EmptyString) with "```"%string.
  rewrite <- append_assoc. by apply stripEnd_append.
Qed.

(** X24. A response wrapped in a fence of three backticks and the word
    json, each on a line of its own and with white space at most after
    the closing fence, is analysed as its body alone is, for a body that
    is a JSON text and that the cleaning leaves as it is (no white space
    around it, no fence). *)
Theorem fenced_response_same (M : messages) (API_KEY : option string) (body tail : string)
  (t : json) (h : heap) :
  JSONText.parse body = Some t →
  Text.stripFence (Text.trim body) = body →
  Text.isBlank tail = true →
  Service.analyzeWorkflow M API_KEY
    (Reply (Some ("```json" +:+ JSONText.newline +:+ body +:+ JSONText.newline
                  +:+ "```" +:+ tail))) h
  = Service.analyzeWorkflow M API_KEY (Reply (Some body)) h.
Proof.
  intros Hparse Hbare Htail.
  assert (Service.processResponse M
            (Some ("```json" +:+ JSONText.newline +:+ body +:+ JSONText.newline
                   +:+ "```" +:+ tail)) h
          = Service.processResponse M (Some body) h) as Hsame.
  { unfold Service.processResponse. cbv zeta.
    rewrite (fenced_cleaned body tail t Hparse Htail), Hbare, Hparse.
    assert (JSONText.parse (JSONText.skip_ws body +:+ JSONText.newline) = Some t) as ->;
      [|done].
    pose proof (parse_append JSONText.newline body t eq_refl Hparse) as Happ.
    rewrite <- parse_skip, (skip_ws_append JSONText.newline body eq_refl) in Happ.
    destruct (json_head body t Hparse) as (c & u & Hskip & _).
    rewrite Hskip in Happ |- *. by rewrite append_cons. }
  unfold Service.analyzeWorkflow. by rewrite Hsame.
Qed.

Lemma fenced_response_same_witness :
  Service.analyzeWorkflow Samples.messages0 (Some "key"%string)
    (Reply (Some Samples.fencedResponse)) []
  = Service.analyzeWorkflow Samples.messages0 (Some "key"%string)
      (Reply (Some Samples.responseBody)) [].
Proof.
  assert (∃ t, JSONText.parse Samples.responseBody = Some t) as [t Ht]
    by (vm_compute; eexists; reflexivity).
  apply (fenced_response_same Samples.messages0 (Some "key"%string) Samples.responseBody
           JSONText.newline t [] Ht); vm_compute; reflexivity.
Defined.
